(** * gxtest: the prime-sieve ROM generator (tools/gen_prime_rom.py)

    A shallow embedding of the generator's instruction encoders, of the
    two-pass assembler [assemble_68k], of the fixed sieve program and the
    ROM image that [generate_rom] builds around it, and of the table of
    expected primes of [generate_cpp_header].

    Python integers are [Z].  A [bytes] or [bytearray] object is a
    [list Z]; the run-time range checks that Python performs when such an
    object is built or updated are written out and raise the exception
    that Python raises.  The label dictionary of [assemble_68k] is a
    [gmap string Z]; it is one object that the callables of a stream
    share, so it is passed from each call to the next. *)

From Stdlib Require Import ZArith List Lia Znumtheory Ascii Sorted.
From stdpp Require Import base gmap strings list.

Local Open Scope Z_scope.

(** ** Python exceptions and fallible computations *)

Inductive exn : Type :=
| ValueError    (* a value outside range(256) for a byte, too few values to unpack *)
| IndexError    (* subscript outside the sequence *)
| KeyError      (* dictionary lookup of an absent key *)
| StructError   (* struct.pack with a value outside the format's range *)
| TypeError.    (* a call with the wrong number of arguments, an operand of the wrong type *)

Inductive result (A : Type) : Type :=
| Ok (a : A)
| Raise (e : exn).

Arguments Ok {A} a.
Arguments Raise {A} e.

(** [result] is a monad: an exception skips the rest of the computation.
    The instances give it stdpp's [x ← e; k] notation. *)
#[global] Instance result_ret : MRet result := fun A a => Ok a.

#[global] Instance result_bind : MBind result := fun A B k r =>
  match r with
  | Ok a => k a
  | Raise e => Raise e
  end.

Definition raises {A : Type} (r : result A) : bool :=
  match r with
  | Ok _ => false
  | Raise _ => true
  end.

(** ** Byte strings *)

Definition is_byte (b : Z) : bool := (0 <=? b) && (b <? 256).

(** [bytes([b0, b1, ...])]: every element must lie in [range(256)]. *)
Definition bytes_of (l : list Z) : result (list Z) :=
  if forallb is_byte l then Ok l else Raise ValueError.

(** [struct.pack('>H', v)]: two bytes, most significant first. *)
Definition struct_pack_H (v : Z) : result (list Z) :=
  if (0 <=? v) && (v <=? 0xFFFF)
  then Ok [Z.shiftr v 8; Z.land v 0xFF]
  else Raise StructError.

(** [struct.pack('>I', v)]: four bytes, most significant first. *)
Definition struct_pack_I (v : Z) : result (list Z) :=
  if (0 <=? v) && (v <=? 0xFFFFFFFF)
  then Ok [Z.shiftr v 24; Z.land (Z.shiftr v 16) 0xFF;
           Z.land (Z.shiftr v 8) 0xFF; Z.land v 0xFF]
  else Raise StructError.

(** [word(val)]: pack a 16-bit word (big-endian). *)
Definition word (val : Z) : result (list Z) :=
  struct_pack_H (Z.land val 0xFFFF).

(** [long(val)]: pack a 32-bit long (big-endian). *)
Definition long (val : Z) : result (list Z) :=
  struct_pack_I (Z.land val 0xFFFFFFFF).

(** [a + b] on two byte strings, either of which may have raised. *)
Definition bcat (a b : result (list Z)) : result (list Z) :=
  x ← a; y ← b; Ok (x ++ y).

(** A [b"..."] literal: the ASCII codes of its characters. *)
Definition bytes_lit (s : string) : list Z :=
  map (fun c => Z.of_N (Ascii.N_of_ascii c)) (String.list_ascii_of_string s).

(** The value of a byte read as a signed 8-bit displacement. *)
Definition signed8 (b : Z) : Z := if b <? 128 then b else b - 256.

(** Big-endian reading of two and of four bytes. *)
Definition be16 (hi lo : Z) : Z := Z.lor (Z.shiftl hi 8) lo.

Definition be32 (b3 b2 b1 b0 : Z) : Z :=
  Z.lor (Z.shiftl b3 24) (Z.lor (Z.shiftl b2 16) (Z.lor (Z.shiftl b1 8) b0)).

(** ** The 68000 encodings used by [generate_rom] *)

Definition LEA_FF0000_A7 : result (list Z) := bytes_of [0x4F; 0xF9; 0x00; 0xFF; 0x00; 0x00].
Definition LEA_FF0000_A0 : result (list Z) := bytes_of [0x41; 0xF9; 0x00; 0xFF; 0x00; 0x00].
Definition LEA_FF0300_A1 : result (list Z) := bytes_of [0x43; 0xF9; 0x00; 0xFF; 0x03; 0x00].

Definition MOVE_W_IMM_D0 (val : Z) : result (list Z) := bcat (bytes_of [0x30; 0x3C]) (word val).
Definition MOVE_W_IMM_D1 (val : Z) : result (list Z) := bcat (bytes_of [0x32; 0x3C]) (word val).

Definition CLR_B_A0_INC : result (list Z) := bytes_of [0x42; 0x18].
Definition CLR_W_D1 : result (list Z) := bytes_of [0x42; 0x41].

Definition MOVE_B_IMM_A0 (val : Z) : result (list Z) := bytes_of [0x10; 0xBC; 0x00; val].
Definition MOVE_B_IMM_A0_OFF (val off : Z) : result (list Z) :=
  bcat (bytes_of [0x11; 0x7C; 0x00; val]) (word off).

Definition TST_B_A0_D0 : result (list Z) := bytes_of [0x4A; 0x30; 0x00; 0x00].
Definition MOVE_B_1_A0_D1 : result (list Z) := bytes_of [0x11; 0xBC; 0x00; 0x01; 0x10; 0x00].

Definition CMP_W_IMM_D0 (val : Z) : result (list Z) := bcat (bytes_of [0xB0; 0x7C]) (word val).
Definition CMP_W_IMM_D1 (val : Z) : result (list Z) := bcat (bytes_of [0xB2; 0x7C]) (word val).

Definition BNE_8 (disp : Z) : result (list Z) := bytes_of [0x66; Z.land disp 0xFF].
Definition BGT_8 (disp : Z) : result (list Z) := bytes_of [0x6E; Z.land disp 0xFF].
Definition BGE_8 (disp : Z) : result (list Z) := bytes_of [0x6C; Z.land disp 0xFF].
Definition BEQ_8 (disp : Z) : result (list Z) := bytes_of [0x67; Z.land disp 0xFF].
Definition BRA_8 (disp : Z) : result (list Z) := bytes_of [0x60; Z.land disp 0xFF].
Definition BRA_16 (disp : Z) : result (list Z) := bcat (bytes_of [0x60; 0x00]) (word disp).

Definition ADDQ_W_1_D0 : result (list Z) := bytes_of [0x52; 0x40].
Definition ADDQ_W_1_D1 : result (list Z) := bytes_of [0x52; 0x41].
Definition ADD_W_D0_D1 : result (list Z) := bytes_of [0xD2; 0x40].

Definition DBRA_D0 (disp : Z) : result (list Z) := bcat (bytes_of [0x51; 0xC8]) (word disp).

Definition MOVE_W_D0_A1_INC : result (list Z) := bytes_of [0x32; 0xC0].
Definition MOVE_W_D1_ABS (addr : Z) : result (list Z) := bcat (bytes_of [0x33; 0xC1]) (long addr).
Definition MOVE_W_IMM_ABS (val addr : Z) : result (list Z) :=
  bcat (bcat (bytes_of [0x33; 0xFC]) (word val)) (long addr).

Definition NOP : result (list Z) := bytes_of [0x4E; 0x71].

(** ** The code buffer

    [generate_rom] builds the program in one [bytearray], [program], that
    it extends and patches in place.  [M A] is a computation that reads
    and updates that buffer and may raise. *)

Definition M (A : Type) : Type := list Z -> result (A * list Z).

#[global] Instance M_ret : MRet M := fun A a p => Ok (a, p).

#[global] Instance M_bind : MBind M := fun A B k m p =>
  match m p with
  | Ok (a, p') => k a p'
  | Raise e => Raise e
  end.

(** [program.extend(bs)] *)
Definition extend (bs : result (list Z)) : M unit := fun p =>
  match bs with
  | Ok b => Ok (tt, p ++ b)
  | Raise e => Raise e
  end.

(** [len(program)] *)
Definition len : M Z := fun p => Ok (Z.of_nat (length p), p).

(** The position that the subscript [i] denotes in a sequence of [n]
    items: a negative subscript counts from the end. *)
Definition py_index (n i : Z) : result nat :=
  let j := if i <? 0 then i + n else i in
  if (0 <=? j) && (j <? n) then Ok (Z.to_nat j) else Raise IndexError.

(** [buf[i]] *)
Definition getitem (buf : list Z) (i : Z) : result Z :=
  j ← py_index (Z.of_nat (length buf)) i;
  match buf !! j with
  | Some b => Ok b
  | None => Raise IndexError
  end.

(** [buf[i] = v] on a [bytearray]: the value is checked, then the
    subscript. *)
Definition store (buf : list Z) (i v : Z) : result (list Z) :=
  if is_byte v
  then j ← py_index (Z.of_nat (length buf)) i; Ok (<[j := v]> buf)
  else Raise ValueError.

(** [program[i] = v] *)
Definition setitem (i v : Z) : M unit := fun p =>
  p' ← store p i v; Ok (tt, p').

(** [buf[a:b] = x] on a [bytearray]: both bounds are clipped to the
    buffer, and the slice is replaced by [x] whatever its length. *)
Definition clip (n i : Z) : nat :=
  let j := if i <? 0 then i + n else i in
  Z.to_nat (Z.max 0 (Z.min j n)).

Definition slice_assign (buf : list Z) (a b : Z) (x : list Z) : list Z :=
  let n := Z.of_nat (length buf) in
  let lo := clip n a in
  let hi := Nat.max lo (clip n b) in
  take lo buf ++ x ++ drop hi buf.

(** [range(lo, hi, step)] for a positive [step]. *)
Definition py_range (lo hi step : Z) : list Z :=
  map (fun k => lo + step * Z.of_nat k)
      (seq 0 (Z.to_nat ((hi - lo + step - 1) / step))).

(** [for x in xs: s = body(x, s)] *)
Fixpoint for_each {A S : Type} (xs : list A) (body : A -> S -> result S) (s : S)
  : result S :=
  match xs with
  | [] => Ok s
  | x :: xs' => s' ← body x s; for_each xs' body s'
  end.

(** ** The fixed program (generate_rom, "Build the program")

    The offsets that [generate_rom] keeps in local variables while it
    emits the program. *)

Record layout : Type := Layout {
  clear_loop : Z;
  sieve_loop : Z;
  bgt_collect : Z;
  bne_next1 : Z;
  mark_multiples : Z;
  bge_next : Z;
  next_addr : Z;
  collect : Z;
  collect_loop : Z;
  beq_done : Z;
  bge_done : Z;
  bne_not_prime : Z;
  not_prime : Z;
  done_addr : Z;
  hang : Z
}.

Definition build_program : M layout :=
  (* Initialize stack pointer *)
  extend LEA_FF0000_A7;;
  (* Clear sieve array: 600 bytes at $FF0000 *)
  extend LEA_FF0000_A0;;
  extend (MOVE_W_IMM_D0 599);;
  clear_loop ← len;
  extend CLR_B_A0_INC;;
  extend (DBRA_D0 (-4));;
  (* Mark 0 and 1 as composite *)
  extend LEA_FF0000_A0;;
  extend (MOVE_B_IMM_A0 1);;
  extend (MOVE_B_IMM_A0_OFF 1 1);;
  (* Sieve main loop *)
  extend (MOVE_W_IMM_D0 2);;
  sieve_loop ← len;
  extend (CMP_W_IMM_D0 25);;
  extend (BGT_8 0);;
  bgt_collect ← (n ← len; mret (n - 1));
  (* Check if d0 is composite *)
  extend LEA_FF0000_A0;;
  extend TST_B_A0_D0;;
  extend (BNE_8 0);;
  bne_next1 ← (n ← len; mret (n - 1));
  (* Mark multiples: d1 = 2*d0 *)
  extend (bytes_of [0x32; 0x00]);;
  extend ADD_W_D0_D1;;
  mark_multiples ← len;
  extend (CMP_W_IMM_D1 600);;
  extend (BGE_8 0);;
  bge_next ← (n ← len; mret (n - 1));
  extend MOVE_B_1_A0_D1;;
  extend ADD_W_D0_D1;;
  disp ← (n ← len; mret (mark_multiples - n - 2));
  extend (BRA_8 (Z.land disp 0xFF));;
  (* next: *)
  next_addr ← len;
  setitem bne_next1 (Z.land (next_addr - bne_next1 - 1) 0xFF);;
  setitem bge_next (Z.land (next_addr - bge_next - 1) 0xFF);;
  extend ADDQ_W_1_D0;;
  disp ← (n ← len; mret (sieve_loop - n - 2));
  extend (BRA_8 (Z.land disp 0xFF));;
  (* collect: *)
  collect ← len;
  setitem bgt_collect (Z.land (collect - bgt_collect - 1) 0xFF);;
  (* Collect primes *)
  extend LEA_FF0000_A0;;
  extend LEA_FF0300_A1;;
  extend CLR_W_D1;;
  extend (MOVE_W_IMM_D0 2);;
  collect_loop ← len;
  extend (CMP_W_IMM_D1 100);;
  extend (BEQ_8 0);;
  beq_done ← (n ← len; mret (n - 1));
  extend (CMP_W_IMM_D0 600);;
  extend (BGE_8 0);;
  bge_done ← (n ← len; mret (n - 1));
  extend TST_B_A0_D0;;
  extend (BNE_8 0);;
  bne_not_prime ← (n ← len; mret (n - 1));
  (* Found a prime *)
  extend MOVE_W_D0_A1_INC;;
  extend ADDQ_W_1_D1;;
  (* not_prime: *)
  not_prime ← len;
  setitem bne_not_prime (Z.land (not_prime - bne_not_prime - 1) 0xFF);;
  extend ADDQ_W_1_D0;;
  disp ← (n ← len; mret (collect_loop - n - 2));
  extend (BRA_8 (Z.land disp 0xFF));;
  (* done: *)
  done_addr ← len;
  setitem beq_done (Z.land (done_addr - beq_done - 1) 0xFF);;
  setitem bge_done (Z.land (done_addr - bge_done - 1) 0xFF);;
  (* Store count and set done flag *)
  extend (MOVE_W_D1_ABS 0x00FF0500);;
  extend (MOVE_W_IMM_ABS 0xDEAD 0x00FF0502);;
  (* hang: *)
  hang ← len;
  extend (BRA_8 (-2));;
  mret (Layout clear_loop sieve_loop bgt_collect bne_next1 mark_multiples
               bge_next next_addr collect collect_loop beq_done bge_done
               bne_not_prime not_prime done_addr hang).

(** ** The ROM image (generate_rom, "Build the full ROM") *)

(** The padding loop
    [while len(rom) < 512 or len(rom) % 512 != 0: rom.append(0)],
    run for at most [fuel] tests of its condition; [None] when the
    budget is spent before the condition turns false. *)
Fixpoint pad_loop (fuel : nat) (rom : list Z) : option (list Z) :=
  match fuel with
  | O => None
  | S fuel' =>
      let n := Z.of_nat (length rom) in
      if (n <? 512) || negb (n mod 512 =? 0)
      then pad_loop fuel' (rom ++ [0])
      else Some rom
  end.

(** The checksum loop
    [for i in range(0x200, len(rom), 2): checksum += (rom[i] << 8) | rom[i+1]] *)
Definition checksum_loop (rom : list Z) : result Z :=
  for_each (py_range 0x200 (Z.of_nat (length rom)) 2)
    (fun i checksum =>
       hi ← getitem rom i;
       lo ← getitem rom (i + 1);
       Ok (checksum + Z.lor (Z.shiftl hi 8) lo))
    0.

(** The header block at $000100. *)
Definition build_header (program_len : Z) : result (list Z) :=
  let header := repeat 0 256 in
  (* Console name *)
  let console := bytes_lit "SEGA MEGA DRIVE " in
  let header := slice_assign header 0x00 0x10 console in
  (* Copyright *)
  let copyright_str := bytes_lit "(C)GXTEST 2026  " in
  let header := slice_assign header 0x10 0x20 copyright_str in
  (* Domestic name (48 bytes) *)
  let domestic := bytes_lit "PRIME SIEVE TEST ROM                            " in
  let header := slice_assign header 0x20 0x50 (take 48 domestic) in
  (* Overseas name (48 bytes) *)
  let overseas := bytes_lit "PRIME SIEVE TEST ROM                            " in
  let header := slice_assign header 0x50 0x80 (take 48 overseas) in
  (* Serial/version *)
  let serial := bytes_lit "GM 00000000-00" in
  let header := slice_assign header 0x80 0x8E serial in
  (* Checksum (calculated later) *)
  w ← word 0;
  let header := slice_assign header 0x8E 0x90 w in
  (* I/O support *)
  let header := slice_assign header 0x90 0xA0 (bytes_lit "J               ") in
  (* ROM start/end *)
  let rom_end := 0x200 + program_len in
  l ← long 0x00000000;
  let header := slice_assign header 0xA0 0xA4 l in
  l ← long (rom_end - 1);
  let header := slice_assign header 0xA4 0xA8 l in
  (* RAM start/end *)
  l ← long 0x00FF0000;
  let header := slice_assign header 0xA8 0xAC l in
  l ← long 0x00FFFFFF;
  let header := slice_assign header 0xAC 0xB0 l in
  (* No SRAM *)
  let header := slice_assign header 0xB0 0xBC (bytes_lit "            ") in
  (* Notes *)
  let header := slice_assign header 0xBC 0xC8 (bytes_lit "            ") in
  (* Region *)
  let header := slice_assign header 0xF0 0xF3 (bytes_lit "JUE") in
  Ok header.

(** The first 512 bytes of the image, as they are before the checksum is
    known: the exception vectors at $000000 and the header at $000100. *)
Definition build_vectors_and_header (program_len hang : Z) : result (list Z) :=
  let rom := repeat 0 (Z.to_nat 0x200) in
  (* Exception vectors at $000000 *)
  l ← long 0x00FFFFFE;
  let rom := slice_assign rom 0x00 0x04 l in
  l ← long 0x00000200;
  let rom := slice_assign rom 0x04 0x08 l in
  (* Fill remaining vectors with address of hang loop *)
  let hang_addr := 0x200 + hang in
  rom ← for_each (py_range 0x08 0x100 4)
          (fun i rom => l ← long hang_addr; Ok (slice_assign rom i (i + 4) l))
          rom;
  (* ROM header at $000100 *)
  header ← build_header program_len;
  Ok (slice_assign rom 0x100 0x200 header).

(** The checksum, computed over the padded image and written at $18E. *)
Definition write_checksum (rom : list Z) : result (list Z) :=
  (* Calculate checksum (sum of words from $200 to end) *)
  checksum ← checksum_loop rom;
  let checksum := Z.land checksum 0xFFFF in
  w ← word checksum;
  Ok (slice_assign rom 0x18E 0x190 w).

(** The part of [generate_rom] that follows the emission of the program:
    vector table, header, code, padding and checksum.  [fuel] bounds the
    padding loop; [None] is the loop not finishing within it. *)
Definition build_rom (fuel : nat) (program : list Z) (hang : Z)
  : option (result (list Z)) :=
  match build_vectors_and_header (Z.of_nat (length program)) hang with
  | Raise e => Some (Raise e)
  | Ok rom =>
      (* Append program code *)
      let rom := rom ++ program in
      (* Pad to at least 512 bytes total, aligned to 512 *)
      match pad_loop fuel rom with
      | None => None
      | Some rom => Some (write_checksum rom)
      end
  end.

(** [generate_rom()]: the program, then the image around it. *)
Definition generate_rom (fuel : nat) : option (result (list Z)) :=
  match build_program [] with
  | Raise e => Some (Raise e)
  | Ok (lay, program) => build_rom fuel program (hang lay)
  end.

(** ** The two-pass assembler [assemble_68k]

    An element of the instruction stream is a string (a label marker when
    it ends with a colon), a byte string, a tuple, or some other object,
    which both passes skip.  A tuple is read as [(opcode, size, *args)]:
    its second element is added to the counter, and its first element is
    called when it is callable and handed to [code.extend] otherwise.
    Nothing checks the shape of a tuple beforehand, so a tuple of fewer
    than two elements, a size that is no integer, and an opcode or a
    returned value that is no sequence of bytes raise where Python raises
    for them.

    The objects met inside a tuple, and returned by a callable, are
    [None], integers, strings, byte strings and lists of integers. *)

Inductive pyval : Type :=
| VNone
| VInt (n : Z)
| VStr (s : string)
| VBytes (bs : list Z)
| VList (l : list Z).

(** A callable opcode.  [labels] is one dict for the whole of
    [assemble_68k], and the second pass hands that very object to every
    callable: a callable may bind, rebind or delete names in it, and the
    callables called after it receive the dict as it has left it.  A
    callable is therefore a function of the counter, of the table and of
    the arguments, that raises or returns a value together with the table
    as it is when the call returns.  The table holds integers under
    string keys, as the first pass builds it.  What a callable may do to
    other objects (the stream itself, a state of its own) is not
    modelled. *)
Definition callable : Type :=
  Z -> gmap string Z -> list pyval -> result (pyval * gmap string Z).

Inductive opcode : Type :=
| OpVal (v : pyval)
| OpCallable (f : callable).

Inductive inst : Type :=
| IStr (s : string)
| IBytes (bs : list Z)
| ITuple (op : opcode) (size : pyval) (args : list pyval)
| IShort    (* a tuple of fewer than two elements: [()] or [(x,)] *)
| IOther.   (* an object that is no string, byte string or tuple *)

(** [s.endswith(':')] *)
Fixpoint endswith_colon (s : string) : bool :=
  match s with
  | EmptyString => false
  | String c EmptyString => Ascii.eqb c ":"%char
  | String _ s' => endswith_colon s'
  end.

(** [s[:-1]] *)
Fixpoint but_last (s : string) : string :=
  match s with
  | EmptyString => EmptyString
  | String _ EmptyString => EmptyString
  | String c s' => String c (but_last s')
  end.

(** [pc += size]: the counter is an integer, and only an integer can be
    added to it. *)
Definition add_size (pc : Z) (size : pyval) : result Z :=
  match size with
  | VInt n => Ok (pc + n)
  | _ => Raise TypeError
  end.

(** [code.extend(v)]: [v] has to be a sequence of integers of
    [range(256)].  A string is iterated over, and its first character
    raises; the empty string passes and adds nothing. *)
Definition extend_code (code : list Z) (v : pyval) : result (list Z) :=
  match v with
  | VBytes bs | VList bs => b ← bytes_of bs; Ok (code ++ b)
  | VStr EmptyString => Ok code
  | VStr _ | VNone | VInt _ => Raise TypeError
  end.

(** First pass: collect labels.  Returns the final [pc] and the table.
    [inst[1]] raises on a tuple that has no second element. *)
Fixpoint first_pass (instructions : list inst) (pc : Z) (labels : gmap string Z)
  : result (Z * gmap string Z) :=
  match instructions with
  | [] => Ok (pc, labels)
  | i :: rest =>
      match i with
      | IStr s =>
          if endswith_colon s
          then first_pass rest pc (<[but_last s := pc]> labels)
          else first_pass rest pc labels
      | IBytes bs => first_pass rest (pc + Z.of_nat (length bs)) labels
      | ITuple _ size _ =>
          pc' ← add_size pc size;
          first_pass rest pc' labels
      | IShort => Raise IndexError
      | IOther => first_pass rest pc labels
      end
  end.

(** What the second pass obtains for a tuple met at [pc]: the value to
    extend the code with, and the table after the call if there is one. *)
Definition encode (op : opcode) (pc : Z) (labels : gmap string Z) (args : list pyval)
  : result (pyval * gmap string Z) :=
  match op with
  | OpCallable f => f pc labels args
  | OpVal v => Ok (v, labels)
  end.

(** Second pass: generate code.  Returns the final [pc], the table as
    the callables have left it, and the code.
    [opcode, size, *args = inst] raises on a tuple of fewer than two
    elements. *)
Fixpoint second_pass (instructions : list inst) (pc : Z) (labels : gmap string Z)
    (code : list Z) : result (Z * gmap string Z * list Z) :=
  match instructions with
  | [] => Ok (pc, labels, code)
  | i :: rest =>
      match i with
      | IStr s => second_pass rest pc labels code
      | IBytes bs =>
          code' ← extend_code code (VBytes bs);
          second_pass rest (pc + Z.of_nat (length bs)) labels code'
      | ITuple op size args =>
          r ← encode op pc labels args;
          code' ← extend_code code r.1;
          pc' ← add_size pc size;
          second_pass rest pc' r.2 code'
      | IShort => Raise ValueError
      | IOther => second_pass rest pc labels code
      end
  end.

Definition assemble_68k (instructions : list inst) : result (list Z) :=
  t ← first_pass instructions 0 ∅;
  r ← second_pass instructions 0 t.2 [];
  Ok r.2.

(** [branch_displacement(pc, labels, target)].  It reads the table and
    leaves it as it is.  A list is not hashable and cannot be looked up;
    any other key that is no string is absent from the table. *)
Definition branch_displacement (pc : Z) (labels : gmap string Z) (args : list pyval)
  : result (list Z) :=
  match args with
  | [target] =>
      match target with
      | VStr t =>
          match labels !! t with
          | Some off => let disp := off - (pc + 2) in word disp
          | None => Raise KeyError
          end
      | VList _ => Raise TypeError
      | VNone | VInt _ | VBytes _ => Raise KeyError
      end
  | _ => Raise TypeError
  end.

(** A Python function that returns a byte string and does not write to
    the table, as the opcode of a tuple: the table is handed on
    unchanged. *)
Definition reading (f : Z -> gmap string Z -> list pyval -> result (list Z))
  : callable :=
  fun pc labels args => bs ← f pc labels args; Ok (VBytes bs, labels).

(** ** Notions used to state properties of the assembler *)

(** The callable hands the table on as it has received it. *)
Definition keeps_table (f : callable) : Prop :=
  forall pc labels args v labels',
    f pc labels args = Ok (v, labels') -> labels' = labels.

(** No callable of the stream writes to the table. *)
Fixpoint readers_only (instructions : list inst) : Prop :=
  match instructions with
  | [] => True
  | ITuple (OpCallable f) _ _ :: rest => keeps_table f /\ readers_only rest
  | _ :: rest => readers_only rest
  end.

(** The bytes that [code.extend(v)] appends, when it does not raise. *)
Definition byte_items (v : pyval) : option (list Z) :=
  match v with
  | VBytes bs | VList bs => if forallb is_byte bs then Some bs else None
  | VStr EmptyString => Some []
  | VStr _ | VNone | VInt _ => None
  end.

(** Every tuple of the stream declares the size that its encoding has,
    the encoding being the one the second pass obtains at the [pc] and
    with the table it has reached; the byte strings of the stream hold
    bytes. *)
Fixpoint sizes_exact (instructions : list inst) (pc : Z) (labels : gmap string Z)
  : bool :=
  match instructions with
  | [] => true
  | i :: rest =>
      match i with
      | IStr _ | IOther => sizes_exact rest pc labels
      | IBytes bs =>
          forallb is_byte bs && sizes_exact rest (pc + Z.of_nat (length bs)) labels
      | ITuple op size args =>
          match encode op pc labels args with
          | Ok (v, labels') =>
              match byte_items v, size with
              | Some bs, VInt n =>
                  (n =? Z.of_nat (length bs)) && sizes_exact rest (pc + n) labels'
              | _, _ => false
              end
          | Raise _ => false
          end
      | IShort => false
      end
  end.

(** The sum, over the tuples of the stream, of declared size minus
    encoded length, along the run of the second pass. *)
Fixpoint size_drift (instructions : list inst) (pc : Z) (labels : gmap string Z)
  : Z :=
  match instructions with
  | [] => 0
  | i :: rest =>
      match i with
      | IStr _ | IOther => size_drift rest pc labels
      | IBytes bs => size_drift rest (pc + Z.of_nat (length bs)) labels
      | ITuple op size args =>
          match encode op pc labels args with
          | Ok (v, labels') =>
              match byte_items v, size with
              | Some bs, VInt n =>
                  (n - Z.of_nat (length bs)) + size_drift rest (pc + n) labels'
              | _, _ => 0
              end
          | Raise _ => 0
          end
      | IShort => 0
      end
  end.

(** The stream has a label marker for [name]. *)
Definition binds (name : string) (i : inst) : bool :=
  match i with
  | IStr s => endswith_colon s && String.eqb (but_last s) name
  | _ => false
  end.


(** ** The expected primes of [generate_cpp_header] *)

Definition primes : list Z :=
  [2; 3; 5; 7; 11; 13; 17; 19; 23; 29; 31; 37; 41; 43; 47; 53; 59; 61; 67; 71;
   73; 79; 83; 89; 97; 101; 103; 107; 109; 113; 127; 131; 137; 139; 149; 151;
   157; 163; 167; 173; 179; 181; 191; 193; 197; 199; 211; 223; 227; 229; 233;
   239; 241; 251; 257; 263; 269; 271; 277; 281; 283; 293; 307; 311; 313; 317;
   331; 337; 347; 349; 353; 359; 367; 373; 379; 383; 389; 397; 401; 409; 419;
   421; 431; 433; 439; 443; 449; 457; 461; 463; 467; 479; 487; 491; 499; 503;
   509; 521; 523; 541].

(** [l[a:b]] *)
Definition py_slice {A : Type} (l : list A) (a b : Z) : list A :=
  let n := Z.of_nat (length l) in
  let lo := clip n a in
  let hi := clip n b in
  take (hi - lo)%nat (drop lo l).

(** The rows of [EXPECTED_PRIMES]:
    [for i in range(0, 100, 10): chunk = primes[i:i+10]]. *)
Definition expected_primes_rows : list (list Z) :=
  map (fun i => py_slice primes i (i + 10)) (py_range 0 100 10).

(** The constants of [EXPECTED_PRIMES], in the order they are written. *)
Definition expected_primes : list Z := concat expected_primes_rows.

(** Primality by trial division. *)
Definition is_primeb (p : Z) : bool :=
  (1 <? p) && forallb (fun d => negb (p mod d =? 0)) (seqZ 2 (p - 2)).

(** The sum of the big-endian 16-bit words of a byte string. *)
Fixpoint word_sum (l : list Z) : Z :=
  match l with
  | hi :: lo :: rest => be16 hi lo + word_sum rest
  | _ => 0
  end.

(** The number of zero bytes that the padding loop appends to an image
    of [n] bytes. *)
Definition pad_count (n : Z) : Z :=
  if n <? 512 then 512 - n else (512 - n mod 512) mod 512.

(** The 32-bit big-endian entry [k] of the vector table of an image. *)
Definition vector_entry (rom : list Z) (k : Z) : option Z :=
  match py_slice rom (4 * k) (4 * k + 4) with
  | [b3; b2; b1; b0] => Some (be32 b3 b2 b1 b0)
  | _ => None
  end.

(** The 16-bit big-endian value in the checksum slot $18E-$18F. *)
Definition stored_checksum (rom : list Z) : option Z :=
  match py_slice rom 0x18E 0x190 with
  | [hi; lo] => Some (be16 hi lo)
  | _ => None
  end.

(** The 8-bit relative branches of the program, each as the offset of
    its opcode byte and the offset of its target: in emission order
    [bgt.s collect], [bne.s next], [bge.s next], [bra.s mark_multiples],
    [bra.s sieve_loop], [beq.s done], [bge.s done], [bne.s not_prime],
    [bra.s collect_loop] and [bra.s hang].  A forward branch has its
    placeholder one byte after its opcode; a backward branch is the
    last instruction before the label that follows it. *)
Definition branches (lay : layout) : list (Z * Z) :=
  [ (bgt_collect lay - 1, collect lay);
    (bne_next1 lay - 1, next_addr lay);
    (bge_next lay - 1, next_addr lay);
    (next_addr lay - 2, mark_multiples lay);
    (collect lay - 2, sieve_loop lay);
    (beq_done lay - 1, done_addr lay);
    (bge_done lay - 1, done_addr lay);
    (bne_not_prime lay - 1, not_prime lay);
    (done_addr lay - 2, collect_loop lay);
    (hang lay, hang lay) ].

(** The opcode bytes of [bne.s], [bgt.s], [bge.s], [beq.s] and [bra.s]. *)
Definition branch8_opcodes : list Z := [0x66; 0x6E; 0x6C; 0x67; 0x60].

(** The displacement byte stored after the branch opcode at [anchor],
    read as a signed byte; [None] when [anchor] does not hold one of the
    8-bit branch opcodes. *)
Definition stored_displacement (program : list Z) (anchor : Z) : option Z :=
  match py_slice program anchor (anchor + 2) with
  | [op; d] => if existsb (Z.eqb op) branch8_opcodes then Some (signed8 d) else None
  | _ => None
  end.

(** The instructions that [generate_rom] emits, other than the 8-bit
    branches: the two leading bytes of each encoding and the length of
    the encoding. *)
Definition opcode_lengths : list (Z * Z * nat) :=
  [ (0x4F, 0xF9, 6%nat); (0x41, 0xF9, 6%nat); (0x43, 0xF9, 6%nat);   (* lea xxx.l,an *)
    (0x30, 0x3C, 4%nat); (0x32, 0x3C, 4%nat);                    (* move.w #imm,dn *)
    (0x42, 0x18, 2%nat); (0x42, 0x41, 2%nat);                    (* clr *)
    (0x10, 0xBC, 4%nat); (0x11, 0x7C, 6%nat);                    (* move.b #imm,(a0) / off(a0) *)
    (0x4A, 0x30, 4%nat); (0x11, 0xBC, 6%nat);                    (* tst.b / move.b #1,(a0,d1.w) *)
    (0xB0, 0x7C, 4%nat); (0xB2, 0x7C, 4%nat);                    (* cmp.w #imm,dn *)
    (0x60, 0x00, 4%nat);                                     (* bra.w *)
    (0x52, 0x40, 2%nat); (0x52, 0x41, 2%nat); (0xD2, 0x40, 2%nat);   (* addq.w / add.w *)
    (0x51, 0xC8, 4%nat);                                     (* dbra *)
    (0x32, 0xC0, 2%nat); (0x32, 0x00, 2%nat);                    (* move.w d0,(a1)+ / d0,d1 *)
    (0x33, 0xC1, 6%nat); (0x33, 0xFC, 8%nat);                    (* move.w to xxx.l *)
    (0x4E, 0x71, 2%nat) ].                                (* nop *)

(** The encodings that [opcode_lengths] describes, at sample operands. *)
Definition sample_encodings : list (result (list Z)) :=
  [ LEA_FF0000_A7; LEA_FF0000_A0; LEA_FF0300_A1;
    MOVE_W_IMM_D0 0; MOVE_W_IMM_D1 0;
    CLR_B_A0_INC; CLR_W_D1;
    MOVE_B_IMM_A0 0; MOVE_B_IMM_A0_OFF 0 0;
    TST_B_A0_D0; MOVE_B_1_A0_D1;
    CMP_W_IMM_D0 0; CMP_W_IMM_D1 0;
    BRA_16 0;
    ADDQ_W_1_D0; ADDQ_W_1_D1; ADD_W_D0_D1;
    DBRA_D0 0;
    MOVE_W_D0_A1_INC; bytes_of [0x32; 0x00];
    MOVE_W_D1_ABS 0; MOVE_W_IMM_ABS 0 0;
    NOP ].

(** A walk over the finished code, instruction by instruction from
    offset [off], that returns the offsets of the 8-bit branches it
    meets (a branch opcode followed by a non-zero displacement byte);
    [None] when it meets bytes that are no instruction of the table, or
    when [fuel] instructions were not enough. *)
Fixpoint branch_anchors_from (fuel : nat) (code : list Z) (off : Z)
  : option (list Z) :=
  match fuel with
  | O => None
  | S fuel' =>
      match code with
      | [] => Some []
      | [_] => None
      | b0 :: b1 :: _ =>
          if existsb (Z.eqb b0) branch8_opcodes && negb (b1 =? 0)
          then cons off <$> branch_anchors_from fuel' (drop 2 code) (off + 2)
          else
            match find (fun e => (e.1.1 =? b0) && (e.1.2 =? b1)) opcode_lengths with
            | Some e =>
                if (length code <? e.2)%nat then None
                else branch_anchors_from fuel' (drop e.2 code) (off + Z.of_nat e.2)
            | None => None
            end
      end
  end.

Definition branch_anchors (code : list Z) : option (list Z) :=
  branch_anchors_from (S (length code)) code 0.

(** ** Further readings of emitted bytes *)

(** A 16-bit word read as a signed displacement. *)
Definition signed16 (w : Z) : Z := if w <? 32768 then w else w - 65536.

(** ** Streams without deferred encodings *)






(** ** The byte rows of [generate_cpp_header]

    [for i in range(0, len(rom_data), 16): chunk = rom_data[i:i+16]] *)
Definition rom_rows (rom_data : list Z) : list (list Z) :=
  map (fun i => py_slice rom_data i (i + 16))
      (py_range 0 (Z.of_nat (length rom_data)) 16).

(** * The symbol-table converter (tools/elf2sym.py)

    A Python [str] is a [string] whose characters are code points below
    256. *)

(** ** Characters *)

Definition code (c : ascii) : Z := Z.of_N (N_of_ascii c).

Definition in_range (lo hi : ascii) (c : ascii) : bool :=
  (code lo <=? code c) && (code c <=? code hi).

(** [c.isspace()], also the class [\s] of a regular expression on [str]. *)
Definition is_space (c : ascii) : bool :=
  existsb (Z.eqb (code c)) [9; 10; 11; 12; 13; 28; 29; 30; 31; 32; 133; 160].

(** [c.isdigit()]: the ASCII digits and the superscripts one, two, three. *)
Definition is_digit (c : ascii) : bool :=
  in_range "0" "9" c || existsb (Z.eqb (code c)) [178; 179; 185].

(** The class [[a-zA-Z]]. *)
Definition is_letter (c : ascii) : bool := in_range "a" "z" c || in_range "A" "Z" c.

(** The class [[0-9a-fA-F]]. *)
Definition is_hex (c : ascii) : bool :=
  in_range "0" "9" c || in_range "a" "f" c || in_range "A" "F" c.

(** The class [[a-zA-Z0-9_]]. *)
Definition is_ident_char (c : ascii) : bool :=
  is_letter c || in_range "0" "9" c || Ascii.eqb c "_".

(** ** Strings *)

(** The longest prefix whose characters satisfy [p], and what follows it. *)
Fixpoint span (p : ascii -> bool) (s : string) : string * string :=
  match s with
  | EmptyString => (EmptyString, EmptyString)
  | String c r =>
      if p c then let '(a, b) := span p r in (String c a, b)
      else (EmptyString, s)
  end.

(** [s.lstrip()] *)
Definition lstrip (s : string) : string := (span is_space s).2.

(** [s.rstrip()] *)
Fixpoint rstrip (s : string) : string :=
  match s with
  | EmptyString => EmptyString
  | String c r =>
      match rstrip r with
      | EmptyString => if is_space c then EmptyString else String c EmptyString
      | r' => String c r'
      end
  end.

(** [s.strip()] *)
Definition strip (s : string) : string := rstrip (lstrip s).

(** [s[1:]] *)
Definition tail1 (s : string) : string :=
  match s with
  | EmptyString => EmptyString
  | String _ r => r
  end.

(** [s.startswith(p)] *)
Definition startswith (p s : string) : bool := String.prefix p s.

(** [re.sub(r'[^a-zA-Z0-9_]', '_', s)] *)
Fixpoint sub_non_ident (s : string) : string :=
  match s with
  | EmptyString => EmptyString
  | String c r => String (if is_ident_char c then c else "_"%char) (sub_non_ident r)
  end.

(** The line feed. *)
Definition newline : string := String "010" EmptyString.

(** ['\n'.join(lines)] *)
Fixpoint join_lines (lines : list string) : string :=
  match lines with
  | [] => EmptyString
  | [l] => l
  | l :: rest => l +:+ newline +:+ join_lines rest
  end.

(** ** Hexadecimal text *)

(** The value of a hexadecimal digit; 0 for any other character. *)
Definition hex_value (c : ascii) : Z :=
  if in_range "0" "9" c then code c - 48
  else if in_range "a" "f" c then code c - 87
  else if in_range "A" "F" c then code c - 55
  else 0.

(** The digits of [l] appended to the number [acc]. *)
Definition value_of (l : list ascii) (acc : Z) : Z :=
  fold_left (fun acc c => 16 * acc + hex_value c) l acc.

(** [int(s, 16)] for a string of hexadecimal digits, the only strings
    that [parse_nm_output] passes to it. *)
Definition int16 (s : string) : Z := value_of (String.list_ascii_of_string s) 0.

(** The upper-case hexadecimal digit of a value below 16. *)
Definition hex_digit (d : Z) : ascii :=
  nth (Z.to_nat d) (String.list_ascii_of_string "0123456789ABCDEF") "0"%char.

Fixpoint hex_digits (fuel : nat) (n : Z) : string :=
  match fuel with
  | O => EmptyString
  | S fuel' =>
      if n <? 16 then String (hex_digit n) EmptyString
      else hex_digits fuel' (n / 16) +:+ String (hex_digit (n mod 16)) EmptyString
  end.

(** [format(n, 'X')] for [n >= 0]: a budget of one digit per bit is
    never spent. *)
Definition hex_upper (n : Z) : string := hex_digits (S (Z.to_nat (Z.log2 n))) n.

(** [format(n, '0wX')]: upper-case hexadecimal, filled with zeros after
    the sign up to [width] characters. *)
Definition format_0X (width : nat) (n : Z) : string :=
  let digits := hex_upper (Z.abs n) in
  if n <? 0
  then String "-" (String.string_of_list_ascii
                     (repeat "0"%char (width - 1 - String.length digits)) +:+ digits)
  else String.string_of_list_ascii (repeat "0"%char (width - String.length digits)) +:+ digits.

(** ** parse_nm_output *)

Record symbol : Type := Symbol {
  address : Z;
  sym_type : ascii;
  name : string
}.

(** [regex.match(line)] for
    [^([0-9a-fA-F]+)\s+([a-zA-Z])\s+(\S+)]: the three groups.  Each
    repetition is followed by a character outside its class, so the
    longest run is the only one that can match. *)
Definition match_nm (line : string) : option (string * ascii * string) :=
  let '(addr_hex, r1) := span is_hex line in
  let '(ws1, r2) := span is_space r1 in
  match addr_hex, ws1, r2 with
  | String _ _, String _ _, String t r3 =>
      if is_letter t then
        let '(ws2, r4) := span is_space r3 in
        let '(nm, _) := span (fun c => negb (is_space c)) r4 in
        match ws2, nm with
        | String _ _, String _ _ => Some (addr_hex, t, nm)
        | _, _ => None
        end
      else None
  | _, _, _ => None
  end.

Fixpoint parse_nm_output (lines : list string) : list symbol :=
  match lines with
  | [] => []
  | line :: rest =>
      let line := strip line in
      match line with
      | EmptyString => parse_nm_output rest
      | _ =>
          match match_nm line with
          | Some (addr_hex, t, nm) =>
              Symbol (int16 addr_hex) t nm :: parse_nm_output rest
          | None => parse_nm_output rest
          end
      end
  end.

(** ** filter_ram_symbols *)

Definition filter_ram_symbols (symbols : list symbol) (ram_start ram_end : Z)
  : list symbol :=
  List.filter (fun s => (ram_start <=? address s) && (address s <=? ram_end)) symbols.

(** ** is_linker_symbol and sanitize_name *)

Definition LINKER_SYMBOLS : gset string :=
  list_to_set
    [ "__bss_start"; "__bss_end";
      "__data_start"; "__data_end"; "__data_load";
      "__text_start"; "__text_end";
      "__stack"; "__heap_start"; "__heap_end";
      "_etext"; "_edata"; "_end" ]%string.

Definition is_linker_symbol (name : string) : bool :=
  bool_decide (name ∈ LINKER_SYMBOLS) || startswith "__" name.

Definition sanitize_name (name : string) : string :=
  let name :=
    if startswith "_" name && negb (startswith "__" name) then tail1 name
    else if startswith "__" name then tail1 name
    else name in
  let name := sub_non_ident name in
  match name with
  | String c _ => if is_digit c then String "_" name else name
  | EmptyString => name
  end.

(** ** generate_header *)

(** [sorted(symbols, key=lambda s: s['address'])]: a stable sort. *)
Fixpoint insert_by_address (x : symbol) (l : list symbol) : list symbol :=
  match l with
  | [] => [x]
  | y :: l' =>
      if address x <=? address y then x :: l
      else y :: insert_by_address x l'
  end.

Definition sort_by_address (symbols : list symbol) : list symbol :=
  foldr insert_by_address [] symbols.

(** The state of the loop over the sorted symbols: the lines so far,
    the names seen, and the warnings printed on the error stream. *)
Record emit_state : Type := EmitState {
  out_lines : list string;
  seen_names : gset string;
  warnings : list string
}.

(** The line that declares [sym] under the name [clean_name]. *)
Definition declaration_line (clean_name : string) (sym : symbol) : string :=
  let addr := address sym in
  (* Add comment with original name if different *)
  let comment :=
    if String.eqb clean_name (name sym) then EmptyString
    else ("  // original: " +:+ name sym)%string in
  ("    constexpr uint32_t " +:+ clean_name +:+ " = 0x"
   +:+ format_0X 6 addr +:+ ";" +:+ comment)%string.

(** The warning printed for a symbol whose clean name was seen before. *)
Definition duplicate_warning (clean_name : string) (sym : symbol) : string :=
  ("Warning: Skipping duplicate symbol " +:+ clean_name
   +:+ " (from " +:+ name sym +:+ ")")%string.

Definition emit_symbol (st : emit_state) (sym : symbol) : emit_state :=
  (* Skip linker-generated symbols *)
  if is_linker_symbol (name sym) then st
  else
    let clean_name := sanitize_name (name sym) in
    match clean_name with
    | EmptyString => st
    | _ =>
        if bool_decide (clean_name ∈ seen_names st) then
          EmitState (out_lines st) (seen_names st)
            (warnings st ++ [duplicate_warning clean_name sym])
        else
          EmitState
            (out_lines st ++ [declaration_line clean_name sym])
            ({[clean_name]} ∪ seen_names st)
            (warnings st)
    end.

(** The header text and the warnings.  [now] stands for
    [datetime.now().isoformat()]; [source_file] is [None], or a string
    that counts as absent when empty. *)
Definition generate_header (symbols : list symbol) (namespace : string)
    (source_file : option string) (now : string) : string * list string :=
  let lines :=
    [ "#pragma once"; EmptyString;
      "// Auto-generated symbol table from Genesis ELF";
      "// Generated: " +:+ now ]%string in
  let lines :=
    match source_file with
    | Some (String c r) => lines ++ [("// Source: " +:+ String c r)%string]
    | _ => lines
    end in
  let lines :=
    lines ++ [ EmptyString; "#include <cstdint>"; EmptyString;
               "namespace " +:+ namespace +:+ " {"; EmptyString ]%string in
  (* Sort by address for readability *)
  let symbols_sorted := sort_by_address symbols in
  let st := fold_left emit_symbol symbols_sorted (EmitState lines ∅ []) in
  let lines :=
    out_lines st ++ [ EmptyString; "}  // namespace " +:+ namespace; EmptyString ]%string in
  (join_lines lines, warnings st).

(** ** Notions used to state properties of the converter *)

(** Every character of [s] satisfies [p]. *)
Definition all_chars (p : ascii -> bool) (s : string) : Prop :=
  Forall (fun c => p c = true) (String.list_ascii_of_string s).

(** [b] is empty or begins with a character outside the class [p]: a
    span of [p] stops in front of it. *)
Definition stops (p : ascii -> bool) (b : string) : Prop :=
  match b with
  | EmptyString => True
  | String c _ => p c = false
  end.

(** The symbol is neither a linker marker nor left without a name by
    [sanitize_name]: the loop of [generate_header] considers it. *)
Definition eligible (sym : symbol) : bool :=
  negb (is_linker_symbol (name sym))
  && negb (String.eqb (sanitize_name (name sym)) EmptyString).

(** The symbols that the loop of [generate_header] declares, given the
    names seen before: the eligible ones whose clean name is new. *)
Fixpoint kept_symbols (seen : gset string) (l : list symbol) : list symbol :=
  match l with
  | [] => []
  | sym :: rest =>
      let clean_name := sanitize_name (name sym) in
      if eligible sym && negb (bool_decide (clean_name ∈ seen))
      then sym :: kept_symbols ({[clean_name]} ∪ seen) rest
      else kept_symbols seen rest
  end.

(** The clean name of a symbol. *)
Definition clean_name_of (sym : symbol) : string := sanitize_name (name sym).

(** The order in which [sorted] leaves two symbols alone. *)
Definition address_le (a b : symbol) : Prop := address a <= address b.

(** The lines before and after the declarations. *)
Definition prologue (namespace : string) (source_file : option string) (now : string)
  : list string :=
  [ "#pragma once"; EmptyString;
    "// Auto-generated symbol table from Genesis ELF";
    "// Generated: " +:+ now ]%string
  ++ match source_file with
     | Some (String c r) => [("// Source: " +:+ String c r)%string]
     | _ => []
     end
  ++ [ EmptyString; "#include <cstdint>"; EmptyString;
       "namespace " +:+ namespace +:+ " {"; EmptyString ]%string.

Definition epilogue (namespace : string) : list string :=
  [ EmptyString; "}  // namespace " +:+ namespace; EmptyString ]%string.

(** The converter from the lines read to the header text:
    [generate_header(filter_ram_symbols(parse_nm_output(lines), ...), ...)]
    as [main] chains them. *)
Definition convert (lines : list string) (namespace : string)
    (ram_start ram_end : Z) (source_file : option string) (now : string)
  : string * list string :=
  generate_header
    (filter_ram_symbols (parse_nm_output lines) ram_start ram_end)
    namespace source_file now.

(** * Properties *)

(** ** Bytes, words and longs *)

Lemma land_FF (v : Z) : Z.land v 0xFF = v mod 256.
Proof. change 0xFF with (Z.ones 8). now rewrite Z.land_ones by lia. Qed.

Lemma land_FFFF (v : Z) : Z.land v 0xFFFF = v mod 65536.
Proof. change 0xFFFF with (Z.ones 16). now rewrite Z.land_ones by lia. Qed.

Lemma land_FFFFFFFF (v : Z) : Z.land v 0xFFFFFFFF = v mod 4294967296.
Proof. change 0xFFFFFFFF with (Z.ones 32). now rewrite Z.land_ones by lia. Qed.

Lemma is_byte_spec (b : Z) : is_byte b = true <-> 0 <= b < 256.
Proof. unfold is_byte. rewrite andb_true_iff, Z.leb_le, Z.ltb_lt. tauto. Qed.

Lemma is_byte_mod (v : Z) : is_byte (v mod 256) = true.
Proof. apply is_byte_spec. apply Z.mod_pos_bound. lia. Qed.

Lemma is_byte_land (v : Z) : is_byte (Z.land v 0xFF) = true.
Proof. rewrite land_FF. apply is_byte_mod. Qed.

(** [word] accepts every integer: it keeps the low 16 bits. *)
Lemma word_spec (val : Z) :
  word val = Ok [val mod 65536 / 256; val mod 256].
Proof.
  unfold word, struct_pack_H. rewrite land_FFFF.
  pose proof (Z.mod_pos_bound val 65536 ltac:(lia)) as Hr.
  replace ((0 <=? val mod 65536) && (val mod 65536 <=? 65535)) with true
    by (symmetry; apply andb_true_iff; split; [apply Z.leb_le | apply Z.leb_le]; lia).
  rewrite Z.shiftr_div_pow2 by lia. rewrite land_FF.
  change (2 ^ 8) with 256.
  replace (val mod 65536 mod 256) with (val mod 256); [reflexivity|].
  symmetry. apply Z.mod_mod_divide. exists 256. reflexivity.
Qed.

Lemma div_mod_trunc (val k m : Z) :
  0 < k -> 0 < m -> (val mod (k * m * 256) / k) mod 256 = (val / k) mod 256.
Proof.
  intros Hk Hm.
  pose proof (Z.div_mod val (k * m * 256) ltac:(lia)) as Hv.
  set (q := val / (k * m * 256)) in *. set (r := val mod (k * m * 256)) in *.
  replace (val / k) with (r / k + q * m * 256).
  - replace (r / k + q * m * 256) with (r / k + (q * m) * 256) by lia.
    now rewrite Z_mod_plus_full.
  - rewrite <- Z.div_add by lia. f_equal. lia.
Qed.

(** [long] accepts every integer: it keeps the low 32 bits. *)
Lemma long_spec (val : Z) :
  long val = Ok [val / 16777216 mod 256; val / 65536 mod 256;
                 val / 256 mod 256; val mod 256].
Proof.
  unfold long, struct_pack_I. rewrite land_FFFFFFFF.
  pose proof (Z.mod_pos_bound val 4294967296 ltac:(lia)) as Hr.
  replace ((0 <=? val mod 4294967296) && (val mod 4294967296 <=? 4294967295))
    with true
    by (symmetry; apply andb_true_iff; split; [apply Z.leb_le | apply Z.leb_le]; lia).
  rewrite !Z.shiftr_div_pow2 by lia. rewrite !land_FF.
  change (2 ^ 24) with 16777216. change (2 ^ 16) with 65536.
  change (2 ^ 8) with 256.
  pose proof (div_mod_trunc val 16777216 1 ltac:(lia) ltac:(lia)) as H3.
  pose proof (div_mod_trunc val 65536 256 ltac:(lia) ltac:(lia)) as H2.
  pose proof (div_mod_trunc val 256 65536 ltac:(lia) ltac:(lia)) as H1.
  pose proof (div_mod_trunc val 1 16777216 ltac:(lia) ltac:(lia)) as H0.
  change (16777216 * 1 * 256) with 4294967296 in H3.
  change (65536 * 256 * 256) with 4294967296 in H2.
  change (256 * 65536 * 256) with 4294967296 in H1.
  change (1 * 16777216 * 256) with 4294967296 in H0.
  rewrite !Z.div_1_r in H0.
  rewrite H2, H1, H0. rewrite <- H3.
  rewrite (Z.mod_small (val mod 4294967296 / 16777216)); [reflexivity|].
  split; [apply Z.div_pos; lia | apply Z.div_lt_upper_bound; lia].
Qed.

Lemma signed8_wrap (disp : Z) :
  signed8 (disp mod 256) = (disp + 128) mod 256 - 128.
Proof.
  unfold signed8. destruct (Z.ltb_spec (disp mod 256) 128);
    Z.div_mod_to_equations; lia.
Qed.

(** The stored byte reads back as the displacement exactly when the
    displacement fits a signed byte. *)
Lemma signed8_exact (disp : Z) :
  signed8 (disp mod 256) = disp <-> -128 <= disp <= 127.
Proof.
  rewrite signed8_wrap. split; intros H.
  - pose proof (Z.mod_pos_bound (disp + 128) 256 ltac:(lia)). lia.
  - rewrite Z.mod_small by lia. lia.
Qed.

Lemma bytes_of_ok (l : list Z) :
  forallb is_byte l = true -> bytes_of l = Ok l.
Proof. intros H. unfold bytes_of. now rewrite H. Qed.

Lemma branch8_spec (op disp : Z) :
  is_byte op = true -> bytes_of [op; Z.land disp 0xFF] = Ok [op; disp mod 256].
Proof.
  intros Hop. rewrite land_FF. apply bytes_of_ok. simpl.
  now rewrite Hop, is_byte_mod.
Qed.

Lemma imm16_spec (o1 o2 val : Z) :
  is_byte o1 = true -> is_byte o2 = true ->
  bcat (bytes_of [o1; o2]) (word val) = Ok [o1; o2; val mod 65536 / 256; val mod 256].
Proof.
  intros H1 H2. unfold bcat. rewrite word_spec, bytes_of_ok; [reflexivity|].
  simpl. now rewrite H1, H2.
Qed.

(** ** The padding loop *)

Lemma pad_count_zero (n : Z) :
  0 <= n -> ((n <? 512) || negb (n mod 512 =? 0) = false <-> pad_count n = 0).
Proof.
  intros Hn. unfold pad_count.
  destruct (Z.ltb_spec n 512); simpl.
  - split; [discriminate | lia].
  - destruct (Z.eqb_spec (n mod 512) 0); simpl.
    + split; [intros _ | reflexivity]. now rewrite e.
    + split; [discriminate|]. Z.div_mod_to_equations; lia.
Qed.

Lemma pad_count_step (n : Z) :
  0 <= n -> pad_count n <> 0 -> pad_count (n + 1) = pad_count n - 1.
Proof.
  intros Hn. unfold pad_count.
  destruct (Z.ltb_spec n 512); destruct (Z.ltb_spec (n + 1) 512);
    intros; Z.div_mod_to_equations; lia.
Qed.

Lemma pad_count_bound (n : Z) : 0 <= n -> 0 <= pad_count n <= 512.
Proof.
  intros Hn. unfold pad_count.
  destruct (Z.ltb_spec n 512); Z.div_mod_to_equations; lia.
Qed.

(** The loop appends [pad_count] zero bytes and stops, whenever its
    budget exceeds that count. *)
Lemma pad_loop_spec (k : nat) : forall (rom : list Z) (fuel : nat),
  pad_count (Z.of_nat (length rom)) = Z.of_nat k ->
  (k < fuel)%nat ->
  pad_loop fuel rom = Some (rom ++ repeat 0 k).
Proof.
  induction k as [|k IH]; intros rom fuel Hk Hf.
  - destruct fuel as [|fuel]; [lia|]. simpl.
    apply pad_count_zero in Hk; [|lia]. rewrite Hk.
    now rewrite app_nil_r.
  - destruct fuel as [|fuel]; [lia|]. simpl.
    destruct ((Z.of_nat (length rom) <? 512)
              || negb (Z.of_nat (length rom) mod 512 =? 0)) eqn:Hc.
    + rewrite IH; [| |lia].
      * now rewrite <- app_assoc.
      * rewrite length_app. simpl length.
        replace (Z.of_nat (length rom + 1)) with (Z.of_nat (length rom) + 1) by lia.
        rewrite pad_count_step; lia.
    + apply pad_count_zero in Hc; lia.
Qed.

(** A budget of 513 tests is enough for every image. *)
Lemma pad_loop_total (rom : list Z) (fuel : nat) :
  (512 < fuel)%nat ->
  pad_loop fuel rom
  = Some (rom ++ repeat 0 (Z.to_nat (pad_count (Z.of_nat (length rom))))).
Proof.
  intros Hf.
  pose proof (pad_count_bound (Z.of_nat (length rom)) ltac:(lia)).
  apply pad_loop_spec; lia.
Qed.

Lemma padded_length (n : Z) :
  0 <= n -> (n + pad_count n) mod 512 = 0 /\ 512 <= n + pad_count n.
Proof.
  intros Hn. unfold pad_count.
  destruct (Z.ltb_spec n 512); Z.div_mod_to_equations; lia.
Qed.

(** ** Subscripts and slices *)

Lemma py_index_in_range (n i : Z) :
  0 <= i < n -> py_index n i = Ok (Z.to_nat i).
Proof.
  intros H. unfold py_index.
  destruct (Z.ltb_spec i 0); [lia|].
  destruct (Z.leb_spec 0 i); [|lia].
  destruct (Z.ltb_spec i n); [|lia]. reflexivity.
Qed.

Lemma getitem_app (pre post : list Z) (x i : Z) :
  i = Z.of_nat (length pre) -> getitem (pre ++ x :: post) i = Ok x.
Proof.
  intros ->. unfold getitem.
  rewrite py_index_in_range by (rewrite length_app; simpl; lia).
  simpl. rewrite Nat2Z.id.
  rewrite lookup_app_r by lia. now rewrite Nat.sub_diag.
Qed.

Lemma clip_in_range (n i : Z) : 0 <= i <= n -> clip n i = Z.to_nat i.
Proof.
  intros H. unfold clip. destruct (Z.ltb_spec i 0); [lia|]. f_equal. lia.
Qed.

(** Replacing a slice that lies inside the buffer by as many bytes as
    it has. *)
Lemma slice_assign_inside (buf x : list Z) (a b : Z) :
  0 <= a <= b -> b <= Z.of_nat (length buf) ->
  slice_assign buf a b x
  = take (Z.to_nat a) buf ++ x ++ drop (Z.to_nat b) buf.
Proof.
  intros Hab Hb. unfold slice_assign.
  rewrite !clip_in_range by lia.
  now rewrite Nat.max_r by lia.
Qed.

(** ** The checksum loop *)

Lemma checksum_loop_from (m : nat) : forall (pre rest : list Z) (acc : Z) (a : nat),
  length pre = (512 + 2 * a)%nat ->
  length rest = (2 * m)%nat ->
  for_each (map (fun k => 0x200 + 2 * Z.of_nat k) (seq a m))
    (fun i checksum =>
       hi ← getitem (pre ++ rest) i;
       lo ← getitem (pre ++ rest) (i + 1);
       Ok (checksum + Z.lor (Z.shiftl hi 8) lo))
    acc
  = Ok (acc + word_sum rest).
Proof.
  induction m as [|m IH]; intros pre rest acc a Hpre Hrest.
  - destruct rest; [|discriminate]. simpl. f_equal. lia.
  - destruct rest as [|hi [|lo rest]]; simpl in Hrest; try lia.
    cbn [seq map for_each].
    rewrite (getitem_app pre (lo :: rest) hi (0x200 + 2 * Z.of_nat a)) by lia.
    replace (pre ++ hi :: lo :: rest) with ((pre ++ [hi]) ++ lo :: rest)
      by now rewrite <- app_assoc.
    rewrite (getitem_app (pre ++ [hi]) rest lo (0x200 + 2 * Z.of_nat a + 1))
      by (rewrite length_app; simpl; lia).
    cbn [mbind result_bind].
    replace ((pre ++ [hi]) ++ lo :: rest) with ((pre ++ [hi; lo]) ++ rest)
      by now rewrite <- !app_assoc.
    rewrite (IH (pre ++ [hi; lo]) rest _ (S a)).
    + cbn [word_sum]. unfold be16. f_equal. lia.
    + rewrite length_app. simpl. lia.
    + lia.
Qed.

(** On an image of even length, at least 512, the loop computes the sum
    of the big-endian words from $200 to the end. *)
Lemma checksum_loop_spec (rom : list Z) :
  (512 <= length rom)%nat -> Z.of_nat (length rom) mod 2 = 0 ->
  checksum_loop rom = Ok (word_sum (drop 512 rom)).
Proof.
  intros Hlen Heven. unfold checksum_loop, py_range.
  set (m := Z.to_nat ((Z.of_nat (length rom) - 512 + 2 - 1) / 2)).
  assert (Hm : length (drop 512 rom) = (2 * m)%nat).
  { rewrite length_drop. subst m. Z.div_mod_to_equations. lia. }
  assert (Hp : length (take 512 rom) = (512 + 2 * 0)%nat).
  { rewrite length_take. lia. }
  pose proof (checksum_loop_from m (take 512 rom) (drop 512 rom) 0 0%nat Hp Hm)
    as Hsum.
  rewrite take_drop in Hsum. exact Hsum.
Qed.

(** ** Reading big-endian values back *)

Lemma be16_split (c : Z) : be16 (c / 256) (c mod 256) = c.
Proof.
  unfold be16. apply Z.bits_inj'. intros n Hn.
  rewrite Z.lor_spec. change 256 with (2 ^ 8).
  destruct (Z.lt_ge_cases n 8) as [Hlt | Hge].
  - rewrite Z.shiftl_spec_low by lia.
    rewrite Z.mod_pow2_bits_low by lia. reflexivity.
  - rewrite Z.shiftl_spec by lia.
    rewrite Z.mod_pow2_bits_high by lia.
    rewrite Z.div_pow2_bits by lia.
    rewrite orb_false_r. f_equal. lia.
Qed.

(** ** The image around an arbitrary program *)

(** The first 512 bytes: stack pointer, entry point, and 62 copies of
    the address of the hang loop (kept to 32 bits). *)
Lemma vectors_and_header_spec (n hang : Z) :
  exists head,
    build_vectors_and_header n hang = Ok head /\
    length head = 512%nat /\
    take 256 head
    = [0x00; 0xFF; 0xFF; 0xFE; 0x00; 0x00; 0x02; 0x00]
      ++ concat (repeat [(0x200 + hang) / 16777216 mod 256;
                         (0x200 + hang) / 65536 mod 256;
                         (0x200 + hang) / 256 mod 256;
                         (0x200 + hang) mod 256] 62).
Proof.
  unfold build_vectors_and_header, build_header.
  rewrite !long_spec, word_spec.
  generalize ((0x200 + hang) / 16777216 mod 256), ((0x200 + hang) / 65536 mod 256),
    ((0x200 + hang) / 256 mod 256), ((0x200 + hang) mod 256).
  generalize ((0x200 + n - 1) / 16777216 mod 256), ((0x200 + n - 1) / 65536 mod 256),
    ((0x200 + n - 1) / 256 mod 256), ((0x200 + n - 1) mod 256).
  intros e3 e2 e1 e0 h3 h2 h1 h0.
  eexists. split; [lazy; reflexivity|]. split; reflexivity.
Qed.

(** Writing the checksum into a padded image: the two bytes at $18E are
    replaced by the low 16 bits of the word sum, most significant byte
    first, and nothing else changes. *)
Lemma write_checksum_spec (rom : list Z) :
  (512 <= length rom)%nat -> Z.of_nat (length rom) mod 2 = 0 ->
  let c := word_sum (drop 512 rom) mod 65536 in
  write_checksum rom
  = Ok (take 398 rom ++ [c / 256; c mod 256] ++ drop 400 rom).
Proof.
  intros Hlen Heven c. unfold write_checksum.
  rewrite checksum_loop_spec by assumption.
  cbn [mbind result_bind]. rewrite word_spec, land_FFFF.
  cbn [mbind result_bind]. subst c.
  rewrite Z.mod_mod by lia.
  rewrite slice_assign_inside by lia.
  reflexivity.
Qed.

(** [build_rom] returns for every program: the image is the 512 bytes
    of vectors and header, the program, and the zero padding, with the
    checksum of program and padding at $18E. *)
Lemma build_rom_spec (fuel : nat) (program : list Z) (hang : Z) :
  (512 < fuel)%nat ->
  exists head,
    build_vectors_and_header (Z.of_nat (length program)) hang = Ok head /\
    length head = 512%nat /\
    let pad := Z.to_nat (pad_count (Z.of_nat (512 + length program))) in
    let body := program ++ repeat 0 pad in
    let c := word_sum body mod 65536 in
    build_rom fuel program hang
    = Some (Ok (take 398 head ++ [c / 256; c mod 256] ++ drop 400 head ++ body)).
Proof.
  intros Hfuel.
  destruct (vectors_and_header_spec (Z.of_nat (length program)) hang)
    as (head & Hhead & Hlen & _).
  exists head. split; [exact Hhead|]. split; [exact Hlen|].
  intros pad body c. unfold build_rom. rewrite Hhead.
  rewrite pad_loop_total by exact Hfuel.
  rewrite length_app, Hlen. fold pad.
  rewrite <- app_assoc. fold body.
  assert (Hb : length (head ++ body) = (512 + length program + pad)%nat).
  { unfold body. rewrite !length_app, repeat_length. lia. }
  pose proof (padded_length (Z.of_nat (512 + length program)) ltac:(lia)) as [Hm Hge].
  pose proof (pad_count_bound (Z.of_nat (512 + length program)) ltac:(lia)) as Hpc.
  rewrite write_checksum_spec.
  - rewrite drop_app_length' by (symmetry; exact Hlen). fold c.
    rewrite take_app_le by lia. rewrite drop_app_le by lia.
    reflexivity.
  - lia.
  - rewrite Hb. subst pad. Z.div_mod_to_equations. lia.
Qed.

Lemma checksum_slot (pre mid body : list Z) (hi lo : Z) :
  length pre = 398%nat -> length mid = 112%nat ->
  stored_checksum (pre ++ [hi; lo] ++ mid ++ body) = Some (be16 hi lo)
  /\ drop 512 (pre ++ [hi; lo] ++ mid ++ body) = body.
Proof.
  intros Hpre Hmid. split.
  - unfold stored_checksum, py_slice.
    rewrite !clip_in_range by (rewrite !length_app; simpl length; lia).
    rewrite drop_app_length' by (symmetry; exact Hpre). reflexivity.
  - replace (pre ++ [hi; lo] ++ mid ++ body)
      with ((pre ++ [hi; lo] ++ mid) ++ body)
      by (now rewrite <- !app_assoc).
    apply drop_app_length'. rewrite !length_app. simpl. lia.
Qed.

(** What [build_rom] produces, for every program and every budget of at
    least 513 tests of the padding condition. *)
Lemma build_rom_props (fuel : nat) (program : list Z) (hang : Z) :
  (512 < fuel)%nat ->
  exists (rom : list Z) (pad : nat),
    build_rom fuel program hang = Some (Ok rom) /\
    length rom = (512 + length program + pad)%nat /\
    (pad < 512)%nat /\
    Z.of_nat (length rom) mod 512 = 0 /\
    drop 512 rom = program ++ repeat 0 pad /\
    stored_checksum rom = Some (word_sum (drop 512 rom) mod 65536) /\
    checksum_loop rom = Ok (word_sum (drop 512 rom)) /\
    take 256 rom
    = [0x00; 0xFF; 0xFF; 0xFE; 0x00; 0x00; 0x02; 0x00]
      ++ concat (repeat [(0x200 + hang) / 16777216 mod 256;
                         (0x200 + hang) / 65536 mod 256;
                         (0x200 + hang) / 256 mod 256;
                         (0x200 + hang) mod 256] 62).
Proof.
  intros Hfuel.
  destruct (build_rom_spec fuel program hang Hfuel) as (head & Hhead & Hlen & Hrom).
  destruct (vectors_and_header_spec (Z.of_nat (length program)) hang)
    as (head' & Hhead' & _ & Hvec).
  rewrite Hhead in Hhead'. injection Hhead' as <-.
  cbv zeta in Hrom.
  set (pad := Z.to_nat (pad_count (Z.of_nat (512 + length program)))) in *.
  set (body := program ++ repeat 0 pad) in *.
  set (c := word_sum body mod 65536) in *.
  set (rom := take 398 head ++ [c / 256; c mod 256] ++ drop 400 head ++ body) in *.
  assert (Hpre : length (take 398 head) = 398%nat) by (rewrite length_take; lia).
  assert (Hmid : length (drop 400 head) = 112%nat) by (rewrite length_drop; lia).
  destruct (checksum_slot (take 398 head) (drop 400 head) body
              (c / 256) (c mod 256) Hpre Hmid) as [Hslot Hdrop].
  fold rom in Hslot, Hdrop.
  assert (Hpad : (pad < 512)%nat).
  { subst pad. unfold pad_count.
    destruct (Z.ltb_spec (Z.of_nat (512 + length program)) 512); [lia|].
    Z.div_mod_to_equations. lia. }
  assert (Hrl : length rom = (512 + length program + pad)%nat).
  { subst rom body. rewrite !length_app, repeat_length, Hpre, Hmid. simpl. lia. }
  assert (Hmod : Z.of_nat (length rom) mod 512 = 0).
  { rewrite Hrl.
    pose proof (padded_length (Z.of_nat (512 + length program)) ltac:(lia)) as [Hm _].
    pose proof (pad_count_bound (Z.of_nat (512 + length program)) ltac:(lia)).
    replace (Z.of_nat (512 + length program + pad))
      with (Z.of_nat (512 + length program)
            + pad_count (Z.of_nat (512 + length program)))
      by (subst pad; lia).
    exact Hm. }
  exists rom, pad. repeat split; try assumption.
  - rewrite Hslot, Hdrop. now rewrite be16_split.
  - apply checksum_loop_spec; [lia|]. Z.div_mod_to_equations. lia.
  - rewrite <- Hvec. subst rom.
    rewrite take_app_le by lia. rewrite take_take. f_equal.
Qed.

(** ** The fixed program and its image *)

(** The emission of the fixed program raises nothing. *)
Lemma build_program_runs :
  exists lay program, build_program [] = Ok (lay, program)
                      /\ length program = 144%nat.
Proof. vm_compute. eauto. Qed.

(** Beyond 512, the budget of the padding loop does not matter. *)
Lemma generate_rom_fuel (fuel : nat) :
  (512 < fuel)%nat -> generate_rom fuel = generate_rom 513.
Proof.
  intros Hfuel. unfold generate_rom.
  destruct (build_program []) as [[lay program]|e]; [|reflexivity].
  unfold build_rom.
  destruct (build_vectors_and_header _ _) as [head|e]; [|reflexivity].
  now rewrite !pad_loop_total by lia.
Qed.

Lemma forallb_seqZ (P : Z -> bool) (lo n k : Z) :
  forallb P (seqZ lo n) = true -> lo <= k < lo + n -> P k = true.
Proof.
  intros Hall Hk. rewrite forallb_forall in Hall. apply Hall.
  apply list_elem_of_In, elem_of_seqZ. lia.
Qed.

(** ** Patching and emitting a relative branch *)

(** The store of a forward patch can only fail on its subscript: the
    masked displacement is always a byte. *)
Lemma store_masked (buf : list Z) (site v : Z) :
  store buf site (Z.land v 0xFF)
  = (j ← py_index (Z.of_nat (length buf)) site; Ok (<[j := v mod 256]> buf)).
Proof. unfold store. now rewrite is_byte_land, land_FF. Qed.

(** A forward branch whose opcode is at [site - 1]: when the distance
    fits, the patched byte is the displacement from the end of the
    branch to the target. *)
Lemma forward_patch_exact (buf : list Z) (site target : Z) :
  0 <= site < Z.of_nat (length buf) ->
  -128 <= target - ((site - 1) + 2) <= 127 ->
  exists buf',
    store buf site (Z.land (target - site - 1) 0xFF) = Ok buf' /\
    signed8 <$> buf' !! Z.to_nat site = Some (target - ((site - 1) + 2)).
Proof.
  intros Hsite Hfit. rewrite store_masked.
  rewrite py_index_in_range by exact Hsite. cbn [mbind result_bind].
  eexists. split; [reflexivity|].
  rewrite list_lookup_insert_eq by lia. cbn [fmap option_fmap option_map].
  f_equal. replace (target - (site - 1 + 2)) with (target - site - 1) by lia.
  apply signed8_exact. lia.
Qed.

(** A backward branch emitted at [anchor = len(program)] with
    [disp = target - len(program) - 2]. *)
Lemma backward_branch_exact (anchor target : Z) :
  -128 <= target - (anchor + 2) <= 127 ->
  BRA_8 (Z.land (target - anchor - 2) 0xFF)
  = Ok [0x60; (target - anchor - 2) mod 256]
  /\ signed8 ((target - anchor - 2) mod 256) = target - (anchor + 2).
Proof.
  intros Hfit. split.
  - unfold BRA_8. rewrite branch8_spec by reflexivity.
    rewrite land_FF. now rewrite Z.mod_mod by lia.
  - replace (target - (anchor + 2)) with (target - anchor - 2) by lia.
    apply signed8_exact. lia.
Qed.

(** ** The two passes of [assemble_68k] *)

Section Passes.

Implicit Types (instructions pre post : list inst) (labels : gmap string Z).

Lemma first_pass_app pre post (pc : Z) labels :
  first_pass (pre ++ post) pc labels
  = (t ← first_pass pre pc labels; first_pass post t.1 t.2).
Proof.
  revert pc labels. induction pre as [|i pre IH]; intros pc labels; [reflexivity|].
  destruct i as [s|bs|op size args| |]; cbn [app first_pass];
    try apply IH; try reflexivity.
  - destruct (endswith_colon s); apply IH.
  - destruct (add_size pc size) as [pc'|e]; [apply IH | reflexivity].
Qed.

(** The first pass treats two tables alike: it raises on both or on
    neither, reaches the same counter, and keeps a relation between the
    tables that insertions keep. *)
Lemma first_pass_rel (R : gmap string Z -> gmap string Z -> Prop) :
  (forall k v labels labels',
     R labels labels' -> R (<[k := v]> labels) (<[k := v]> labels')) ->
  forall instructions (pc : Z) labels labels',
  R labels labels' ->
  match first_pass instructions pc labels, first_pass instructions pc labels' with
  | Ok t, Ok t' => t.1 = t'.1 /\ R t.2 t'.2
  | Raise e, Raise e' => e = e'
  | _, _ => False
  end.
Proof.
  intros Hins. induction instructions as [|i rest IH]; intros pc labels labels' HR.
  - cbn. auto.
  - destruct i as [s|bs|op size args| |]; cbn [first_pass]; try (apply IH; exact HR).
    + destruct (endswith_colon s); apply IH; [apply Hins|]; exact HR.
    + destruct (add_size pc size) as [pc'|e]; cbn [mbind result_bind];
        [apply IH; exact HR | reflexivity].
    + reflexivity.
Qed.

(** The counter of the first pass does not depend on the table. *)
Lemma first_pass_pc instructions (pc pc' : Z) labels labels' labels0 :
  first_pass instructions pc labels = Ok (pc', labels') ->
  exists labels0', first_pass instructions pc labels0 = Ok (pc', labels0').
Proof.
  intros Hrun.
  pose proof (first_pass_rel (fun _ _ => True) (fun _ _ _ _ _ => I)
                instructions pc labels labels0 I) as H.
  rewrite Hrun in H. destruct (first_pass instructions pc labels0) as [[p t]|e];
    [|contradiction].
  cbn [fst snd] in H. destruct H as [<- _]. eauto.
Qed.


(** A name that the stream has no marker for keeps its entry. *)
Lemma first_pass_unbound instructions (name : string) :
  forall (pc pc' : Z) labels labels',
  forallb (fun i => negb (binds name i)) instructions = true ->
  first_pass instructions pc labels = Ok (pc', labels') ->
  labels' !! name = labels !! name.
Proof.
  induction instructions as [|i rest IH]; intros pc pc' labels labels' Hnone Hrun.
  - cbn in Hrun. now injection Hrun as _ <-.
  - cbn [forallb] in Hnone. apply andb_true_iff in Hnone as [Hi Hrest].
    destruct i as [s|bs|op size args| |]; cbn [first_pass] in Hrun;
      try (apply (IH _ _ _ _ Hrest Hrun)); try discriminate.
    + cbn [binds] in Hi. destruct (endswith_colon s);
        [|apply (IH _ _ _ _ Hrest Hrun)].
      rewrite (IH _ _ _ _ Hrest Hrun). apply lookup_insert_ne.
      cbn [andb] in Hi. apply negb_true_iff, String.eqb_neq in Hi. exact Hi.
    + destruct (add_size pc size) as [p|e]; [|discriminate].
      apply (IH _ _ _ _ Hrest Hrun).
Qed.

(** The binding that survives is the one of the last marker. *)
Lemma first_pass_last_marker pre post (s : string) (pc pcT : Z) labels T :
  endswith_colon s = true ->
  forallb (fun i => negb (binds (but_last s) i)) post = true ->
  first_pass (pre ++ IStr s :: post) pc labels = Ok (pcT, T) ->
  exists off T0,
    first_pass pre pc labels = Ok (off, T0) /\ T !! but_last s = Some off.
Proof.
  intros Hs Hpost Hrun. rewrite first_pass_app in Hrun.
  destruct (first_pass pre pc labels) as [[off T0]|e]; [|discriminate].
  cbn [mbind result_bind fst snd first_pass] in Hrun. rewrite Hs in Hrun.
  exists off, T0. split; [reflexivity|].
  rewrite (first_pass_unbound _ _ _ _ _ _ Hpost Hrun). apply lookup_insert_eq.
Qed.


Lemma second_pass_app pre post (pc : Z) labels (code : list Z) :
  second_pass (pre ++ post) pc labels code
  = (r ← second_pass pre pc labels code; second_pass post r.1.1 r.1.2 r.2).
Proof.
  revert pc labels code.
  induction pre as [|i pre IH]; intros pc labels code; [reflexivity|].
  destruct i as [s|bs|op size args| |]; cbn [app second_pass];
    try apply IH; try reflexivity.
  - destruct (extend_code code (VBytes bs)) as [code'|e]; [apply IH | reflexivity].
  - destruct (encode op pc labels args) as [[v labels']|e]; [|reflexivity].
    cbn [mbind result_bind fst snd].
    destruct (extend_code code v) as [code'|e]; [|reflexivity].
    cbn [mbind result_bind].
    destruct (add_size pc size) as [pc'|e]; [apply IH | reflexivity].
Qed.

(** [code.extend] appends the bytes of its argument or raises. *)
Lemma extend_code_items (code : list Z) (v : pyval) :
  extend_code code v
  = match byte_items v with
    | Some bs => Ok (code ++ bs)
    | None =>
        match v with
        | VBytes _ | VList _ => Raise ValueError
        | _ => Raise TypeError
        end
    end.
Proof.
  destruct v as [|n|s|bs|bs]; cbn [extend_code byte_items]; try reflexivity.
  - destruct s; [now rewrite app_nil_r | reflexivity].
  - unfold bytes_of. now destruct (forallb is_byte bs).
  - unfold bytes_of. now destruct (forallb is_byte bs).
Qed.

Lemma extend_code_ok (code code' : list Z) (v : pyval) :
  extend_code code v = Ok code' ->
  exists bs, byte_items v = Some bs /\ code' = code ++ bs.
Proof.
  rewrite extend_code_items. destruct (byte_items v) as [bs|].
  - intros [= <-]. eauto.
  - destruct v; discriminate.
Qed.

(** Whatever the declared sizes, a second pass that returns ends with
    the counter of the first pass, which is ahead of the emitted code
    by the accumulated difference between declared and encoded size. *)
Lemma second_pass_drift labels0 instructions :
  forall (pc : Z) labels (code : list Z) (pc' : Z) labels' (code' : list Z),
  second_pass instructions pc labels code = Ok (pc', labels', code') ->
  (exists T0, first_pass instructions pc labels0 = Ok (pc', T0)) /\
  exists out, code' = code ++ out /\
              pc' - pc = Z.of_nat (length out) + size_drift instructions pc labels.
Proof.
  revert labels0.
  induction instructions as [|i rest IH];
    intros labels0 pc labels code pc' labels' code' Hrun.
  - cbn in Hrun. injection Hrun as <- <- <-. split; [cbn; eauto|].
    exists []. rewrite app_nil_r. split; [reflexivity | simpl; lia].
  - destruct i as [s|bs|op size args| |];
      cbn [second_pass first_pass size_drift] in *; try discriminate.
    + destruct (IH labels0 _ _ _ _ _ _ Hrun) as ([T0 Hpc] & out & -> & Hd).
      split; [|eauto].
      destruct (endswith_colon s); [|eauto].
      apply (first_pass_pc _ _ _ _ _ _ Hpc).
    + destruct (extend_code code (VBytes bs)) as [c|e] eqn:Hext; [|discriminate].
      cbn [mbind result_bind] in Hrun.
      apply extend_code_ok in Hext as (b & Hb & ->).
      cbn [byte_items] in Hb.
      destruct (forallb is_byte bs); [|discriminate]. injection Hb as <-.
      destruct (IH labels0 _ _ _ _ _ _ Hrun) as (Hpc & out & -> & Hd).
      split; [exact Hpc|]. exists (bs ++ out). rewrite app_assoc.
      split; [reflexivity|]. rewrite length_app. lia.
    + destruct (encode op pc labels args) as [[v L]|e]; [|discriminate].
      cbn [mbind result_bind fst snd] in Hrun.
      destruct (extend_code code v) as [c|e] eqn:Hext; [|discriminate].
      cbn [mbind result_bind] in Hrun.
      apply extend_code_ok in Hext as (b & Hb & ->). rewrite Hb.
      destruct size as [|n|s|bs|l]; try discriminate.
      cbn [add_size mbind result_bind] in *.
      destruct (IH labels0 _ _ _ _ _ _ Hrun) as (Hpc & out & -> & Hd).
      split; [exact Hpc|]. exists (b ++ out). rewrite app_assoc.
      split; [reflexivity|]. rewrite length_app. lia.
    + apply (IH labels0 _ _ _ _ _ _ Hrun).
Qed.

(** With exact sizes the second pass returns, and nothing accumulates. *)
Lemma sizes_exact_runs instructions :
  forall (pc : Z) labels (code : list Z),
  sizes_exact instructions pc labels = true ->
  size_drift instructions pc labels = 0 /\
  exists pc' labels' code',
    second_pass instructions pc labels code = Ok (pc', labels', code').
Proof.
  induction instructions as [|i rest IH]; intros pc labels code Hex.
  - split; [reflexivity|]. cbn. eauto.
  - destruct i as [s|bs|op size args| |];
      cbn [second_pass sizes_exact size_drift] in *;
      try (apply IH; exact Hex); try discriminate.
    + apply andb_true_iff in Hex as [Hb Hrest].
      cbn [extend_code]. unfold bytes_of. rewrite Hb.
      cbn [mbind result_bind]. apply IH; exact Hrest.
    + destruct (encode op pc labels args) as [[v L]|e]; [|discriminate].
      cbn [mbind result_bind fst snd].
      rewrite extend_code_items.
      destruct (byte_items v) as [b|]; [|discriminate].
      destruct size as [|n|s|bs|l]; try discriminate.
      apply andb_true_iff in Hex as [Hsz Hrest]. apply Z.eqb_eq in Hsz.
      cbn [add_size mbind result_bind].
      destruct (IH (pc + n) L (code ++ b) Hrest) as (Hd & Hrun).
      split; [lia | exact Hrun].
Qed.

(** Exact sizes on a stream are exact sizes on each of its parts, the
    second part being met with the counter and the table that the
    second pass has reached. *)
Lemma sizes_exact_app pre post :
  forall (pc : Z) labels (code : list Z),
  sizes_exact (pre ++ post) pc labels = true ->
  sizes_exact pre pc labels = true /\
  exists pc' labels' code',
    second_pass pre pc labels code = Ok (pc', labels', code') /\
    sizes_exact post pc' labels' = true.
Proof.
  induction pre as [|i pre IH]; intros pc labels code Hex.
  - split; [reflexivity|]. cbn. eauto.
  - destruct i as [s|bs|op size args| |];
      cbn [app second_pass sizes_exact] in *;
      try (apply IH; exact Hex); try discriminate.
    + apply andb_true_iff in Hex as [Hb Hrest]. rewrite Hb.
      cbn [extend_code]. unfold bytes_of. rewrite Hb.
      cbn [mbind result_bind andb]. apply IH; exact Hrest.
    + destruct (encode op pc labels args) as [[v L]|e]; [|discriminate].
      cbn [mbind result_bind fst snd].
      rewrite extend_code_items.
      destruct (byte_items v) as [b|]; [|discriminate].
      destruct size as [|n|s|bs|l]; try discriminate.
      apply andb_true_iff in Hex as [Hsz Hrest]. rewrite Hsz.
      cbn [add_size mbind result_bind andb]. apply IH; exact Hrest.
Qed.

(** With exact sizes, the counter that the first pass has reached
    after a prefix is the length of the code that the second pass
    emits for that prefix. *)
Lemma exact_prefix labels pre :
  sizes_exact pre 0 labels = true ->
  exists assigned T0 labels' code,
    first_pass pre 0 ∅ = Ok (assigned, T0) /\
    second_pass pre 0 labels [] = Ok (assigned, labels', code) /\
    assigned = Z.of_nat (length code).
Proof.
  intros Hex.
  destruct (sizes_exact_runs pre 0 labels [] Hex) as (Hd & pc' & L & code' & Hrun).
  destruct (second_pass_drift ∅ pre 0 labels [] pc' L code' Hrun)
    as ([T0 Hpc] & out & Hout & Hlen).
  cbn [app] in Hout. subst out. exists pc', T0, L, code'.
  split; [exact Hpc|]. split; [exact Hrun | lia].
Qed.

(** A function that only reads the table keeps it. *)
Lemma reading_keeps_table f : keeps_table (reading f).
Proof.
  intros pc labels args v labels' H. unfold reading in H.
  destruct (f pc labels args); cbn [mbind result_bind] in H; [|discriminate].
  now injection H as _ <-.
Qed.

(** When no callable writes to the table, the second pass ends with the
    table it was given. *)
Lemma readers_keep_table instructions :
  forall (pc : Z) labels (code : list Z) (pc' : Z) labels' (code' : list Z),
  readers_only instructions ->
  second_pass instructions pc labels code = Ok (pc', labels', code') ->
  labels' = labels.
Proof.
  induction instructions as [|i rest IH];
    intros pc labels code pc' labels' code' Hread Hrun.
  - cbn in Hrun. now injection Hrun as _ <- _.
  - destruct i as [s|bs|op size args| |]; cbn [second_pass readers_only] in *;
      try discriminate; try (apply (IH _ _ _ _ _ _ Hread Hrun)).
    + destruct (extend_code code (VBytes bs)) as [c|e]; [|discriminate].
      apply (IH _ _ _ _ _ _ Hread Hrun).
    + destruct op as [v|f]; cbn [encode] in Hrun.
      * cbn [mbind result_bind fst snd] in Hrun.
        destruct (extend_code code v) as [c|e]; [|discriminate].
        cbn [mbind result_bind] in Hrun.
        destruct (add_size pc size) as [p|e]; [|discriminate].
        apply (IH _ _ _ _ _ _ Hread Hrun).
      * destruct Hread as [Hf Hread].
        destruct (f pc labels args) as [[v L]|e] eqn:Hcall; [|discriminate].
        cbn [mbind result_bind fst snd] in Hrun.
        destruct (extend_code code v) as [c|e]; [|discriminate].
        cbn [mbind result_bind] in Hrun.
        destruct (add_size pc size) as [p|e]; [|discriminate].
        rewrite (IH _ _ _ _ _ _ Hread Hrun). apply (Hf _ _ _ _ _ Hcall).
Qed.

(** The step of the second pass at a deferred branch. *)
Lemma second_pass_branch (size : pyval) (target : string) (rest : list inst)
    (pc : Z) labels (code : list Z) :
  second_pass
    (ITuple (OpCallable (reading branch_displacement)) size [VStr target] :: rest)
    pc labels code
  = match labels !! target with
    | Some off =>
        w ← word (off - (pc + 2));
        pc' ← add_size pc size;
        second_pass rest pc' labels (code ++ w)
    | None => Raise KeyError
    end.
Proof.
  cbn [second_pass encode]. unfold reading. cbn [branch_displacement].
  destruct (labels !! target) as [off|]; [|reflexivity].
  cbv zeta. rewrite word_spec. cbn [mbind result_bind fst snd extend_code].
  unfold bytes_of. cbn [forallb]. rewrite !is_byte_mod, andb_true_r.
  replace (is_byte ((off - (pc + 2)) mod 65536 / 256)) with true; [reflexivity|].
  symmetry. unfold is_byte. apply andb_true_iff. split.
  - apply Z.leb_le. Z.div_mod_to_equations; lia.
  - apply Z.ltb_lt. Z.div_mod_to_equations; lia.
Qed.

End Passes.

(** ** The table of expected primes *)

Lemma is_primeb_spec (p : Z) : is_primeb p = true <-> prime p.
Proof.
  rewrite <- prime_alt. unfold is_primeb, Z.prime.
  rewrite andb_true_iff, Z.ltb_lt, forallb_forall. split.
  - intros [Hp Hall]. split; [exact Hp|]. intros n Hn Hdiv.
    assert (Hin : In n (seqZ 2 (p - 2))).
    { apply list_elem_of_In, elem_of_seqZ. lia. }
    apply Hall in Hin. apply negb_true_iff, Z.eqb_neq in Hin.
    apply Hin. apply Z.mod_divide; [lia | exact Hdiv].
  - intros [Hp Hno]. split; [exact Hp|]. intros d Hd.
    apply list_elem_of_In, elem_of_seqZ in Hd.
    apply negb_true_iff, Z.eqb_neq. intros Hmod.
    apply (Hno d); [lia|]. apply Z.mod_divide; [lia | exact Hmod].
Qed.

(** ** The claims *)

(** C1: in the image that [generate_rom] returns, the 16-bit big-endian
    value at $18E-$18F is the low 16 bits of the sum of the big-endian
    words from $200 to the end of the image, a region that holds the
    program followed by the padding and nothing of the vector table or
    of the header; running the checksum loop again on the finished
    image gives that same sum. *)
Theorem generate_rom_checksum (fuel : nat) :
  (512 < fuel)%nat ->
  exists lay program rom pad,
    build_program [] = Ok (lay, program) /\
    generate_rom fuel = Some (Ok rom) /\
    drop 512 rom = program ++ repeat 0 pad /\
    stored_checksum rom = Some (Z.land (word_sum (program ++ repeat 0 pad)) 0xFFFF) /\
    checksum_loop rom = Ok (word_sum (program ++ repeat 0 pad)).
Proof.
  intros Hfuel.
  destruct build_program_runs as (lay & program & Hprog & _).
  destruct (build_rom_props fuel program (hang lay) Hfuel)
    as (rom & pad & Hrom & _ & _ & _ & Hdrop & Hsum & Hloop & _).
  exists lay, program, rom, pad. unfold generate_rom. rewrite Hprog.
  rewrite land_FFFF, <- Hdrop. auto.
Qed.

Lemma generate_rom_checksum_witness :
  exists lay program rom pad,
    build_program [] = Ok (lay, program) /\
    generate_rom 513 = Some (Ok rom) /\
    drop 512 rom = program ++ repeat 0 pad /\
    stored_checksum rom = Some (Z.land (word_sum (program ++ repeat 0 pad)) 0xFFFF) /\
    checksum_loop rom = Ok (word_sum (program ++ repeat 0 pad)).
Proof. apply (generate_rom_checksum 513). lia. Defined.

(** C6: the image that [generate_rom] returns has a length that is a
    multiple of 512 and at least 512; after the 512 bytes of vector
    table and header comes the program, and after the program only zero
    bytes, fewer than 512 of them. *)
Theorem generate_rom_size (fuel : nat) :
  (512 < fuel)%nat ->
  exists lay program rom pad,
    build_program [] = Ok (lay, program) /\
    generate_rom fuel = Some (Ok rom) /\
    Z.of_nat (length rom) mod 512 = 0 /\
    512 <= Z.of_nat (length rom) /\
    length rom = (512 + length program + pad)%nat /\
    (pad < 512)%nat /\
    take (length program) (drop 512 rom) = program /\
    drop (512 + length program) rom = repeat 0 pad.
Proof.
  intros Hfuel.
  destruct build_program_runs as (lay & program & Hprog & _).
  destruct (build_rom_props fuel program (hang lay) Hfuel)
    as (rom & pad & Hrom & Hlen & Hpad & Hmod & Hdrop & _).
  exists lay, program, rom, pad. unfold generate_rom. rewrite Hprog.
  repeat split; try assumption.
  - lia.
  - rewrite Hdrop. now rewrite take_app_length.
  - rewrite <- drop_drop, Hdrop. now rewrite drop_app_length.
Qed.

Lemma generate_rom_size_witness :
  exists lay program rom pad,
    build_program [] = Ok (lay, program) /\
    generate_rom 513 = Some (Ok rom) /\
    Z.of_nat (length rom) mod 512 = 0 /\
    512 <= Z.of_nat (length rom) /\
    length rom = (512 + length program + pad)%nat /\
    (pad < 512)%nat /\
    take (length program) (drop 512 rom) = program /\
    drop (512 + length program) rom = repeat 0 pad.
Proof. apply (generate_rom_size 513). lia. Defined.

(** C7: in the image that [generate_rom] returns, vector 0 is the
    initial stack pointer $00FFFFFE, vector 1 is the initial program
    counter $000200, and each of the vectors 2 to 63 is $200 plus the
    offset [hang] of the last instruction of the program, which is a
    [bra.s] to itself (displacement -2) and sits at that address of the
    image. *)
Theorem generate_rom_vectors (fuel : nat) :
  (512 < fuel)%nat ->
  exists lay program rom,
    build_program [] = Ok (lay, program) /\
    generate_rom fuel = Some (Ok rom) /\
    vector_entry rom 0 = Some 0x00FFFFFE /\
    vector_entry rom 1 = Some 0x00000200 /\
    (forall k, 2 <= k <= 63 -> vector_entry rom k = Some (0x200 + hang lay)) /\
    Ok (py_slice program (hang lay) (hang lay + 2)) = BRA_8 (-2) /\
    stored_displacement program (hang lay) = Some (hang lay - (hang lay + 2)) /\
    py_slice rom (0x200 + hang lay) (0x200 + hang lay + 2)
    = py_slice program (hang lay) (hang lay + 2).
Proof.
  intros Hfuel. rewrite (generate_rom_fuel fuel Hfuel).
  do 3 eexists. split; [vm_compute; reflexivity|].
  split; [vm_compute; reflexivity|].
  split; [vm_compute; reflexivity|].
  split; [vm_compute; reflexivity|].
  split; [|repeat split; vm_compute; reflexivity].
  intros k Hk.
  match goal with
  | |- vector_entry ?rom k = Some ?v =>
      pose proof (forallb_seqZ
        (fun k => match vector_entry rom k with
                  | Some a => a =? v
                  | None => false
                  end) 2 62 k) as Hall
  end.
  cbv beta in Hall.
  destruct (vector_entry _ k) as [a|].
  - f_equal. apply Z.eqb_eq. apply Hall; [vm_compute; reflexivity | lia].
  - exfalso. assert (false = true) by (apply Hall; [vm_compute; reflexivity | lia]).
    discriminate.
Qed.

Lemma generate_rom_vectors_witness :
  exists lay program rom,
    build_program [] = Ok (lay, program) /\
    generate_rom 513 = Some (Ok rom) /\
    vector_entry rom 0 = Some 0x00FFFFFE /\
    vector_entry rom 1 = Some 0x00000200 /\
    (forall k, 2 <= k <= 63 -> vector_entry rom k = Some (0x200 + hang lay)) /\
    Ok (py_slice program (hang lay) (hang lay + 2)) = BRA_8 (-2) /\
    stored_displacement program (hang lay) = Some (hang lay - (hang lay + 2)) /\
    py_slice rom (0x200 + hang lay) (0x200 + hang lay + 2)
    = py_slice program (hang lay) (hang lay + 2).
Proof. apply (generate_rom_vectors 513). lia. Defined.

(** The table of instruction lengths is that of the encoders. *)
Lemma opcode_lengths_of_encoders :
  Forall2 (fun e enc =>
             exists bs, enc = Ok bs /\ take 2 bs = [e.1.1; e.1.2]
                        /\ length bs = e.2)
          opcode_lengths sample_encodings.
Proof. repeat constructor; eexists; vm_compute; repeat split; reflexivity. Qed.

(** C2: the program holds ten 8-bit relative branches, those that
    [branches] lists, six patched forward and four computed backward;
    for each of them the byte stored after the branch opcode, read as a
    signed byte, is [target - (anchor + 2)], and that displacement lies
    in [-128, 127]. *)
Theorem branch_displacements_exact :
  exists lay program,
    build_program [] = Ok (lay, program) /\
    branch_anchors program = Some (branches lay).*1 /\
    Forall (fun b =>
              stored_displacement program b.1 = Some (b.2 - (b.1 + 2))
              /\ -128 <= b.2 - (b.1 + 2) <= 127)
           (branches lay).
Proof.
  do 2 eexists. split; [vm_compute; reflexivity|].
  split; [reflexivity|].
  repeat constructor; vm_compute; congruence.
Qed.

(** C9, as the code has it: the sieve loop is entered with
    [move.w #2,d0]; its exit test is [cmp.w #25,d0] followed by a
    [bgt.s] to [collect]; its last two instructions are [addq.w #1,d0]
    and a [bra.s] back to the test.  The constant is 25: 24 is the
    largest integer whose square is within the 600 bytes of the table,
    and the square of 25 is beyond them. *)
Theorem sieve_loop_exit_test :
  exists lay program,
    build_program [] = Ok (lay, program) /\
    Ok (py_slice program (sieve_loop lay - 4) (sieve_loop lay)) = MOVE_W_IMM_D0 2 /\
    Ok (py_slice program (sieve_loop lay) (sieve_loop lay + 4)) = CMP_W_IMM_D0 25 /\
    Ok (py_slice program (sieve_loop lay + 4) (sieve_loop lay + 6))
    = BGT_8 (collect lay - (sieve_loop lay + 4 + 2)) /\
    stored_displacement program (sieve_loop lay + 4)
    = Some (collect lay - (sieve_loop lay + 4 + 2)) /\
    Ok (py_slice program (collect lay - 4) (collect lay - 2)) = ADDQ_W_1_D0 /\
    stored_displacement program (collect lay - 2)
    = Some (sieve_loop lay - (collect lay - 2 + 2)) /\
    24 * 24 <= 600 < 25 * 25.
Proof.
  do 2 eexists. split; [vm_compute; reflexivity|].
  repeat split; vm_compute; congruence.
Qed.

(** C9, as stated, fails: no 16-bit constant whose square is at most 600
    is the immediate of the compare that opens the sieve loop. *)
Lemma sieve_bound_square_exceeds_table :
  ~ exists lay program bound,
      build_program [] = Ok (lay, program) /\
      0 <= bound <= 0xFFFF /\
      Ok (py_slice program (sieve_loop lay) (sieve_loop lay + 4))
      = CMP_W_IMM_D0 bound /\
      bound * bound <= 600.
Proof.
  intros (lay & program & bound & Hprog & Hrange & Hcmp & Hsq).
  vm_compute in Hprog. injection Hprog as <- <-.
  unfold CMP_W_IMM_D0 in Hcmp. rewrite imm16_spec in Hcmp by reflexivity.
  rewrite Z.mod_small in Hcmp by lia.
  vm_compute py_slice in Hcmp.
  injection Hcmp as Hhi Hlo.
  assert (bound = 25) by (Z.div_mod_to_equations; lia).
  subst bound. lia.
Qed.

(** C8: the constants written as [EXPECTED_PRIMES] are the entries of
    [primes] in order; there are 100 of them, each is prime, every prime
    up to 541 is among them, they increase strictly, they begin with
    2, 3, 5, 7, 11 and end with 541. *)
Theorem expected_primes_first_100 :
  expected_primes = primes /\
  length expected_primes = 100%nat /\
  Forall prime expected_primes /\
  (forall p, prime p -> p <= 541 -> In p expected_primes) /\
  StronglySorted Z.lt expected_primes /\
  take 5 expected_primes = [2; 3; 5; 7; 11] /\
  last expected_primes = Some 541.
Proof.
  assert (Heq : expected_primes = primes) by (vm_compute; reflexivity).
  split; [exact Heq|]. rewrite Heq.
  split; [reflexivity|].
  split.
  { apply Forall_forall. intros p Hp. apply is_primeb_spec.
    assert (Hall : forallb is_primeb primes = true) by (vm_compute; reflexivity).
    rewrite forallb_forall in Hall. apply Hall. apply list_elem_of_In. exact Hp. }
  split.
  { intros p Hp Hle. apply is_primeb_spec in Hp.
    assert (Hge : 1 < p).
    { unfold is_primeb in Hp. apply andb_true_iff in Hp as [Hp _].
      now apply Z.ltb_lt. }
    pose proof (forallb_seqZ
      (fun n => implb (is_primeb n) (existsb (Z.eqb n) primes)) 0 542 p) as Hall.
    cbv beta in Hall. rewrite Hp in Hall. cbn [implb] in Hall.
    assert (Hex : existsb (Z.eqb p) primes = true)
      by (apply Hall; [vm_compute; reflexivity | lia]).
    apply existsb_exists in Hex as (q & Hq & Hpq).
    apply Z.eqb_eq in Hpq. now subst q. }
  split; [|split; reflexivity].
  apply Sorted_StronglySorted; [intros x y z; apply Z.lt_trans|].
  unfold primes. repeat (constructor; [|try (constructor; reflexivity)]).
  constructor.
Qed.

Lemma expected_primes_first_100_witness : In 541 expected_primes.
Proof.
  apply (proj1 (proj2 (proj2 (proj2 expected_primes_first_100))) 541).
  - apply is_primeb_spec. vm_compute. reflexivity.
  - lia.
Defined.

(** C3, as the code has it: the displacement of an 8-bit branch is
    masked with [0xFF] and stored whatever its value.  None of the five
    encoders raises; the store of a forward patch can raise only on its
    subscript; the stored byte, read as a signed byte, is the
    displacement wrapped into [-128, 127], hence the displacement
    itself exactly when that fits. *)
Theorem branch_displacement_masked (disp : Z) :
  BNE_8 disp = Ok [0x66; disp mod 256] /\
  BGT_8 disp = Ok [0x6E; disp mod 256] /\
  BGE_8 disp = Ok [0x6C; disp mod 256] /\
  BEQ_8 disp = Ok [0x67; disp mod 256] /\
  BRA_8 disp = Ok [0x60; disp mod 256] /\
  (forall (buf : list Z) (site target : Z),
     store buf site (Z.land (target - site - 1) 0xFF)
     = (j ← py_index (Z.of_nat (length buf)) site;
        Ok (<[j := (target - site - 1) mod 256]> buf))) /\
  signed8 (disp mod 256) = (disp + 128) mod 256 - 128 /\
  (signed8 (disp mod 256) = disp <-> -128 <= disp <= 127).
Proof.
  unfold BNE_8, BGT_8, BGE_8, BEQ_8, BRA_8.
  rewrite !branch8_spec by reflexivity.
  do 5 (split; [reflexivity|]).
  split; [intros buf site target; apply store_masked|].
  split; [apply signed8_wrap | apply signed8_exact].
Qed.

Lemma branch_displacement_masked_witness : signed8 (36 mod 256) = 36.
Proof.
  apply (proj2 (proj2 (proj2 (proj2 (proj2 (proj2 (proj2
           (branch_displacement_masked 36)))))))).
  lia.
Defined.

(** C3, as stated, fails: a displacement of 200 is encoded, as the byte
    that encodes -56; and a forward branch over 200 bytes of filler is
    patched with that same byte. *)
Lemma far_branch_wraps :
  ~ (-128 <= 200 <= 127) /\
  raises (BRA_8 200) = false /\
  BRA_8 200 = BRA_8 (-56) /\
  (extend (BGT_8 0);;
   site ← (n ← len; mret (n - 1));
   extend (bytes_of (repeat 0 200));;
   target ← len;
   setitem site (Z.land (target - site - 1) 0xFF);;
   mret (target - (site - 1 + 2))) []
  = Ok (200, [0x6E; 200] ++ repeat 0 200) /\
  signed8 200 = -56.
Proof. split; [lia|]. repeat split; vm_compute; reflexivity. Qed.

(** C5, as the code has it.  Of the twenty-seven encodings of
    [generate_rom], only the byte immediate of [MOVE_B_IMM_A0] and
    [MOVE_B_IMM_A0_OFF], which goes unmasked into [bytes([...])], raises
    on a value outside [0, 255].  Every other operand is masked to the
    width of its field and encoded, whatever integer it is: a 16-bit
    field ([word]) keeps the low 16 bits, a 32-bit field ([long]) the
    low 32 bits, the displacement of a short branch the low 8 bits.  The
    encodings without operand are constants. *)
Theorem operand_fields_masked (val : Z) :
  word val = Ok [val mod 65536 / 256; val mod 256] /\
  long val = Ok [val / 16777216 mod 256; val / 65536 mod 256;
                 val / 256 mod 256; val mod 256] /\
  MOVE_W_IMM_D0 val = Ok [0x30; 0x3C; val mod 65536 / 256; val mod 256] /\
  MOVE_W_IMM_D1 val = Ok [0x32; 0x3C; val mod 65536 / 256; val mod 256] /\
  CMP_W_IMM_D0 val = Ok [0xB0; 0x7C; val mod 65536 / 256; val mod 256] /\
  CMP_W_IMM_D1 val = Ok [0xB2; 0x7C; val mod 65536 / 256; val mod 256] /\
  DBRA_D0 val = Ok [0x51; 0xC8; val mod 65536 / 256; val mod 256] /\
  BRA_16 val = Ok [0x60; 0x00; val mod 65536 / 256; val mod 256] /\
  MOVE_W_D1_ABS val
  = Ok [0x33; 0xC1; val / 16777216 mod 256; val / 65536 mod 256;
        val / 256 mod 256; val mod 256] /\
  (forall addr,
     MOVE_W_IMM_ABS val addr
     = Ok [0x33; 0xFC; val mod 65536 / 256; val mod 256;
           addr / 16777216 mod 256; addr / 65536 mod 256;
           addr / 256 mod 256; addr mod 256]) /\
  BNE_8 val = Ok [0x66; val mod 256] /\
  BGT_8 val = Ok [0x6E; val mod 256] /\
  BGE_8 val = Ok [0x6C; val mod 256] /\
  BEQ_8 val = Ok [0x67; val mod 256] /\
  BRA_8 val = Ok [0x60; val mod 256] /\
  MOVE_B_IMM_A0 val
  = (if is_byte val then Ok [0x10; 0xBC; 0x00; val] else Raise ValueError) /\
  (forall off,
     MOVE_B_IMM_A0_OFF val off
     = if is_byte val
       then Ok [0x11; 0x7C; 0x00; val; off mod 65536 / 256; off mod 256]
       else Raise ValueError) /\
  [LEA_FF0000_A7; LEA_FF0000_A0; LEA_FF0300_A1; CLR_B_A0_INC; CLR_W_D1;
   TST_B_A0_D0; MOVE_B_1_A0_D1; ADDQ_W_1_D0; ADDQ_W_1_D1; ADD_W_D0_D1;
   MOVE_W_D0_A1_INC; NOP]
  = [Ok [0x4F; 0xF9; 0x00; 0xFF; 0x00; 0x00]; Ok [0x41; 0xF9; 0x00; 0xFF; 0x00; 0x00];
     Ok [0x43; 0xF9; 0x00; 0xFF; 0x03; 0x00]; Ok [0x42; 0x18]; Ok [0x42; 0x41];
     Ok [0x4A; 0x30; 0x00; 0x00]; Ok [0x11; 0xBC; 0x00; 0x01; 0x10; 0x00];
     Ok [0x52; 0x40]; Ok [0x52; 0x41]; Ok [0xD2; 0x40]; Ok [0x32; 0xC0];
     Ok [0x4E; 0x71]].
Proof.
  unfold MOVE_W_IMM_D0, MOVE_W_IMM_D1, CMP_W_IMM_D0, CMP_W_IMM_D1, DBRA_D0, BRA_16.
  rewrite !imm16_spec by reflexivity.
  unfold BNE_8, BGT_8, BGE_8, BEQ_8, BRA_8.
  rewrite !branch8_spec by reflexivity.
  unfold MOVE_W_D1_ABS, MOVE_W_IMM_ABS, MOVE_B_IMM_A0, MOVE_B_IMM_A0_OFF.
  rewrite imm16_spec by reflexivity.
  unfold bcat. rewrite long_spec.
  split; [apply word_spec|].
  do 8 (split; [reflexivity|]).
  split; [intros addr; now rewrite long_spec|].
  do 5 (split; [reflexivity|]).
  split; [|split].
  - unfold bytes_of. cbn [forallb]. rewrite andb_true_r.
    now destruct (is_byte val).
  - intros off. rewrite word_spec. unfold bytes_of. cbn [forallb].
    rewrite andb_true_r. now destruct (is_byte val).
  - reflexivity.
Qed.


(** C5, as stated, fails: 65537 and -1 do not fit a 16-bit field, and
    are encoded as 1 and as 65535. *)
Lemma word_truncates :
  ~ (0 <= 65537 <= 65535) /\
  raises (MOVE_W_IMM_D0 65537) = false /\
  MOVE_W_IMM_D0 65537 = MOVE_W_IMM_D0 1 /\
  ~ (0 <= -1 <= 65535) /\
  raises (word (-1)) = false /\
  word (-1) = word 65535.
Proof. repeat split; try lia; vm_compute; reflexivity. Qed.




(** C10, as the code has it.  Take any position of a stream that the
    first pass gets through, [pre] being what comes before it, [T] the
    table of the first pass, and [assigned] the counter that the first
    pass has reached at the position.
    - When every tuple of [pre] declares the size of its encoding, the
      second pass emits for [pre] exactly [assigned] bytes.
    - Whatever the sizes, if the second pass gets through [pre] its
      counter is [assigned], and [assigned] is ahead of the emitted
      code by the sum of declared minus encoded size over the tuples of
      [pre]; nothing is raised on that account.
    - After a single tuple with a wrong size, the others being exact,
      [assigned] is off by that tuple's difference.
    - A label marker at the position is bound to [assigned], and keeps
      that offset in [T] unless it is bound again.
    - A callable at the position is invoked with the second pass's
      counter and with the shared table as the callables before it have
      left it; that is [T] when none of them writes to it, and the
      table the callable leaves is the one the rest of the stream is
      assembled with. *)
Theorem label_offsets_and_emitted_code (pre post : list inst) (i : inst)
    (pcT : Z) (T : gmap string Z) :
  first_pass (pre ++ i :: post) 0 ∅ = Ok (pcT, T) ->
  exists assigned T0,
    first_pass pre 0 ∅ = Ok (assigned, T0) /\
    (sizes_exact pre 0 T = true ->
     exists labels code,
       second_pass pre 0 T [] = Ok (assigned, labels, code)
       /\ assigned = Z.of_nat (length code)) /\
    (forall pc labels code,
       second_pass pre 0 T [] = Ok (pc, labels, code) ->
       pc = assigned
       /\ assigned = Z.of_nat (length code) + size_drift pre 0 T) /\
    (forall pre1 mid op size args pc1 L1 code1 v L2 bs,
       pre = pre1 ++ ITuple op (VInt size) args :: mid ->
       sizes_exact pre1 0 T = true ->
       second_pass pre1 0 T [] = Ok (pc1, L1, code1) ->
       encode op pc1 L1 args = Ok (v, L2) ->
       byte_items v = Some bs ->
       sizes_exact mid (pc1 + size) L2 = true ->
       exists labels code,
         second_pass pre 0 T [] = Ok (assigned, labels, code)
         /\ assigned = Z.of_nat (length code) + (size - Z.of_nat (length bs))) /\
    (forall s,
       i = IStr s -> endswith_colon s = true ->
       (exists pc' T',
          first_pass (pre ++ [i]) 0 ∅ = Ok (pc', T')
          /\ T' !! but_last s = Some assigned)
       /\ (forallb (fun j => negb (binds (but_last s) j)) post = true ->
           T !! but_last s = Some assigned)) /\
    (forall f size args,
       i = ITuple (OpCallable f) size args ->
       second_pass (pre ++ i :: post) 0 T []
       = (r ← second_pass pre 0 T [];
          c ← f r.1.1 r.1.2 args;
          code' ← extend_code r.2 c.1;
          pc' ← add_size r.1.1 size;
          second_pass post pc' c.2 code')
       /\ (forall pc labels code,
             second_pass pre 0 T [] = Ok (pc, labels, code) ->
             pc = assigned
             /\ (readers_only pre -> labels = T))).
Proof.
  intros HT.
  assert (Hpre : exists assigned T0, first_pass pre 0 ∅ = Ok (assigned, T0)).
  { rewrite first_pass_app in HT.
    destruct (first_pass pre 0 ∅) as [[a T0]|e]; [eauto | discriminate]. }
  destruct Hpre as (assigned & T0 & Hpre). exists assigned, T0.
  assert (Hcounter : forall pc labels code,
            second_pass pre 0 T [] = Ok (pc, labels, code) ->
            pc = assigned
            /\ assigned = Z.of_nat (length code) + size_drift pre 0 T).
  { intros pc labels code Hrun.
    destruct (second_pass_drift ∅ pre 0 T [] pc labels code Hrun)
      as ([T1 Hpc] & out & Hout & Hlen).
    cbn [app] in Hout. subst out. rewrite Hpre in Hpc. injection Hpc as -> _.
    split; [reflexivity | lia]. }
  split; [exact Hpre|]. split; [|split; [|split; [|split]]].
  - intros Hex.
    destruct (exact_prefix T pre Hex) as (a & T1 & L & code & Hfp & Hrun & Hlen).
    rewrite Hpre in Hfp. injection Hfp as <- _. eauto.
  - exact Hcounter.
  - intros pre1 mid op size args pc1 L1 code1 v L2 bs Hsplit Hex1 Hrun1 Henc Hv Hexm.
    destruct (sizes_exact_runs pre1 0 T [] Hex1) as (Hd1 & _).
    destruct (second_pass_drift ∅ pre1 0 T [] pc1 L1 code1 Hrun1)
      as (_ & out1 & Hout1 & Hlen1).
    cbn [app] in Hout1. subst out1.
    destruct (sizes_exact_runs mid (pc1 + size) L2 (code1 ++ bs) Hexm)
      as (Hd & pc' & L' & code' & Hrunm).
    destruct (second_pass_drift ∅ mid _ _ _ _ _ _ Hrunm)
      as (_ & out & Hout & Hlen).
    assert (Hrun : second_pass pre 0 T [] = Ok (pc', L', code')).
    { rewrite Hsplit, second_pass_app, Hrun1. cbn [mbind result_bind fst snd].
      cbn [second_pass]. rewrite Henc. cbn [mbind result_bind fst snd].
      rewrite extend_code_items, Hv. cbn [add_size mbind result_bind].
      exact Hrunm. }
    destruct (Hcounter _ _ _ Hrun) as [-> _].
    exists L', code'. split; [exact Hrun|].
    rewrite Hout, !length_app. lia.
  - intros s -> Hs. split.
    + rewrite first_pass_app, Hpre. cbn [mbind result_bind fst snd first_pass].
      rewrite Hs. eexists _, _. split; [reflexivity|]. apply lookup_insert_eq.
    + intros Hpost.
      destruct (first_pass_last_marker _ _ _ _ _ _ _ Hs Hpost HT)
        as (off & T1 & Hfp & Hlk).
      rewrite Hpre in Hfp. now injection Hfp as <- _.
  - intros f size args ->. split.
    + rewrite second_pass_app.
      destruct (second_pass pre 0 T []) as [[[pc L] code]|e]; reflexivity.
    + intros pc labels code Hrun. split; [apply (Hcounter _ _ _ Hrun)|].
      intros Hread. apply (readers_keep_table _ _ _ _ _ _ _ Hread Hrun).
Qed.

Lemma label_offsets_and_emitted_code_witness :
  exists assigned T0,
    first_pass [IBytes [0x4E; 0x71];
                ITuple (OpCallable (reading branch_displacement)) (VInt 2) [VStr "L"]]
               0 ∅
    = Ok (assigned, T0) /\
    exists labels code,
      second_pass
        [IBytes [0x4E; 0x71];
         ITuple (OpCallable (reading branch_displacement)) (VInt 2) [VStr "L"]]
        0 (<["L" := 4]> ∅) []
      = Ok (assigned, labels, code)
      /\ assigned = Z.of_nat (length code).
Proof.
  destruct (label_offsets_and_emitted_code
              [IBytes [0x4E; 0x71];
               ITuple (OpCallable (reading branch_displacement)) (VInt 2) [VStr "L"]]
              [] (IStr "L:") 4 (<["L" := 4]> ∅) eq_refl)
    as (assigned & T0 & Hpre & Hexact & _).
  exists assigned, T0. split; [exact Hpre|]. apply Hexact. reflexivity.
Defined.

(** C10, as stated, fails in its last part: the first tuple declares two
    bytes and encodes one, the second declares two and encodes three,
    and the label after them has the offset of the code emitted before
    it. *)
Lemma compensating_sizes_agree :
  let pre := [ITuple (OpVal (VBytes [0x4E])) (VInt 2) [];
              ITuple (OpVal (VBytes [0x4E; 0x71; 0x4E])) (VInt 2) []] in
  let instructions := pre ++ [IStr "L:"] in
  let labels := <["L" := 4]> ∅ in
  first_pass instructions 0 ∅ = Ok (4, labels) /\
  encode (OpVal (VBytes [0x4E])) 0 labels [] = Ok (VBytes [0x4E], labels) /\
  2 <> Z.of_nat (length [0x4E]) /\
  sizes_exact instructions 0 labels = false /\
  labels !! "L" = Some 4 /\
  second_pass pre 0 labels [] = Ok (4, labels, [0x4E; 0x4E; 0x71; 0x4E]) /\
  Z.of_nat (length [0x4E; 0x4E; 0x71; 0x4E]) = 4 /\
  assemble_68k instructions = Ok [0x4E; 0x4E; 0x71; 0x4E].
Proof. repeat split; try (vm_compute; congruence). Qed.

(** The table is one object for all callables: a callable that binds a
    name changes what the callables after it receive.  Here the label
    [L] stands at offset 4; the first callable emits nothing and binds
    [L] to 100, and the branch after it is encoded against 100. *)
Lemma earlier_callable_moves_label :
  let rebind : callable := fun pc labels args => Ok (VBytes [], <["L" := 100]> labels) in
  let branch := ITuple (OpCallable (reading branch_displacement)) (VInt 2) [VStr "L"] in
  let labels := <["L" := 4]> ∅ in
  first_pass [ITuple (OpCallable rebind) (VInt 0) []; branch; IBytes [0x4E; 0x71]; IStr "L:"]
             0 ∅
  = Ok (4, labels) /\
  sizes_exact [ITuple (OpCallable rebind) (VInt 0) []; branch; IBytes [0x4E; 0x71]; IStr "L:"]
              0 labels = true /\
  ~ keeps_table rebind /\
  assemble_68k [branch; IBytes [0x4E; 0x71]; IStr "L:"]
  = Ok [0x00; 0x02; 0x4E; 0x71] /\
  assemble_68k
    [ITuple (OpCallable rebind) (VInt 0) []; branch; IBytes [0x4E; 0x71]; IStr "L:"]
  = Ok [0x00; 0x62; 0x4E; 0x71].
Proof.
  split; [vm_compute; reflexivity|]. split; [vm_compute; reflexivity|].
  split; [|split; vm_compute; reflexivity].
  intros Hk. specialize (Hk 0 ∅ [] _ _ eq_refl).
  apply (f_equal (fun m : gmap string Z => m !! "L")) in Hk.
  vm_compute in Hk. discriminate.
Qed.

(** * Further properties *)

(** ** Words and longs read back *)

Lemma byte_field_bit (v k n : Z) :
  0 <= k -> 0 <= n ->
  Z.testbit (Z.shiftl ((v / 2 ^ k) mod 2 ^ 8) k) n
  = (k <=? n) && (n <? k + 8) && Z.testbit v n.
Proof.
  intros Hk Hn.
  destruct (Z.leb_spec k n) as [Hle | Hlt]; cbn [andb].
  - rewrite Z.shiftl_spec by lia.
    destruct (Z.ltb_spec n (k + 8)) as [Hin | Hout]; cbn [andb].
    + rewrite Z.mod_pow2_bits_low by lia.
      rewrite Z.div_pow2_bits by lia. f_equal. lia.
    + rewrite Z.mod_pow2_bits_high by lia. reflexivity.
  - rewrite Z.shiftl_spec_low by lia. reflexivity.
Qed.

Lemma be32_split (v : Z) :
  be32 (v / 16777216 mod 256) (v / 65536 mod 256) (v / 256 mod 256) (v mod 256)
  = v mod 4294967296.
Proof.
  unfold be32. apply Z.bits_inj'. intros n Hn.
  rewrite !Z.lor_spec.
  change 16777216 with (2 ^ 24). change 65536 with (2 ^ 16).
  change 256 with (2 ^ 8). change 4294967296 with (2 ^ 32).
  rewrite !byte_field_bit by lia.
  replace (v mod 2 ^ 8) with (Z.shiftl ((v / 2 ^ 0) mod 2 ^ 8) 0)
    by (rewrite Z.shiftl_0_r; change (2 ^ 0) with 1; now rewrite Z.div_1_r).
  rewrite byte_field_bit by lia.
  destruct (Z.lt_ge_cases n 32) as [Hlt | Hge].
  - rewrite Z.mod_pow2_bits_low by lia.
    destruct (Z.leb_spec 24 n), (Z.leb_spec 16 n), (Z.leb_spec 8 n),
      (Z.leb_spec 0 n), (Z.ltb_spec n (24 + 8)), (Z.ltb_spec n (16 + 8)),
      (Z.ltb_spec n (8 + 8)), (Z.ltb_spec n (0 + 8));
      cbn [andb orb]; try lia; now rewrite ?orb_false_r.
  - rewrite Z.mod_pow2_bits_high by lia.
    destruct (Z.ltb_spec n (24 + 8)), (Z.ltb_spec n (16 + 8)),
      (Z.ltb_spec n (8 + 8)), (Z.ltb_spec n (0 + 8)); try lia;
      now rewrite !andb_false_r.
Qed.

Lemma is_byte_high (v : Z) : is_byte (v mod 65536 / 256) = true.
Proof.
  apply is_byte_spec.
  pose proof (Z.mod_pos_bound v 65536 ltac:(lia)).
  split; [apply Z.div_pos; lia | apply Z.div_lt_upper_bound; lia].
Qed.

(** X1: [word(val)] is, for every integer, two bytes whose big-endian
    reading is [val] reduced modulo 65536, hence [val] itself when it
    fits 16 bits. *)
Theorem word_reads_back (val : Z) :
  exists hi lo,
    word val = Ok [hi; lo] /\
    is_byte hi = true /\ is_byte lo = true /\
    be16 hi lo = val mod 65536 /\
    (0 <= val <= 0xFFFF -> be16 hi lo = val).
Proof.
  exists (val mod 65536 / 256), (val mod 256).
  split; [apply word_spec|].
  split; [apply is_byte_high|]. split; [apply is_byte_mod|].
  assert (Hbe : be16 (val mod 65536 / 256) (val mod 256) = val mod 65536).
  { rewrite <- (be16_split (val mod 65536)) at 2. f_equal.
    symmetry. apply Z.mod_mod_divide. exists 256. reflexivity. }
  split; [exact Hbe|]. intros Hfit. rewrite Hbe. apply Z.mod_small. lia.
Qed.

Lemma word_reads_back_witness :
  exists hi lo,
    word 600 = Ok [hi; lo] /\ is_byte hi = true /\ is_byte lo = true /\
    be16 hi lo = 600.
Proof.
  destruct (word_reads_back 600) as (hi & lo & Hw & Hhi & Hlo & _ & Hfit).
  exists hi, lo. repeat split; try assumption. apply Hfit. lia.
Defined.

(** X2: [long(val)] is, for every integer, four bytes whose big-endian
    reading is [val] reduced modulo 2^32, hence [val] itself when it
    fits 32 bits. *)
Theorem long_reads_back (val : Z) :
  exists b3 b2 b1 b0,
    long val = Ok [b3; b2; b1; b0] /\
    forallb is_byte [b3; b2; b1; b0] = true /\
    be32 b3 b2 b1 b0 = val mod 4294967296 /\
    (0 <= val <= 0xFFFFFFFF -> be32 b3 b2 b1 b0 = val).
Proof.
  exists (val / 16777216 mod 256), (val / 65536 mod 256),
         (val / 256 mod 256), (val mod 256).
  split; [apply long_spec|].
  split; [cbn [forallb]; now rewrite !is_byte_mod|].
  split; [apply be32_split|].
  intros Hfit. rewrite be32_split. apply Z.mod_small. lia.
Qed.

Lemma long_reads_back_witness :
  exists b3 b2 b1 b0,
    long 0x00FFFFFE = Ok [b3; b2; b1; b0] /\ be32 b3 b2 b1 b0 = 0x00FFFFFE.
Proof.
  destruct (long_reads_back 0x00FFFFFE) as (b3 & b2 & b1 & b0 & Hl & _ & _ & Hfit).
  exists b3, b2, b1, b0. split; [exact Hl|]. apply Hfit. lia.
Defined.

(** ** Deferred branches *)

Lemma signed16_exact (disp : Z) :
  -32768 <= disp <= 32767 -> signed16 (disp mod 65536) = disp.
Proof.
  intros H. unfold signed16.
  destruct (Z.ltb_spec (disp mod 65536) 32768); Z.div_mod_to_equations; lia.
Qed.

(** X3: [branch_displacement] raises [KeyError] for a target that the
    table does not hold; for a target bound to [off] it returns the two
    bytes of [off - (pc + 2)] modulo 65536, which read back as that
    displacement whenever it fits a signed 16-bit word. *)
Theorem branch_displacement_result (pc : Z) (labels : gmap string Z) (target : string) :
  (labels !! target = None ->
   branch_displacement pc labels [VStr target] = Raise KeyError) /\
  (forall off,
     labels !! target = Some off ->
     exists hi lo,
       branch_displacement pc labels [VStr target] = Ok [hi; lo] /\
       be16 hi lo = (off - (pc + 2)) mod 65536 /\
       (-32768 <= off - (pc + 2) <= 32767 ->
        signed16 (be16 hi lo) = off - (pc + 2))).
Proof.
  split.
  - intros Hnone. cbn [branch_displacement]. now rewrite Hnone.
  - intros off Hsome. cbn [branch_displacement]. rewrite Hsome. cbv zeta.
    destruct (word_reads_back (off - (pc + 2))) as (hi & lo & Hw & _ & _ & Hbe & _).
    exists hi, lo. split; [exact Hw|]. split; [exact Hbe|].
    intros Hfit. rewrite Hbe. now apply signed16_exact.
Qed.

Lemma branch_displacement_result_witness :
  branch_displacement 18 ∅ [VStr "clear_loop"] = Raise KeyError.
Proof.
  apply (proj1 (branch_displacement_result 18 ∅ "clear_loop")). reflexivity.
Defined.

(** ** Elements that both passes skip *)

Lemma first_pass_drop_ignored (pre post : list inst) (i : inst) (pc : Z)
    (labels : gmap string Z) :
  (i = IOther \/ exists s, i = IStr s /\ endswith_colon s = false) ->
  first_pass (pre ++ i :: post) pc labels = first_pass (pre ++ post) pc labels.
Proof.
  intros Hi. rewrite !first_pass_app.
  destruct (first_pass pre pc labels) as [[p L]|e]; [|reflexivity].
  cbn [mbind result_bind fst snd].
  destruct Hi as [-> | (s & -> & Hs)]; cbn [first_pass]; [reflexivity|].
  now rewrite Hs.
Qed.

Lemma second_pass_drop_string (labels : gmap string Z) (pre post : list inst)
    (i : inst) (pc : Z) (code : list Z) :
  (i = IOther \/ exists s, i = IStr s) ->
  second_pass (pre ++ i :: post) pc labels code
  = second_pass (pre ++ post) pc labels code.
Proof.
  intros Hi. rewrite !second_pass_app.
  destruct (second_pass pre pc labels code) as [[[pc' L] code']|e]; [|reflexivity].
  cbn [mbind result_bind].
  destruct Hi as [-> | (s & ->)]; reflexivity.
Qed.

(** X4: a string that does not end with a colon, or an object that is
    no string, byte string or tuple, is skipped by both passes:
    dropping it from the stream changes nothing of what
    [assemble_68k] returns. *)
Theorem assemble_ignores_other_elements (pre post : list inst) (i : inst) :
  (i = IOther \/ exists s, i = IStr s /\ endswith_colon s = false) ->
  assemble_68k (pre ++ i :: post) = assemble_68k (pre ++ post).
Proof.
  intros Hi. unfold assemble_68k.
  rewrite (first_pass_drop_ignored pre post i 0 ∅ Hi).
  destruct (first_pass (pre ++ post) 0 ∅) as [[pcT T]|e]; [|reflexivity].
  cbn [mbind result_bind fst snd].
  rewrite second_pass_drop_string; [reflexivity|].
  destruct Hi as [-> | (s & -> & _)]; eauto.
Qed.

Lemma assemble_ignores_other_elements_witness :
  assemble_68k ([IBytes [0x4E; 0x71]] ++ IStr "; a remark" :: [IBytes [0x52; 0x40]])
  = assemble_68k ([IBytes [0x4E; 0x71]] ++ [IBytes [0x52; 0x40]]).
Proof.
  apply (assemble_ignores_other_elements
           [IBytes [0x4E; 0x71]] [IBytes [0x52; 0x40]] (IStr "; a remark")).
  right. exists "; a remark". split; reflexivity.
Defined.

(** ** Streams without callables *)







(** ** The label table *)

Lemma first_pass_bound (instructions : list inst) (name : string) :
  forall (pc pc' : Z) (labels labels' : gmap string Z),
  first_pass instructions pc labels = Ok (pc', labels') ->
  is_Some (labels' !! name)
  <-> is_Some (labels !! name) \/ existsb (binds name) instructions = true.
Proof.
  induction instructions as [|i rest IH]; intros pc pc' labels labels' Hrun.
  - cbn in Hrun. injection Hrun as _ <-. cbn.
    split; [auto | intros [H | H]; [exact H | discriminate]].
  - destruct i as [s|bs|op size args| |]; cbn [first_pass existsb binds orb] in *;
      try (apply (IH _ _ _ _ Hrun)); try discriminate.
    + destruct (endswith_colon s) eqn:Hs; cbn [andb orb]; [|apply (IH _ _ _ _ Hrun)].
      rewrite (IH _ _ _ _ Hrun).
      destruct (String.eqb_spec (but_last s) name) as [-> | Hne]; cbn [orb].
      * rewrite lookup_insert_eq. split; [auto | intros _; left; eauto].
      * now rewrite lookup_insert_ne by exact Hne.
    + destruct (add_size pc size) as [p|e]; [|discriminate].
      apply (IH _ _ _ _ Hrun).
Qed.



(** ** Deferred branches in a stream *)

(** X7: the second pass reaches a deferred [branch_displacement] with
    the shared table as the callables before it have left it.  If that
    table has no entry for the target, [assemble_68k] raises
    [KeyError]; this is the case when the stream has no marker for the
    target and no callable before the branch writes to the table.  If
    the table has an entry, put there by a marker or by an earlier
    callable, the branch is encoded against it. *)
Theorem branch_to_missing_label (pre post : list inst) (size : pyval) (name : string)
    (pcT : Z) (T : gmap string Z) (pc : Z) (labels : gmap string Z) (code : list Z) :
  let branch := ITuple (OpCallable (reading branch_displacement)) size [VStr name] in
  let instructions := pre ++ branch :: post in
  first_pass instructions 0 ∅ = Ok (pcT, T) ->
  second_pass pre 0 T [] = Ok (pc, labels, code) ->
  (labels !! name = None -> assemble_68k instructions = Raise KeyError) /\
  (existsb (binds name) instructions = false -> readers_only pre ->
   assemble_68k instructions = Raise KeyError) /\
  (forall off,
     labels !! name = Some off ->
     exists w,
       word (off - (pc + 2)) = Ok w /\
       second_pass (pre ++ [branch]) 0 T []
       = (pc' ← add_size pc size; Ok (pc', labels, code ++ w))).
Proof.
  intros branch instructions HT Hrun.
  assert (Hnone : labels !! name = None -> assemble_68k instructions = Raise KeyError).
  { intros Hlk. unfold assemble_68k. rewrite HT. cbn [mbind result_bind fst snd].
    unfold instructions. rewrite second_pass_app, Hrun.
    cbn [mbind result_bind fst snd]. unfold branch.
    now rewrite second_pass_branch, Hlk. }
  split; [exact Hnone|]. split.
  - intros Hmark Hread. apply Hnone.
    rewrite (readers_keep_table _ _ _ _ _ _ _ Hread Hrun).
    destruct (T !! name) eqn:E; [|reflexivity].
    assert (Hs : is_Some (T !! name)) by eauto.
    apply (first_pass_bound _ name _ _ _ _ HT) in Hs. rewrite lookup_empty in Hs.
    destruct Hs as [[x Hx] | Hs]; [discriminate | congruence].
  - intros off Hlk.
    exists [(off - (pc + 2)) mod 65536 / 256; (off - (pc + 2)) mod 256].
    split; [apply word_spec|].
    rewrite second_pass_app, Hrun. cbn [mbind result_bind fst snd]. unfold branch.
    rewrite second_pass_branch, Hlk, word_spec. reflexivity.
Qed.

Lemma branch_to_missing_label_witness :
  assemble_68k ([IBytes [0x4E; 0x71]]
                ++ ITuple (OpCallable (reading branch_displacement)) (VInt 2)
                          [VStr "nowhere"]
                   :: [IStr "here:"])
  = Raise KeyError.
Proof.
  apply (proj1 (proj2
           (branch_to_missing_label
              [IBytes [0x4E; 0x71]] [IStr "here:"] (VInt 2) "nowhere"
              4 (<["here" := 4]> ∅) 2 (<["here" := 4]> ∅) [0x4E; 0x71]
              eq_refl eq_refl)));
    [reflexivity | exact I].
Defined.

(** X8: a deferred branch placed before its label is resolved by the
    second pass against the table of the whole stream, as long as no
    callable before the branch has written to that table.  When the
    declared sizes up to the label are exact, the two bytes emitted for
    the branch are the word of the number of bytes emitted between the
    branch and the label. *)
Theorem forward_branch_spans_code (pre mid post : list inst) (size : pyval)
    (s : string) (pcT : Z) (T : gmap string Z) :
  let branch :=
    ITuple (OpCallable (reading branch_displacement)) size [VStr (but_last s)] in
  let instructions := pre ++ branch :: mid ++ IStr s :: post in
  endswith_colon s = true ->
  forallb (fun i => negb (binds (but_last s) i)) post = true ->
  first_pass instructions 0 ∅ = Ok (pcT, T) ->
  readers_only pre ->
  sizes_exact (pre ++ branch :: mid) 0 T = true ->
  exists pc labels code_pre w code_mid,
    second_pass (pre ++ branch :: mid) 0 T []
    = Ok (pc, labels, code_pre ++ w ++ code_mid) /\
    second_pass pre 0 T [] = Ok (Z.of_nat (length code_pre), T, code_pre) /\
    word (Z.of_nat (length code_mid)) = Ok w /\
    size = VInt 2.
Proof.
  intros branch instructions Hs Hpost HT Hread Hex.
  assert (Hlk : exists target T1,
            first_pass (pre ++ branch :: mid) 0 ∅ = Ok (target, T1)
            /\ T !! but_last s = Some target).
  { apply (first_pass_last_marker _ post s 0 pcT ∅ T Hs Hpost).
    rewrite <- HT. unfold instructions. now rewrite <- app_assoc. }
  destruct Hlk as (target & T1 & Hfp & Hlk).
  destruct (exact_prefix T _ Hex) as (a & T2 & L & code & Hfp' & Hrun & Hlen).
  rewrite Hfp in Hfp'. injection Hfp' as <- <-.
  destruct (sizes_exact_app pre (branch :: mid) 0 T [] Hex)
    as (Hex1 & pc1 & L1 & code_pre & Hrun1 & Hex2).
  pose proof (readers_keep_table _ _ _ _ _ _ _ Hread Hrun1) as ->.
  destruct (sizes_exact_runs pre 0 T [] Hex1) as (Hd1 & _).
  destruct (second_pass_drift ∅ pre 0 T [] _ _ _ Hrun1) as (_ & out1 & Hout1 & Hlen1).
  cbn [app] in Hout1. subst out1.
  assert (Hpc1 : pc1 = Z.of_nat (length code_pre)) by lia.
  set (w := [(target - (pc1 + 2)) mod 65536 / 256; (target - (pc1 + 2)) mod 256]).
  assert (Hw : byte_items (VBytes w) = Some w).
  { cbn [byte_items]. replace (forallb is_byte w) with true; [reflexivity|].
    symmetry. unfold w. cbn [forallb]. rewrite is_byte_mod, !andb_true_r.
    unfold is_byte. apply andb_true_iff.
    split; [apply Z.leb_le | apply Z.ltb_lt]; Z.div_mod_to_equations; lia. }
  unfold branch in Hex2. cbn [sizes_exact encode] in Hex2. unfold reading in Hex2.
  cbn [branch_displacement] in Hex2. rewrite Hlk in Hex2. cbv zeta in Hex2.
  rewrite word_spec in Hex2. cbn [mbind result_bind] in Hex2. fold w in Hex2.
  rewrite Hw in Hex2.
  destruct size as [|n|s'|bs|l]; try discriminate.
  apply andb_true_iff in Hex2 as [Hsize Hexm]. apply Z.eqb_eq in Hsize.
  unfold w in Hsize. cbn [length] in Hsize.
  assert (Hstep : second_pass (pre ++ branch :: mid) 0 T []
                  = second_pass mid (pc1 + n) T (code_pre ++ w)).
  { rewrite second_pass_app, Hrun1. cbn [mbind result_bind fst snd]. unfold branch.
    rewrite second_pass_branch, Hlk, word_spec. reflexivity. }
  rewrite Hstep in Hrun.
  destruct (second_pass_drift ∅ mid _ _ _ _ _ _ Hrun) as (_ & out & Hout & Hd).
  destruct (sizes_exact_runs mid (pc1 + n) T (code_pre ++ w) Hexm) as (Hzero & _).
  exists target, L, code_pre, w, out. split.
  - rewrite Hstep, Hrun, Hout. now rewrite <- app_assoc.
  - split; [rewrite Hrun1, Hpc1; reflexivity|]. split; [|f_equal; lia].
    replace (Z.of_nat (length out)) with (target - (pc1 + 2)) by lia.
    apply word_spec.
Qed.

Lemma forward_branch_spans_code_witness :
  exists pc labels code_pre w code_mid,
    second_pass
      ([IBytes [0x4E; 0x71]]
       ++ ITuple (OpCallable (reading branch_displacement)) (VInt 2)
                 [VStr (but_last "done:")]
          :: [IBytes [0x52; 0x40; 0x52; 0x41]]) 0 (<["done" := 8]> ∅) []
    = Ok (pc, labels, code_pre ++ w ++ code_mid) /\
    second_pass [IBytes [0x4E; 0x71]] 0 (<["done" := 8]> ∅) []
    = Ok (Z.of_nat (length code_pre), <["done" := 8]> ∅, code_pre) /\
    word (Z.of_nat (length code_mid)) = Ok w /\
    VInt 2 = VInt 2.
Proof.
  apply (forward_branch_spans_code
           [IBytes [0x4E; 0x71]] [IBytes [0x52; 0x40; 0x52; 0x41]] [] (VInt 2) "done:"
           8 (<["done" := 8]> ∅) eq_refl eq_refl eq_refl I eq_refl).
Defined.

(** ** Padding and checksum on any buffer *)

(** X9: the padding loop, given a budget above 512, stops on every
    buffer; it appends zero bytes only, up to the smallest length that
    is a multiple of 512 and at least 512, and appends nothing to a
    buffer that it has already padded. *)
Theorem padding_reaches_next_block (rom : list Z) (fuel : nat) :
  (512 < fuel)%nat ->
  exists k : nat,
    pad_loop fuel rom = Some (rom ++ repeat 0 k) /\
    Z.of_nat (length rom + k) mod 512 = 0 /\
    (512 <= length rom + k)%nat /\
    (forall m : nat,
       (length rom <= m)%nat -> (512 <= m)%nat -> Z.of_nat m mod 512 = 0 ->
       (length rom + k <= m)%nat) /\
    pad_loop fuel (rom ++ repeat 0 k) = Some (rom ++ repeat 0 k).
Proof.
  intros Hfuel.
  set (n := Z.of_nat (length rom)).
  pose proof (pad_count_bound n ltac:(lia)) as Hb.
  pose proof (padded_length n ltac:(lia)) as [Hmod Hge].
  exists (Z.to_nat (pad_count n)).
  split; [apply pad_loop_total; exact Hfuel|].
  replace (Z.of_nat (length rom + Z.to_nat (pad_count n))) with (n + pad_count n)
    by lia.
  split; [exact Hmod|]. split; [lia|]. split.
  - intros m Hm H512 Hmm. unfold pad_count in *. subst n.
    destruct (Z.ltb_spec (Z.of_nat (length rom)) 512);
      Z.div_mod_to_equations; lia.
  - rewrite pad_loop_total by exact Hfuel.
    rewrite length_app, repeat_length.
    replace (Z.of_nat (length rom + Z.to_nat (pad_count n))) with (n + pad_count n)
      by lia.
    assert (Hz : pad_count (n + pad_count n) = 0).
    { apply pad_count_zero; [lia|].
      apply orb_false_iff. split; [apply Z.ltb_ge; lia|].
      apply negb_false_iff, Z.eqb_eq. exact Hmod. }
    rewrite Hz. cbn [Z.to_nat repeat]. now rewrite app_nil_r.
Qed.

Lemma padding_reaches_next_block_witness :
  exists k : nat,
    pad_loop 513 [0x4E; 0x71] = Some ([0x4E; 0x71] ++ repeat 0 k) /\
    Z.of_nat (length [0x4E; 0x71] + k) mod 512 = 0.
Proof.
  destruct (padding_reaches_next_block [0x4E; 0x71] 513 ltac:(lia))
    as (k & Hpad & Hmod & _).
  exists k. split; assumption.
Defined.

Lemma getitem_end (buf : list Z) :
  getitem buf (Z.of_nat (length buf)) = Raise IndexError.
Proof.
  unfold getitem, py_index.
  destruct (Z.ltb_spec (Z.of_nat (length buf)) 0); [lia|].
  destruct (Z.ltb_spec (Z.of_nat (length buf)) (Z.of_nat (length buf))); [lia|].
  now rewrite andb_false_r.
Qed.

Lemma checksum_loop_from_odd (m : nat) : forall (pre rest : list Z) (acc : Z) (a : nat),
  length pre = (512 + 2 * a)%nat ->
  length rest = (2 * m + 1)%nat ->
  for_each (map (fun k => 0x200 + 2 * Z.of_nat k) (seq a (S m)))
    (fun i checksum =>
       hi ← getitem (pre ++ rest) i;
       lo ← getitem (pre ++ rest) (i + 1);
       Ok (checksum + Z.lor (Z.shiftl hi 8) lo))
    acc
  = Raise IndexError.
Proof.
  induction m as [|m IH]; intros pre rest acc a Hpre Hrest.
  - destruct rest as [|x [|y rest]]; simpl in Hrest; try lia.
    cbn [seq map for_each].
    rewrite (getitem_app pre [] x (0x200 + 2 * Z.of_nat a)) by lia.
    cbn [mbind result_bind].
    replace (0x200 + 2 * Z.of_nat a + 1) with (Z.of_nat (length (pre ++ [x])))
      by (rewrite length_app; simpl; lia).
    now rewrite getitem_end.
  - destruct rest as [|hi [|lo rest]]; simpl in Hrest; try lia.
    cbn [seq map for_each].
    rewrite (getitem_app pre (lo :: rest) hi (0x200 + 2 * Z.of_nat a)) by lia.
    replace (pre ++ hi :: lo :: rest) with ((pre ++ [hi]) ++ lo :: rest)
      by now rewrite <- app_assoc.
    rewrite (getitem_app (pre ++ [hi]) rest lo (0x200 + 2 * Z.of_nat a + 1))
      by (rewrite length_app; simpl; lia).
    cbn [mbind result_bind].
    replace ((pre ++ [hi]) ++ lo :: rest) with ((pre ++ [hi; lo]) ++ rest)
      by now rewrite <- !app_assoc.
    apply (IH (pre ++ [hi; lo]) rest _ (S a)).
    + rewrite length_app. simpl. lia.
    + lia.
Qed.

(** X10: the checksum loop on any buffer.  Up to 512 bytes it sums
    nothing and returns 0; on a longer buffer of even length it returns
    the sum of the big-endian words from offset 512 on; on a longer
    buffer of odd length it raises [IndexError], at the byte that has
    no partner. *)
Theorem checksum_loop_by_length (rom : list Z) :
  ((length rom <= 512)%nat -> checksum_loop rom = Ok 0) /\
  ((512 < length rom)%nat -> Z.of_nat (length rom) mod 2 = 0 ->
   checksum_loop rom = Ok (word_sum (drop 512 rom))) /\
  ((512 < length rom)%nat -> Z.of_nat (length rom) mod 2 = 1 ->
   checksum_loop rom = Raise IndexError).
Proof.
  split; [|split].
  - intros Hlen. unfold checksum_loop, py_range.
    replace (Z.to_nat ((Z.of_nat (length rom) - 512 + 2 - 1) / 2)) with 0%nat
      by (Z.div_mod_to_equations; lia).
    reflexivity.
  - intros Hlen Heven. apply checksum_loop_spec; [lia | exact Heven].
  - intros Hlen Hodd. unfold checksum_loop, py_range.
    set (m := Z.to_nat ((Z.of_nat (length rom) - 512 - 1) / 2)).
    replace (Z.to_nat ((Z.of_nat (length rom) - 512 + 2 - 1) / 2)) with (S m)
      by (subst m; Z.div_mod_to_equations; lia).
    assert (Hm : length (drop 512 rom) = (2 * m + 1)%nat).
    { rewrite length_drop. subst m. Z.div_mod_to_equations. lia. }
    assert (Hp : length (take 512 rom) = (512 + 2 * 0)%nat).
    { rewrite length_take. lia. }
    pose proof (checksum_loop_from_odd m (take 512 rom) (drop 512 rom) 0 0%nat Hp Hm)
      as Hsum.
    rewrite take_drop in Hsum. exact Hsum.
Qed.

Lemma checksum_loop_by_length_witness :
  checksum_loop (repeat 0 512 ++ [0x12; 0x34; 0x56]) = Raise IndexError.
Proof.
  apply (proj2 (proj2 (checksum_loop_by_length (repeat 0 512 ++ [0x12; 0x34; 0x56]))));
    [vm_compute; lia | reflexivity].
Defined.

(** ** The image around any program *)

(** The fields of the first 512 bytes, as they are before the checksum
    is written. *)
Lemma vectors_and_header_fields (n hang : Z) :
  exists head,
    build_vectors_and_header n hang = Ok head /\
    length head = 512%nat /\
    vector_entry head 0 = Some 0x00FFFFFE /\
    vector_entry head 1 = Some 0x00000200 /\
    (forall k, 2 <= k <= 63 ->
       vector_entry head k = Some ((0x200 + hang) mod 4294967296)) /\
    py_slice head 0x100 0x110 = bytes_lit "SEGA MEGA DRIVE " /\
    py_slice head 0x18E 0x190 = [0; 0] /\
    (exists b3 b2 b1 b0,
       py_slice head 0x1A0 0x1A8 = [0; 0; 0; 0; b3; b2; b1; b0] /\
       be32 b3 b2 b1 b0 = (0x200 + n - 1) mod 4294967296) /\
    py_slice head 0x1A8 0x1B0 = [0x00; 0xFF; 0x00; 0x00; 0x00; 0xFF; 0xFF; 0xFF] /\
    py_slice head 0x1F0 0x1F3 = bytes_lit "JUE".
Proof.
  unfold build_vectors_and_header, build_header.
  rewrite !long_spec, word_spec.
  rewrite <- (be32_split (0x200 + hang)), <- (be32_split (0x200 + n - 1)).
  generalize ((0x200 + hang) / 16777216 mod 256), ((0x200 + hang) / 65536 mod 256),
    ((0x200 + hang) / 256 mod 256), ((0x200 + hang) mod 256).
  generalize ((0x200 + n - 1) / 16777216 mod 256), ((0x200 + n - 1) / 65536 mod 256),
    ((0x200 + n - 1) / 256 mod 256), ((0x200 + n - 1) mod 256).
  intros e3 e2 e1 e0 h3 h2 h1 h0.
  eexists. split; [lazy; reflexivity|].
  split; [reflexivity|]. split; [reflexivity|]. split; [reflexivity|].
  split.
  - intros k Hk.
    assert (Hj : exists j : nat, k = Z.of_nat j /\ (2 <= j <= 63)%nat)
      by (exists (Z.to_nat k); lia).
    destruct Hj as (j & -> & Hj).
    do 64 (destruct j as [|j]; [try lia; reflexivity|]). lia.
  - split; [reflexivity|]. split; [reflexivity|].
    split; [exists e3, e2, e1, e0; split; reflexivity|].
    split; reflexivity.
Qed.

(** The finished image and the unfinished first 512 bytes agree on
    every slice that avoids the checksum slot. *)
Lemma final_image_slice (head body : list Z) (a b i j : Z) :
  length head = 512%nat ->
  (0 <= i <= j /\ j <= 398) \/ (400 <= i <= j /\ j <= 512) ->
  py_slice (take 398 head ++ [a; b] ++ drop 400 head ++ body) i j
  = py_slice head i j.
Proof.
  intros Hlen Hij. unfold py_slice. cbv zeta.
  assert (Hl : length (take 398 head ++ [a; b] ++ drop 400 head ++ body)
               = (512 + length body)%nat).
  { rewrite !length_app, length_take, length_drop. cbn [length]. lia. }
  rewrite Hl, Hlen. rewrite !clip_in_range by lia.
  destruct Hij as [[Hi Hj] | [Hi Hj]].
  - rewrite !take_drop_commute. f_equal.
    rewrite take_app_le by (rewrite length_take; lia).
    rewrite take_take. f_equal. lia.
  - assert (Hp : length (take 398 head ++ [a; b]) = 400%nat)
      by (rewrite length_app, length_take; cbn [length]; lia).
    replace (take 398 head ++ [a; b] ++ drop 400 head ++ body)
      with ((take 398 head ++ [a; b]) ++ drop 400 head ++ body)
      by (now rewrite <- !app_assoc).
    rewrite drop_app_ge by lia. rewrite Hp.
    rewrite drop_app_le by (rewrite length_drop; lia).
    rewrite take_app_le by (rewrite !length_drop; lia).
    rewrite drop_drop. do 2 f_equal. lia.
Qed.

Lemma final_image_vector (head body : list Z) (a b k : Z) :
  length head = 512%nat -> 0 <= k <= 63 ->
  vector_entry (take 398 head ++ [a; b] ++ drop 400 head ++ body) k
  = vector_entry head k.
Proof.
  intros Hlen Hk. unfold vector_entry.
  rewrite final_image_slice by (try exact Hlen; lia). reflexivity.
Qed.

(** X11: [build_rom] returns an image for every program, the empty one
    and those of odd length included: 512 bytes of vectors and header,
    the program, then fewer than 512 zero bytes, to a total length that
    is a multiple of 512; the checksum slot holds the low 16 bits of
    the word sum of program and padding, and the checksum loop run on
    the finished image gives that sum again. *)
Theorem build_rom_image (fuel : nat) (program : list Z) (hang : Z) :
  (512 < fuel)%nat ->
  exists (rom : list Z) (pad : nat),
    build_rom fuel program hang = Some (Ok rom) /\
    length rom = (512 + length program + pad)%nat /\
    (pad < 512)%nat /\
    Z.of_nat (length rom) mod 512 = 0 /\
    drop 512 rom = program ++ repeat 0 pad /\
    stored_checksum rom = Some (Z.land (word_sum (program ++ repeat 0 pad)) 0xFFFF) /\
    checksum_loop rom = Ok (word_sum (program ++ repeat 0 pad)).
Proof.
  intros Hfuel.
  destruct (build_rom_props fuel program hang Hfuel)
    as (rom & pad & Hrom & Hlen & Hpad & Hmod & Hdrop & Hsum & Hloop & _).
  exists rom, pad. rewrite land_FFFF, <- Hdrop. auto 8.
Qed.

Lemma build_rom_image_witness :
  exists (rom : list Z) (pad : nat),
    build_rom 513 [] 0 = Some (Ok rom) /\
    length rom = (512 + length (@nil Z) + pad)%nat /\
    (pad < 512)%nat /\
    Z.of_nat (length rom) mod 512 = 0 /\
    drop 512 rom = [] ++ repeat 0 pad /\
    stored_checksum rom = Some (Z.land (word_sum ([] ++ repeat 0 pad)) 0xFFFF) /\
    checksum_loop rom = Ok (word_sum ([] ++ repeat 0 pad)).
Proof. apply (build_rom_image 513 [] 0). lia. Defined.

(** X12: the checksum that [build_rom] stores depends on the program
    alone: two images of the same program built around different
    vector tables hold the same checksum and the same bytes from $200
    on. *)
Theorem checksum_ignores_vectors (fuel : nat) (program : list Z) (hang1 hang2 : Z) :
  (512 < fuel)%nat ->
  exists rom1 rom2,
    build_rom fuel program hang1 = Some (Ok rom1) /\
    build_rom fuel program hang2 = Some (Ok rom2) /\
    stored_checksum rom1 = stored_checksum rom2 /\
    drop 512 rom1 = drop 512 rom2.
Proof.
  intros Hfuel.
  destruct (build_rom_props fuel program hang1 Hfuel)
    as (rom1 & pad1 & Hrom1 & Hlen1 & Hp1 & Hmod1 & Hdrop1 & Hsum1 & _).
  destruct (build_rom_props fuel program hang2 Hfuel)
    as (rom2 & pad2 & Hrom2 & Hlen2 & Hp2 & Hmod2 & Hdrop2 & Hsum2 & _).
  exists rom1, rom2. split; [exact Hrom1|]. split; [exact Hrom2|].
  assert (Hpad : pad1 = pad2).
  { rewrite Hlen1 in Hmod1. rewrite Hlen2 in Hmod2.
    clear - Hp1 Hp2 Hmod1 Hmod2. Z.div_mod_to_equations. lia. }
  subst pad2. rewrite Hsum1, Hsum2, Hdrop1, Hdrop2. auto.
Qed.

Lemma checksum_ignores_vectors_witness :
  exists rom1 rom2,
    build_rom 513 [0x60; 0xFE] 0 = Some (Ok rom1) /\
    build_rom 513 [0x60; 0xFE] 77 = Some (Ok rom2) /\
    stored_checksum rom1 = stored_checksum rom2 /\
    drop 512 rom1 = drop 512 rom2.
Proof. apply (checksum_ignores_vectors 513 [0x60; 0xFE] 0 77). lia. Defined.

(** X13: in the image of any program the vector table reads: entry 0
    the stack pointer $00FFFFFE, entry 1 the entry point $000200, and
    each entry from 2 to 63 the address [$200 + hang] kept to 32 bits,
    hence that address itself when it fits. *)
Theorem build_rom_vector_table (fuel : nat) (program : list Z) (hang : Z) :
  (512 < fuel)%nat ->
  exists rom,
    build_rom fuel program hang = Some (Ok rom) /\
    vector_entry rom 0 = Some 0x00FFFFFE /\
    vector_entry rom 1 = Some 0x00000200 /\
    (forall k, 2 <= k <= 63 ->
       vector_entry rom k = Some ((0x200 + hang) mod 4294967296)) /\
    (0 <= 0x200 + hang <= 0xFFFFFFFF ->
     forall k, 2 <= k <= 63 -> vector_entry rom k = Some (0x200 + hang)).
Proof.
  intros Hfuel.
  destruct (build_rom_spec fuel program hang Hfuel) as (head & Hhead & Hlen & Hrom).
  destruct (vectors_and_header_fields (Z.of_nat (length program)) hang)
    as (head' & Hhead' & _ & Hv0 & Hv1 & Hvk & _).
  rewrite Hhead in Hhead'. injection Hhead' as <-.
  cbv zeta in Hrom. eexists. split; [exact Hrom|].
  rewrite !final_image_vector by (try exact Hlen; lia).
  split; [exact Hv0|]. split; [exact Hv1|]. split.
  - intros k Hk. rewrite final_image_vector by (try exact Hlen; lia). now apply Hvk.
  - intros Hfit k Hk. rewrite final_image_vector by (try exact Hlen; lia).
    rewrite Hvk by exact Hk. f_equal. apply Z.mod_small. lia.
Qed.

Lemma build_rom_vector_table_witness :
  exists rom,
    build_rom 513 [0x60; 0xFE] 0 = Some (Ok rom) /\
    vector_entry rom 2 = Some (0x200 + 0).
Proof.
  destruct (build_rom_vector_table 513 [0x60; 0xFE] 0 ltac:(lia))
    as (rom & Hrom & _ & _ & _ & Hfit).
  exists rom. split; [exact Hrom|]. apply Hfit; lia.
Defined.

(** X14: in the image of any program the header names the console
    "SEGA MEGA DRIVE " and the region "JUE", gives the RAM range
    $FF0000-$FFFFFF and the ROM range from 0 to [$200 + len(program) - 1]
    kept to 32 bits.  The ROM end is thus the offset of the last byte
    of the program, which is the last byte of the image only when no
    padding was needed. *)
Theorem build_rom_header_fields (fuel : nat) (program : list Z) (hang : Z) :
  (512 < fuel)%nat ->
  exists rom b3 b2 b1 b0,
    build_rom fuel program hang = Some (Ok rom) /\
    py_slice rom 0x100 0x110 = bytes_lit "SEGA MEGA DRIVE " /\
    py_slice rom 0x1F0 0x1F3 = bytes_lit "JUE" /\
    py_slice rom 0x1A8 0x1B0 = [0x00; 0xFF; 0x00; 0x00; 0x00; 0xFF; 0xFF; 0xFF] /\
    py_slice rom 0x1A0 0x1A8 = [0; 0; 0; 0; b3; b2; b1; b0] /\
    be32 b3 b2 b1 b0 = (0x200 + Z.of_nat (length program) - 1) mod 4294967296 /\
    0x200 + Z.of_nat (length program) - 1 <= Z.of_nat (length rom) - 1 /\
    (0x200 + Z.of_nat (length program) - 1 = Z.of_nat (length rom) - 1
     <-> Z.of_nat (length program) mod 512 = 0).
Proof.
  intros Hfuel.
  destruct (build_rom_spec fuel program hang Hfuel) as (head & Hhead & Hlen & Hrom).
  destruct (vectors_and_header_fields (Z.of_nat (length program)) hang)
    as (head' & Hhead' & _ & _ & _ & _ & Hname & _ & (b3 & b2 & b1 & b0 & Hrange & Hend)
        & Hram & Hreg).
  rewrite Hhead in Hhead'. injection Hhead' as <-.
  cbv zeta in Hrom.
  set (n := Z.of_nat (512 + length program)) in *.
  pose proof (pad_count_bound n ltac:(lia)) as Hb.
  pose proof (padded_length n ltac:(lia)) as [Hmod Hge].
  assert (Hpc : pad_count n = 0 <-> Z.of_nat (length program) mod 512 = 0).
  { unfold pad_count. subst n.
    destruct (Z.ltb_spec (Z.of_nat (512 + length program)) 512); [lia|].
    clear. Z.div_mod_to_equations. lia. }
  eexists _, b3, b2, b1, b0. split; [exact Hrom|].
  rewrite !final_image_slice by (try exact Hlen; lia).
  split; [exact Hname|]. split; [exact Hreg|]. split; [exact Hram|].
  split; [exact Hrange|]. split; [exact Hend|].
  rewrite !length_app, length_take, length_drop, repeat_length, Hlen.
  cbn [length].
  split; [lia|]. rewrite <- Hpc. lia.
Qed.

Lemma build_rom_header_fields_witness :
  exists rom b3 b2 b1 b0,
    build_rom 513 [0x60; 0xFE] 0 = Some (Ok rom) /\
    py_slice rom 0x1A0 0x1A8 = [0; 0; 0; 0; b3; b2; b1; b0] /\
    be32 b3 b2 b1 b0 = 0x201.
Proof.
  destruct (build_rom_header_fields 513 [0x60; 0xFE] 0 ltac:(lia))
    as (rom & b3 & b2 & b1 & b0 & Hrom & _ & _ & _ & Hr & He & _).
  exists rom, b3, b2, b1, b0. split; [exact Hrom|]. split; [exact Hr|]. exact He.
Defined.

(** ** Hexadecimal text *)

Lemma list_ascii_app (s t : string) :
  String.list_ascii_of_string (s +:+ t)
  = String.list_ascii_of_string s ++ String.list_ascii_of_string t.
Proof.
  induction s as [|c s IH]; [reflexivity|].
  change (String c s +:+ t) with (String c (s +:+ t)). cbn. f_equal. exact IH.
Qed.

Lemma list_ascii_of_list (l : list ascii) :
  String.list_ascii_of_string (String.string_of_list_ascii l) = l.
Proof. induction l as [|c l IH]; cbn; [reflexivity | now rewrite IH]. Qed.

Lemma string_length_list (s : string) :
  String.length s = length (String.list_ascii_of_string s).
Proof. induction s as [|c s IH]; cbn; [reflexivity | now rewrite IH]. Qed.

Lemma hex_digit_value (d : Z) : 0 <= d < 16 -> hex_value (hex_digit d) = d.
Proof.
  intros Hd.
  assert (Hn : exists k : nat, d = Z.of_nat k /\ (k < 16)%nat)
    by (exists (Z.to_nat d); lia).
  destruct Hn as (k & -> & Hk).
  do 16 (destruct k as [|k]; [reflexivity|]). lia.
Qed.

Lemma hex_digit_class (d : Z) :
  0 <= d < 16 ->
  is_hex (hex_digit d) = true /\ in_range "a" "f" (hex_digit d) = false.
Proof.
  intros Hd.
  assert (Hn : exists k : nat, d = Z.of_nat k /\ (k < 16)%nat)
    by (exists (Z.to_nat d); lia).
  destruct Hn as (k & -> & Hk).
  do 16 (destruct k as [|k]; [split; reflexivity|]). lia.
Qed.

Lemma value_of_app (l k : list ascii) (acc : Z) :
  value_of (l ++ k) acc = value_of k (value_of l acc).
Proof. unfold value_of. now rewrite fold_left_app. Qed.

Lemma value_of_snoc (l : list ascii) (c : ascii) (acc : Z) :
  value_of (l ++ [c]) acc = 16 * value_of l acc + hex_value c.
Proof. unfold value_of. now rewrite fold_left_app. Qed.

Lemma value_of_zeros (k : nat) : value_of (repeat "0"%char k) 0 = 0.
Proof. induction k as [|k IH]; [reflexivity | exact IH]. Qed.

Lemma hex_digits_S (fuel : nat) (n : Z) :
  hex_digits (S fuel) n
  = if n <? 16 then String (hex_digit n) EmptyString
    else hex_digits fuel (n / 16) +:+ String (hex_digit (n mod 16)) EmptyString.
Proof. reflexivity. Qed.

Lemma hex_digits_spec (fuel : nat) : forall n : Z,
  0 <= n < 16 ^ Z.of_nat (S fuel) ->
  let l := String.list_ascii_of_string (hex_digits (S fuel) n) in
  value_of l 0 = n /\
  (1 <= length l <= S fuel)%nat /\
  Forall (fun c => is_hex c = true /\ in_range "a" "f" c = false) l /\
  (forall k : nat, n < 16 ^ Z.of_nat k -> (0 < k)%nat -> (length l <= k)%nat).
Proof.
  induction fuel as [|fuel IH]; intros n Hn;
    rewrite hex_digits_S; destruct (Z.ltb_spec n 16) as [Hlt | Hge];
    try (change (16 ^ Z.of_nat 1) with 16 in Hn; lia).
  1, 2: cbv zeta; cbn [String.list_ascii_of_string]; unfold value_of;
    cbn [fold_left length]; rewrite hex_digit_value by lia;
    (split; [lia|]); (split; [lia|]);
    (split; [constructor; [apply hex_digit_class; lia | constructor]|]);
    intros k _ Hk; lia.
  assert (Hq : 0 <= n / 16 < 16 ^ Z.of_nat (S fuel)).
  { split; [apply Z.div_pos; lia|].
    apply Z.div_lt_upper_bound; [lia|].
    replace (Z.of_nat (S (S fuel))) with (Z.of_nat (S fuel) + 1) in Hn by lia.
    rewrite Z.pow_add_r in Hn by lia. lia. }
  destruct (IH (n / 16) Hq) as (Hv & Hl & Hc & Hk). cbv zeta.
  rewrite list_ascii_app. cbn [String.list_ascii_of_string].
  rewrite value_of_snoc.
  rewrite Hv. rewrite hex_digit_value by (apply Z.mod_pos_bound; lia).
  rewrite length_app. cbn [length].
  split; [Z.div_mod_to_equations; lia|]. split; [lia|].
  split.
  - apply Forall_app. split; [exact Hc|].
    constructor; [apply hex_digit_class; apply Z.mod_pos_bound; lia | constructor].
  - intros k Hnk Hkpos. destruct k as [|[|k]]; [lia| |].
    + change (16 ^ Z.of_nat 1) with 16 in Hnk. lia.
    + assert (length (String.list_ascii_of_string (hex_digits (S fuel) (n / 16)))
              <= S k)%nat; [|lia].
      apply Hk; [|lia]. apply Z.div_lt_upper_bound; [lia|].
      replace (Z.of_nat (S (S k))) with (Z.of_nat (S k) + 1) in Hnk by lia.
      rewrite Z.pow_add_r in Hnk by lia. lia.
Qed.

Lemma log2_fuel (n : Z) : 0 <= n -> n < 16 ^ Z.of_nat (S (Z.to_nat (Z.log2 n))).
Proof.
  intros Hn. destruct (Z.eq_dec n 0) as [-> | Hne]; [reflexivity|].
  pose proof (Z.log2_spec n ltac:(lia)) as [_ Hup].
  pose proof (Z.log2_nonneg n).
  replace (Z.of_nat (S (Z.to_nat (Z.log2 n)))) with (Z.succ (Z.log2 n)) by lia.
  eapply Z.lt_le_trans; [exact Hup|].
  apply Z.pow_le_mono_l. lia.
Qed.

Lemma hex_text_facts (width : nat) (n : Z) :
  0 <= n ->
  int16 (format_0X width n) = n /\
  (width <= String.length (format_0X width n))%nat /\
  ((0 < width)%nat -> n < 16 ^ Z.of_nat width ->
   String.length (format_0X width n) = width) /\
  Forall (fun c => is_hex c = true /\ in_range "a" "f" c = false)
         (String.list_ascii_of_string (format_0X width n)).
Proof.
  intros Hn. unfold format_0X.
  destruct (Z.ltb_spec n 0) as [Hneg | _]; [lia|].
  rewrite Z.abs_eq by exact Hn. cbv zeta.
  destruct (hex_digits_spec (Z.to_nat (Z.log2 n)) n (conj Hn (log2_fuel n Hn)))
    as (Hv & Hl & Hc & Hk).
  fold (hex_upper n) in *.
  set (digits := hex_upper n) in *.
  unfold int16. rewrite !string_length_list, !list_ascii_app, !list_ascii_of_list.
  rewrite !length_app, repeat_length.
  rewrite value_of_app, value_of_zeros.
  split; [exact Hv|]. split; [lia|]. split.
  - intros Hpos Hw. specialize (Hk width Hw Hpos). lia.
  - apply Forall_app. split; [|exact Hc].
    apply Forall_forall. intros c Hin. apply list_elem_of_In, repeat_spec in Hin. subst c.
    split; reflexivity.
Qed.

Lemma hex_text_value (width : nat) (n : Z) :
  0 <= n -> int16 (format_0X width n) = n.
Proof. intros Hn. now destruct (hex_text_facts width n Hn). Qed.

Lemma hex_text_length (width : nat) (n : Z) :
  0 <= n -> (0 < width)%nat -> n < 16 ^ Z.of_nat width ->
  String.length (format_0X width n) = width.
Proof. intros Hn Hw Hlt. destruct (hex_text_facts width n Hn) as (_ & _ & H & _). auto. Qed.

(** X15: for every integer [n >= 0] and every width, [format(n, '0wX')]
    is at least [width] characters long, exactly [width] when
    [width > 0] and [n < 16^width], made of digits and upper-case letters A to F only,
    and [int(..., 16)] of it is [n] again.  So a byte is written with
    two hexadecimal digits and an address of the work RAM with six. *)
Theorem hex_text_reads_back (width : nat) (n : Z) :
  0 <= n ->
  let text := format_0X width n in
  int16 text = n /\
  (width <= String.length text)%nat /\
  ((0 < width)%nat -> n < 16 ^ Z.of_nat width -> String.length text = width) /\
  Forall (fun c => is_hex c = true /\ in_range "a" "f" c = false)
         (String.list_ascii_of_string text).
Proof.
  intros Hn text. subst text. now apply hex_text_facts.
Qed.

Lemma hex_text_reads_back_witness :
  int16 (format_0X 6 0xFF0500) = 0xFF0500 /\
  String.length (format_0X 6 0xFF0500) = 6%nat.
Proof.
  destruct (hex_text_reads_back 6 0xFF0500 ltac:(lia)) as (Hv & _ & Hl & _).
  split; [exact Hv|]. apply Hl; [lia | reflexivity].
Defined.

(** ** The rows of the byte table *)

Lemma py_slice_window {A : Type} (l : list A) (lo w : nat) :
  (lo <= length l)%nat ->
  py_slice l (Z.of_nat lo) (Z.of_nat lo + Z.of_nat w) = take w (drop lo l).
Proof.
  intros Hlo. unfold py_slice, clip.
  destruct (Z.ltb_spec (Z.of_nat lo) 0); [lia|].
  destruct (Z.ltb_spec (Z.of_nat lo + Z.of_nat w) 0); [lia|].
  replace (Z.to_nat (Z.max 0 (Z.min (Z.of_nat lo) (Z.of_nat (length l))))) with lo
    by lia.
  destruct (Nat.le_gt_cases (lo + w) (length l)) as [Hin | Hout].
  - f_equal. lia.
  - replace (Z.to_nat (Z.max 0 (Z.min (Z.of_nat lo + Z.of_nat w)
                                      (Z.of_nat (length l)))))
      with (length l) by lia.
    rewrite !take_ge by (rewrite length_drop; lia). reflexivity.
Qed.

Lemma rom_rows_windows (rom_data : list Z) :
  rom_rows rom_data
  = map (fun k : nat => take 16 (drop (16 * k) rom_data))
        (seq 0 (Z.to_nat ((Z.of_nat (length rom_data) + 15) / 16))).
Proof.
  unfold rom_rows, py_range. rewrite map_map.
  replace (Z.of_nat (length rom_data) - 0 + 16 - 1)
    with (Z.of_nat (length rom_data) + 15) by lia.
  apply map_ext_in. intros k Hk. apply in_seq in Hk.
  replace (0 + 16 * Z.of_nat k) with (Z.of_nat (16 * k)) by lia.
  change (Z.of_nat (16 * k) + 16) with (Z.of_nat (16 * k) + Z.of_nat 16).
  apply py_slice_window.
  destruct Hk as [_ Hk]. Z.div_mod_to_equations. lia.
Qed.

Lemma windows_concat (m : nat) : forall l : list Z,
  (length l <= 16 * m)%nat ->
  concat (map (fun k : nat => take 16 (drop (16 * k) l)) (seq 0 m)) = l.
Proof.
  induction m as [|m IH]; intros l Hl.
  - destruct l; [reflexivity | cbn in Hl; lia].
  - cbn [seq map concat]. rewrite <- seq_shift, map_map.
    transitivity (take 16 l ++ drop 16 l); [|apply take_drop].
    f_equal.
    etransitivity; [|apply (IH (drop 16 l)); rewrite length_drop; lia].
    f_equal. apply map_ext. intros k. rewrite drop_drop. do 2 f_equal. lia.
Qed.

(** X16: the rows in which [generate_cpp_header] writes the image are
    consecutive pieces of it: joined in order they give the image back,
    byte for byte; every row holds between 1 and 16 bytes and every row
    but the last holds 16; an empty image has no row. *)
Theorem rom_rows_partition (rom_data : list Z) :
  concat (rom_rows rom_data) = rom_data /\
  length (rom_rows rom_data) = Z.to_nat ((Z.of_nat (length rom_data) + 15) / 16) /\
  Forall (fun row => (1 <= length row <= 16)%nat) (rom_rows rom_data) /\
  (forall (i : nat) row,
     rom_rows rom_data !! i = Some row ->
     (S i < length (rom_rows rom_data))%nat -> length row = 16%nat).
Proof.
  rewrite rom_rows_windows.
  set (m := Z.to_nat ((Z.of_nat (length rom_data) + 15) / 16)).
  assert (Hm : (length rom_data <= 16 * m)%nat /\
               (16 * m < length rom_data + 16)%nat)
    by (subst m; Z.div_mod_to_equations; lia).
  split; [apply windows_concat; lia|].
  split; [now rewrite length_map, length_seq|].
  split.
  - apply Forall_forall. intros row Hrow.
    apply list_elem_of_In, in_map_iff in Hrow as (k & <- & Hk).
    apply in_seq in Hk. rewrite length_take, length_drop. lia.
  - intros i row Hi Hlast. rewrite length_map, length_seq in Hlast.
    rewrite list_lookup_fmap in Hi.
    destruct (seq 0 m !! i) as [k|] eqn:Hk; [|discriminate].
    injection Hi as <-.
    apply lookup_seq in Hk as [-> _].
    rewrite length_take, length_drop. lia.
Qed.

Lemma rom_rows_partition_witness :
  length (take 16 (repeat 0 20)) = 16%nat.
Proof.
  apply (proj2 (proj2 (proj2 (rom_rows_partition (repeat 0 20)))) 0%nat);
    [reflexivity | vm_compute; lia].
Defined.

(** ** Character classes *)

Ltac by_cases_on_char c :=
  destruct c as [[] [] [] [] [] [] [] []]; vm_compute; congruence.

Lemma hex_not_space (c : ascii) : is_hex c = true -> is_space c = false.
Proof. by_cases_on_char c. Qed.

Lemma letter_not_space (c : ascii) : is_letter c = true -> is_space c = false.
Proof. by_cases_on_char c. Qed.

Lemma letter_is_ident (c : ascii) : is_letter c = true -> is_ident_char c = true.
Proof. by_cases_on_char c. Qed.

Lemma ident_digit (c : ascii) :
  is_ident_char c = true -> is_digit c = in_range "0" "9" c.
Proof. by_cases_on_char c. Qed.

Lemma ident_not_digit_letter (c : ascii) :
  is_ident_char c = true -> is_digit c = false ->
  is_letter c = true \/ c = "_"%char.
Proof.
  destruct c as [[] [] [] [] [] [] [] []]; vm_compute; intros; try congruence; auto.
Qed.

Lemma hex_value_range (c : ascii) : 0 <= hex_value c < 16.
Proof. destruct c as [[] [] [] [] [] [] [] []]; vm_compute; split; congruence. Qed.

(** ** Spans *)

Lemma app_cons (c : ascii) (s t : string) : String c s +:+ t = String c (s +:+ t).
Proof. reflexivity. Qed.

Lemma app_empty_r (s : string) : s +:+ EmptyString = s.
Proof. induction s as [|c s IH]; [reflexivity|]. now rewrite app_cons, IH. Qed.

Lemma app_assoc_s (a b c : string) : (a +:+ b) +:+ c = a +:+ (b +:+ c).
Proof. induction a as [|x a IH]; [reflexivity|]. now rewrite !app_cons, IH. Qed.

Lemma all_chars_cons (p : ascii -> bool) (c : ascii) (s : string) :
  all_chars p (String c s) <-> p c = true /\ all_chars p s.
Proof. unfold all_chars. cbn. apply Forall_cons_iff. Qed.

(** The first part of a span is in the class. *)
Lemma span_all (p : ascii -> bool) (s : string) : all_chars p (span p s).1.
Proof.
  induction s as [|c s IH]; [constructor|].
  cbn [span]. destruct (p c) eqn:Hc; [|constructor].
  destruct (span p s) as [a b]. cbn [fst] in *.
  apply all_chars_cons. auto.
Qed.

Lemma span_exact (p : ascii -> bool) (a b : string) :
  all_chars p a -> stops p b -> span p (a +:+ b) = (a, b).
Proof.
  intros Ha Hb. induction a as [|c a IH].
  - change (EmptyString +:+ b) with b.
    destruct b as [|c b]; [reflexivity|]. cbn [stops] in Hb. cbn [span].
    now rewrite Hb.
  - apply all_chars_cons in Ha as [Hc Ha]. rewrite app_cons. cbn [span].
    rewrite Hc, (IH Ha). reflexivity.
Qed.

(** ** Stripping *)

Lemma rstrip_app (a b : string) :
  rstrip (a +:+ b)
  = match rstrip b with
    | EmptyString => rstrip a
    | String c r => a +:+ String c r
    end.
Proof.
  induction a as [|x a IH].
  - change (EmptyString +:+ b) with b. destruct (rstrip b); reflexivity.
  - rewrite app_cons. cbn [rstrip]. rewrite IH.
    destruct (rstrip b) as [|c r]; [reflexivity|].
    rewrite app_cons. destruct a; reflexivity.
Qed.

Lemma rstrip_spaces (w : string) : all_chars is_space w -> rstrip w = EmptyString.
Proof.
  induction w as [|c w IH]; intros Hw; [reflexivity|].
  apply all_chars_cons in Hw as [Hc Hw]. cbn [rstrip].
  now rewrite (IH Hw), Hc.
Qed.

Lemma rstrip_last (a : string) (c : ascii) :
  is_space c = false -> rstrip (a +:+ String c EmptyString) = a +:+ String c EmptyString.
Proof.
  intros Hc. rewrite rstrip_app. cbn [rstrip]. now rewrite Hc.
Qed.

(** What [rstrip] leaves of a text that is empty or begins with a
    blank is again empty or begins with that blank. *)
Lemma rstrip_stops (b : string) :
  stops (fun c => negb (is_space c)) b ->
  stops (fun c => negb (is_space c)) (rstrip b).
Proof.
  destruct b as [|c b]; [auto|]. cbn [stops rstrip]. intros Hc.
  destruct (rstrip b); [|exact Hc].
  apply negb_false_iff in Hc. now rewrite Hc.
Qed.

Lemma nonempty_last (s : string) :
  s <> EmptyString -> exists a c, s = a +:+ String c EmptyString.
Proof.
  induction s as [|x s IH]; intros Hs; [congruence|].
  destruct s as [|y s].
  - exists EmptyString, x. reflexivity.
  - destruct IH as (a & c & Ha); [discriminate|].
    exists (String x a), c. rewrite app_cons. now rewrite <- Ha.
Qed.

Lemma all_chars_app (p : ascii -> bool) (a b : string) :
  all_chars p (a +:+ b) <-> all_chars p a /\ all_chars p b.
Proof. unfold all_chars. rewrite list_ascii_app. apply Forall_app. Qed.

Lemma lstrip_exact (lead s : string) :
  all_chars is_space lead -> stops is_space s -> lstrip (lead +:+ s) = s.
Proof. intros Hl Hs. unfold lstrip. now rewrite span_exact. Qed.

(** ** The line pattern *)

Lemma match_nm_groups (line addr_hex nm : string) (t : ascii) :
  match_nm line = Some (addr_hex, t, nm) ->
  addr_hex <> EmptyString /\ all_chars is_hex addr_hex /\
  is_letter t = true /\
  nm <> EmptyString /\ all_chars (fun c => negb (is_space c)) nm.
Proof.
  unfold match_nm.
  pose proof (span_all is_hex line) as Hh.
  destruct (span is_hex line) as [h r1].
  destruct (span is_space r1) as [ws1 r2].
  destruct h as [|h0 h]; [discriminate|].
  destruct ws1 as [|w0 ws1]; [discriminate|].
  destruct r2 as [|t' r3]; [discriminate|].
  destruct (is_letter t') eqn:Ht; [|discriminate].
  destruct (span is_space r3) as [ws2 r4].
  pose proof (span_all (fun c => negb (is_space c)) r4) as Hn.
  destruct (span (fun c => negb (is_space c)) r4) as [n r5].
  destruct ws2 as [|w2 ws2]; [discriminate|].
  destruct n as [|n0 n]; [discriminate|].
  intros H. injection H as <- <- <-. cbn [fst] in *.
  repeat split; try assumption; discriminate.
Qed.

Lemma match_nm_exact (h sp1 sp2 nm rest : string) (t : ascii) :
  h <> EmptyString -> all_chars is_hex h ->
  sp1 <> EmptyString -> all_chars is_space sp1 ->
  is_letter t = true ->
  sp2 <> EmptyString -> all_chars is_space sp2 ->
  nm <> EmptyString -> all_chars (fun c => negb (is_space c)) nm ->
  stops (fun c => negb (is_space c)) rest ->
  match_nm (h +:+ sp1 +:+ String t (sp2 +:+ nm +:+ rest)) = Some (h, t, nm).
Proof.
  intros Hh0 Hh Hs10 Hs1 Ht Hs20 Hs2 Hn0 Hn Hrest. unfold match_nm.
  rewrite (span_exact is_hex h).
  - rewrite (span_exact is_space sp1).
    + destruct h as [|h0 h]; [congruence|].
      destruct sp1 as [|w0 sp1]; [congruence|].
      rewrite Ht. rewrite (span_exact is_space sp2).
      * rewrite (span_exact (fun c => negb (is_space c)) nm) by assumption.
        destruct sp2; [congruence|]. destruct nm; [congruence|]. reflexivity.
      * exact Hs2.
      * destruct nm as [|n0 nm]; [congruence|]. rewrite app_cons. cbn [stops].
        apply all_chars_cons in Hn as [Hn _]. now apply negb_true_iff in Hn.
    + exact Hs1.
    + cbn [stops]. now apply letter_not_space.
  - exact Hh.
  - destruct sp1 as [|w0 sp1]; [congruence|]. rewrite app_cons. cbn [stops].
    apply all_chars_cons in Hs1 as [Hw _].
    destruct (is_hex w0) eqn:E; [|reflexivity].
    apply hex_not_space in E. congruence.
Qed.

Lemma value_of_nonneg (l : list ascii) (acc : Z) : 0 <= acc -> 0 <= value_of l acc.
Proof.
  revert acc. induction l as [|c l IH]; intros acc Hacc; [exact Hacc|].
  apply IH. pose proof (hex_value_range c). lia.
Qed.

Lemma parse_cons (line : string) (rest : list string) :
  parse_nm_output (line :: rest)
  = match strip line with
    | EmptyString => []
    | String c r =>
        match match_nm (String c r) with
        | Some (addr_hex, t, nm) => [Symbol (int16 addr_hex) t nm]
        | None => []
        end
    end ++ parse_nm_output rest.
Proof.
  cbn [parse_nm_output]. destruct (strip line) as [|c r]; [reflexivity|].
  destruct (match_nm (String c r)) as [[[h t] nm]|]; reflexivity.
Qed.

Lemma parse_cons_nonblank (line : string) (rest : list string) :
  strip line <> EmptyString ->
  parse_nm_output (line :: rest)
  = match match_nm (strip line) with
    | Some (addr_hex, t, nm) => [Symbol (int16 addr_hex) t nm]
    | None => []
    end ++ parse_nm_output rest.
Proof.
  intros Hne. rewrite parse_cons. destruct (strip line); [congruence | reflexivity].
Qed.

(** X17: a line that reads, after any blanks, hexadecimal digits,
    blanks, one letter, blanks and a name yields exactly one symbol:
    the value of the digits, the letter and the name.  What follows the
    name after a blank, and the end of line, are ignored. *)
Theorem parse_symbol_line (lead h sp1 sp2 nm rest : string) (t : ascii) :
  all_chars is_space lead ->
  h <> EmptyString -> all_chars is_hex h ->
  sp1 <> EmptyString -> all_chars is_space sp1 ->
  is_letter t = true ->
  sp2 <> EmptyString -> all_chars is_space sp2 ->
  nm <> EmptyString -> all_chars (fun c => negb (is_space c)) nm ->
  stops (fun c => negb (is_space c)) rest ->
  parse_nm_output [lead +:+ h +:+ sp1 +:+ String t (sp2 +:+ nm +:+ rest)]
  = [Symbol (int16 h) t nm].
Proof.
  intros Hlead Hh0 Hh Hs10 Hs1 Ht Hs20 Hs2 Hn0 Hn Hrest.
  destruct h as [|h0 h'] eqn:Eh; [congruence|]. rewrite <- Eh in *.
  assert (Hh0s : is_space h0 = false).
  { apply hex_not_space. rewrite Eh in Hh. now apply all_chars_cons in Hh as [? _]. }
  destruct (nonempty_last nm Hn0) as (nm' & c & Hnm).
  assert (Hc : is_space c = false).
  { rewrite Hnm in Hn. apply all_chars_app in Hn as [_ Hn].
    apply all_chars_cons in Hn as [Hn _]. now apply negb_true_iff in Hn. }
  assert (Hstrip :
    strip (lead +:+ h +:+ sp1 +:+ String t (sp2 +:+ nm +:+ rest))
    = h +:+ sp1 +:+ String t (sp2 +:+ nm +:+ rstrip rest)).
  { unfold strip.
    rewrite lstrip_exact; [|exact Hlead|rewrite Eh, app_cons; exact Hh0s].
    replace (h +:+ sp1 +:+ String t (sp2 +:+ nm +:+ rest))
      with ((h +:+ sp1 +:+ String t (sp2 +:+ nm)) +:+ rest)
      by (rewrite !app_assoc_s, app_cons, !app_assoc_s; reflexivity).
    rewrite rstrip_app. destruct (rstrip rest) as [|r0 r] eqn:Er.
    - rewrite app_empty_r. rewrite Hnm.
      replace (h +:+ sp1 +:+ String t (sp2 +:+ nm' +:+ String c EmptyString))
        with ((h +:+ sp1 +:+ String t (sp2 +:+ nm')) +:+ String c EmptyString)
        by (rewrite !app_assoc_s, app_cons, !app_assoc_s; reflexivity).
      now apply rstrip_last.
    - rewrite !app_assoc_s, app_cons, !app_assoc_s. reflexivity. }
  rewrite parse_cons_nonblank; rewrite Hstrip.
  - rewrite match_nm_exact; try assumption; [reflexivity | now apply rstrip_stops].
  - rewrite Eh, app_cons. discriminate.
Qed.

Lemma parse_symbol_line_witness :
  parse_nm_output [EmptyString +:+ "00ff0000" +:+ " " +:+ String "D" (" " +:+ "game_score" +:+ newline)]
  = [Symbol (int16 "00ff0000") "D" "game_score"].
Proof.
  apply (parse_symbol_line EmptyString "00ff0000" " " " " "game_score" newline "D");
    try discriminate; try reflexivity;
    unfold all_chars; cbn [String.list_ascii_of_string]; repeat constructor.
Defined.

Lemma parsed_symbols_nonneg (lines : list string) :
  Forall (fun sym => 0 <= address sym) (parse_nm_output lines).
Proof.
  induction lines as [|line rest IH]; [constructor|].
  rewrite parse_cons. apply Forall_app. split; [|exact IH].
  destruct (strip line) as [|c r]; [constructor|].
  destruct (match_nm (String c r)) as [[[h t] nm]|]; [|constructor].
  constructor; [|constructor]. cbn [address]. apply value_of_nonneg. lia.
Qed.

(** X18: every symbol that [parse_nm_output] returns has an address
    that is not negative, a type that is one letter, and a name that is
    not empty and holds no blank. *)
Theorem parsed_symbols_well_formed (lines : list string) :
  Forall (fun sym =>
            0 <= address sym /\
            is_letter (sym_type sym) = true /\
            name sym <> EmptyString /\
            all_chars (fun c => negb (is_space c)) (name sym))
         (parse_nm_output lines).
Proof.
  induction lines as [|line rest IH]; [constructor|].
  rewrite parse_cons. apply Forall_app. split; [|exact IH].
  destruct (strip line) as [|c r]; [constructor|].
  destruct (match_nm (String c r)) as [[[h t] nm]|] eqn:Hm; [|constructor].
  apply match_nm_groups in Hm as (_ & _ & Ht & Hn0 & Hn).
  constructor; [|constructor]. cbn [address sym_type name].
  split; [apply value_of_nonneg; lia|]. auto.
Qed.

(** X19: [parse_nm_output] works line by line: the symbols of two lists
    of lines read in a row are those of the first followed by those of
    the second; no line yields more than one symbol; lines that are
    blank yield none. *)
Theorem parse_line_by_line (lines more : list string) :
  parse_nm_output (lines ++ more) = parse_nm_output lines ++ parse_nm_output more /\
  (length (parse_nm_output lines) <= length lines)%nat /\
  (Forall (fun line => strip line = EmptyString) lines -> parse_nm_output lines = []).
Proof.
  split; [|split].
  - induction lines as [|line rest IH]; [reflexivity|].
    rewrite <- app_comm_cons, !parse_cons, IH. now rewrite app_assoc.
  - induction lines as [|line rest IH]; [reflexivity|].
    rewrite parse_cons, length_app. cbn [length].
    destruct (strip line) as [|c r]; [cbn; lia|].
    destruct (match_nm (String c r)) as [[[h t] nm]|]; cbn; lia.
  - induction lines as [|line rest IH]; intros Hall; [reflexivity|].
    apply Forall_cons in Hall as [Hline Hrest].
    rewrite parse_cons, Hline. now apply IH.
Qed.

Lemma parse_line_by_line_witness :
  parse_nm_output [EmptyString; "   "; newline]%string = [].
Proof.
  apply (proj2 (proj2 (parse_line_by_line [EmptyString; "   "; newline]%string []))).
  repeat constructor.
Defined.

(** ** Linker symbols *)

(** X20: a name counts as a linker symbol exactly when it begins with
    two underscores or is one of [_etext], [_edata], [_end]; the ten
    other names of [LINKER_SYMBOLS] add nothing to the test. *)
Theorem linker_symbol_test (name : string) :
  is_linker_symbol name = true
  <-> startswith "__" name = true
      \/ name = "_etext" \/ name = "_edata" \/ name = "_end".
Proof.
  unfold is_linker_symbol. rewrite orb_true_iff, bool_decide_eq_true.
  unfold LINKER_SYMBOLS. rewrite elem_of_list_to_set.
  split.
  - intros [Hin | Hpre]; [|auto].
    repeat (apply elem_of_cons in Hin as [-> | Hin]; [auto 6|]).
    apply elem_of_nil in Hin. contradiction.
  - intros [Hpre | Hname]; [auto|]. left.
    destruct Hname as [-> | [-> | ->]];
      repeat (first [apply list_elem_of_here | apply list_elem_of_further]).
Qed.

Lemma linker_symbol_test_witness : is_linker_symbol "__stack" = true.
Proof. apply (proj2 (linker_symbol_test "__stack")). left. reflexivity. Defined.

(** ** Clean names *)

Lemma prefix_empty (s : string) : String.prefix EmptyString s = true.
Proof. destruct s; reflexivity. Qed.

Lemma prefix_cons (a b : ascii) (p s : string) :
  String.prefix (String a p) (String b s)
  = if Ascii.eqb a b then String.prefix p s else false.
Proof.
  cbn [String.prefix]. destruct (ascii_dec a b) as [-> | Hne].
  - now rewrite Ascii.eqb_refl.
  - apply Ascii.eqb_neq in Hne. now rewrite Hne.
Qed.

Lemma startswith_underscore (s : string) :
  startswith "_" s = true <-> exists r, s = String "_" r.
Proof.
  unfold startswith. destruct s as [|c r].
  - split; [discriminate | intros (r & Hr); discriminate].
  - rewrite prefix_cons, prefix_empty.
    destruct (Ascii.eqb_spec "_" c) as [<- | Hne].
    + split; [eauto | reflexivity].
    + split; [discriminate | intros (r' & Hr); congruence].
Qed.

Lemma startswith_two (s : string) :
  startswith "__" s = true <-> exists r, s = String "_" (String "_" r).
Proof.
  unfold startswith. destruct s as [|c [|d r]].
  - split; [discriminate | intros (r & Hr); discriminate].
  - rewrite prefix_cons. cbn [String.prefix].
    split; [destruct (Ascii.eqb "_" c); discriminate
           | intros (r & Hr); discriminate].
  - rewrite !prefix_cons, prefix_empty.
    destruct (Ascii.eqb_spec "_" c) as [<- | Hne];
      [destruct (Ascii.eqb_spec "_" d) as [<- | Hne]|].
    + split; [eauto | reflexivity].
    + split; [discriminate | intros (r' & Hr); congruence].
    + split; [discriminate | intros (r' & Hr); congruence].
Qed.

Lemma sub_non_ident_all (s : string) : all_chars is_ident_char (sub_non_ident s).
Proof.
  induction s as [|c s IH]; [constructor|].
  cbn [sub_non_ident]. apply all_chars_cons. split; [|exact IH].
  destruct (is_ident_char c) eqn:Hc; [exact Hc | reflexivity].
Qed.

Lemma sub_non_ident_id (s : string) :
  all_chars is_ident_char s -> sub_non_ident s = s.
Proof.
  induction s as [|c s IH]; intros Hs; [reflexivity|].
  apply all_chars_cons in Hs as [Hc Hs]. cbn [sub_non_ident].
  now rewrite Hc, (IH Hs).
Qed.

(** What [sanitize_name] does, by the shape of the name: one leading
    underscore is dropped, whether or not a second follows. *)
Lemma sanitize_name_shape (name : string) :
  sanitize_name name
  = let body := sub_non_ident (if startswith "_" name then tail1 name else name) in
    match body with
    | String c _ => if is_digit c then String "_" body else body
    | EmptyString => body
    end.
Proof.
  unfold sanitize_name.
  destruct (startswith "_" name) eqn:H1, (startswith "__" name) eqn:H2;
    cbn [andb negb]; try reflexivity.
  apply startswith_two in H2 as (r & ->). discriminate.
Qed.

Lemma sanitized_name_chars (sym : symbol) :
  all_chars is_ident_char (clean_name_of sym).
Proof.
  unfold clean_name_of. rewrite sanitize_name_shape. cbv zeta.
  set (m := if startswith "_" (name sym) then tail1 (name sym) else name sym).
  pose proof (sub_non_ident_all m) as Hall.
  destruct (sub_non_ident m) as [|c r]; [constructor|].
  destruct (is_digit c); [|exact Hall].
  apply all_chars_cons. split; [reflexivity | exact Hall].
Qed.

(** X21: the name that [sanitize_name] returns is empty or a C
    identifier: its characters are letters, digits and underscores, and
    the first is no digit.  It is empty exactly for the names the empty name and
    ["_"]. *)
Theorem sanitized_name_is_identifier (name : string) :
  all_chars is_ident_char (sanitize_name name) /\
  match sanitize_name name with
  | EmptyString => True
  | String c _ => is_letter c = true \/ c = "_"%char
  end /\
  (sanitize_name name = EmptyString <-> name = EmptyString \/ name = "_").
Proof.
  rewrite sanitize_name_shape. cbv zeta.
  set (m := if startswith "_" name then tail1 name else name).
  pose proof (sub_non_ident_all m) as Hall.
  assert (Hm : sub_non_ident m = EmptyString <-> name = EmptyString \/ name = "_").
  { assert (Hs : sub_non_ident m = EmptyString <-> m = EmptyString) by (destruct m; cbn [sub_non_ident]; split; congruence).
    rewrite Hs. subst m. destruct (startswith "_" name) eqn:H1.
    - apply startswith_underscore in H1 as (r & ->). cbn [tail1].
      split; [intros ->; auto | intros [H | H]; congruence].
    - split; [auto | intros [H | ->]; [exact H | discriminate]]. }
  destruct (sub_non_ident m) as [|c r] eqn:Hb.
  - split; [constructor|]. split; [exact I | exact Hm].
  - apply all_chars_cons in Hall as [Hc Hr].
    destruct (is_digit c) eqn:Hd.
    + split; [apply all_chars_cons; split; [reflexivity|];
              apply all_chars_cons; auto|].
      split; [auto|]. split; [discriminate|].
      intros H. apply Hm in H. discriminate.
    + split; [apply all_chars_cons; auto|].
      split; [now apply ident_not_digit_letter|].
      split; [discriminate|]. intros H. apply Hm in H. discriminate.
Qed.

Lemma sanitized_name_is_identifier_witness : sanitize_name "_" = EmptyString.
Proof.
  apply (proj2 (proj2 (proj2 (sanitized_name_is_identifier "_")))). right. reflexivity.
Defined.

(** X22: a name and the same name with one underscore in front get the
    same clean name, unless the name itself begins with an underscore:
    [sanitize_name] maps [_foo] and [foo] both to [foo]. *)
Theorem sanitize_name_collides (name : string) :
  startswith "_" name = false ->
  sanitize_name (String "_" name) = sanitize_name name.
Proof.
  intros Hn. rewrite !sanitize_name_shape. rewrite Hn.
  replace (startswith "_" (String "_" name)) with true; [reflexivity|].
  symmetry. apply startswith_underscore. eauto.
Qed.

Lemma sanitize_name_collides_witness :
  sanitize_name (String "_" "foo") = sanitize_name "foo".
Proof. apply (sanitize_name_collides "foo"). reflexivity. Defined.

(** X23: a name that is already a C identifier beginning with a letter
    is returned unchanged. *)
Theorem sanitize_name_keeps_identifier (c : ascii) (r : string) :
  is_letter c = true -> all_chars is_ident_char r ->
  sanitize_name (String c r) = String c r.
Proof.
  intros Hc Hr. rewrite sanitize_name_shape.
  assert (H1 : startswith "_" (String c r) = false).
  { destruct (startswith "_" (String c r)) eqn:E; [|reflexivity].
    apply startswith_underscore in E as (r' & E). injection E as -> _.
    discriminate. }
  rewrite H1. cbv zeta.
  rewrite sub_non_ident_id
    by (apply all_chars_cons; split; [now apply letter_is_ident | exact Hr]).
  rewrite ident_digit by now apply letter_is_ident.
  destruct (in_range "0" "9" c) eqn:Hd; [|reflexivity].
  exfalso. revert Hc Hd. clear. by_cases_on_char c.
Qed.

Lemma sanitize_name_keeps_identifier_witness :
  sanitize_name (String "g" "ame_score") = String "g" "ame_score".
Proof.
  apply (sanitize_name_keeps_identifier "g" "ame_score"); [reflexivity|].
  unfold all_chars. cbn [String.list_ascii_of_string]. repeat constructor.
Defined.

(** ** Sorting by address *)

Lemma insert_by_address_perm (x : symbol) (l : list symbol) :
  insert_by_address x l ≡ₚ x :: l.
Proof.
  induction l as [|y l IH]; [reflexivity|]. cbn [insert_by_address].
  destruct (address x <=? address y); [reflexivity|].
  rewrite IH. apply perm_swap.
Qed.

Lemma sort_by_address_perm (l : list symbol) : sort_by_address l ≡ₚ l.
Proof.
  induction l as [|x l IH]; [reflexivity|].
  cbn [sort_by_address foldr]. fold (sort_by_address l).
  rewrite insert_by_address_perm. now rewrite IH.
Qed.

Lemma insert_by_address_sorted (x : symbol) (l : list symbol) :
  StronglySorted address_le l -> StronglySorted address_le (insert_by_address x l).
Proof.
  induction l as [|y l IH]; intros Hl.
  - repeat constructor.
  - cbn [insert_by_address]. apply StronglySorted_inv in Hl as [Hl Hy].
    destruct (Z.leb_spec (address x) (address y)) as [Hle | Hgt].
    + constructor; [constructor; assumption|].
      constructor; [exact Hle|].
      eapply Forall_impl; [exact Hy|]. unfold address_le. intros z Hz. lia.
    + constructor; [apply IH; exact Hl|].
      rewrite insert_by_address_perm. constructor; [unfold address_le; lia | exact Hy].
Qed.

Lemma sort_by_address_sorted (l : list symbol) :
  StronglySorted address_le (sort_by_address l).
Proof.
  induction l as [|x l IH]; [constructor|].
  cbn [sort_by_address foldr]. now apply insert_by_address_sorted.
Qed.

(** Symbols of equal address keep their order. *)
Lemma insert_by_address_stable (a : Z) (x : symbol) (l : list symbol) :
  List.filter (fun s => address s =? a) (insert_by_address x l)
  = List.filter (fun s => address s =? a) (x :: l).
Proof.
  induction l as [|y l IH]; [reflexivity|]. cbn [insert_by_address].
  destruct (Z.leb_spec (address x) (address y)) as [Hle | Hgt]; [reflexivity|].
  cbn [List.filter] in *. rewrite IH.
  destruct (Z.eqb_spec (address x) a), (Z.eqb_spec (address y) a);
    try reflexivity. lia.
Qed.

Lemma sort_by_address_stable (a : Z) (l : list symbol) :
  List.filter (fun s => address s =? a) (sort_by_address l)
  = List.filter (fun s => address s =? a) l.
Proof.
  induction l as [|x l IH]; [reflexivity|].
  cbn [sort_by_address foldr]. fold (sort_by_address l).
  rewrite insert_by_address_stable. cbn [List.filter]. now rewrite IH.
Qed.

Lemma filter_length_perm (f : symbol -> bool) (l k : list symbol) :
  l ≡ₚ k -> length (List.filter f l) = length (List.filter f k).
Proof.
  induction 1 as [|x l k _ IH|x y l|l k m _ IH1 _ IH2]; cbn [List.filter].
  - reflexivity.
  - destruct (f x); cbn [length]; congruence.
  - destruct (f x), (f y); reflexivity.
  - congruence.
Qed.

(** ** The loop of [generate_header] *)

Lemma eligible_spec (sym : symbol) :
  eligible sym = true
  <-> is_linker_symbol (name sym) = false /\ clean_name_of sym <> EmptyString.
Proof.
  unfold eligible, clean_name_of.
  rewrite andb_true_iff, !negb_true_iff, String.eqb_neq. reflexivity.
Qed.

Lemma emit_symbol_cases (st : emit_state) (sym : symbol) :
  emit_symbol st sym
  = if eligible sym then
      if bool_decide (clean_name_of sym ∈ seen_names st) then
        EmitState (out_lines st) (seen_names st)
          (warnings st ++ [duplicate_warning (clean_name_of sym) sym])
      else
        EmitState (out_lines st ++ [declaration_line (clean_name_of sym) sym])
          ({[clean_name_of sym]} ∪ seen_names st) (warnings st)
    else st.
Proof.
  unfold emit_symbol, eligible, clean_name_of.
  destruct (is_linker_symbol (name sym)); [reflexivity|]. cbn [negb andb].
  destruct (sanitize_name (name sym)) as [|c r]; reflexivity.
Qed.

Lemma emit_fold (l : list symbol) : forall st : emit_state,
  out_lines (fold_left emit_symbol l st)
  = out_lines st
    ++ map (fun s => declaration_line (clean_name_of s) s)
           (kept_symbols (seen_names st) l)
  /\ (length (warnings (fold_left emit_symbol l st))
      + length (kept_symbols (seen_names st) l)
      = length (warnings st) + length (List.filter eligible l))%nat.
Proof.
  induction l as [|sym l IH]; intros st.
  - cbn. rewrite app_nil_r. split; [reflexivity | lia].
  - cbn [fold_left kept_symbols List.filter]. fold (clean_name_of sym).
    destruct (IH (emit_symbol st sym)) as [Hl Hw]. rewrite Hl.
    rewrite emit_symbol_cases in *.
    destruct (eligible sym); cbn [andb]; [|split; [reflexivity | exact Hw]].
    destruct (bool_decide (clean_name_of sym ∈ seen_names st));
      cbn [negb out_lines seen_names warnings] in *.
    + split; [reflexivity|]. rewrite length_app in Hw. cbn [length] in *. lia.
    + split; [now rewrite <- app_assoc|]. cbn [length] in *. lia.
Qed.

Lemma kept_sublist (l : list symbol) : forall seen, kept_symbols seen l `sublist_of` l.
Proof.
  induction l as [|sym l IH]; intros seen; [constructor|].
  cbn [kept_symbols].
  destruct (eligible sym && negb (bool_decide (sanitize_name (name sym) ∈ seen)));
    [apply sublist_skip | apply sublist_cons]; apply IH.
Qed.

Lemma kept_fresh (l : list symbol) : forall seen,
  Forall (fun s => eligible s = true /\ clean_name_of s ∉ seen) (kept_symbols seen l).
Proof.
  induction l as [|sym l IH]; intros seen; [constructor|].
  cbn [kept_symbols]. fold (clean_name_of sym).
  destruct (eligible sym) eqn:He; cbn [andb]; [|apply IH].
  destruct (bool_decide_reflect (clean_name_of sym ∈ seen)) as [Hin | Hout];
    cbn [negb]; [apply IH|].
  constructor; [auto|].
  eapply Forall_impl; [apply IH|]. cbn beta. intros s [Hs Hn].
  split; [exact Hs|]. intros Hu. apply Hn. apply elem_of_union. now right.
Qed.

Lemma kept_nodup (l : list symbol) : forall seen,
  NoDup (clean_name_of <$> kept_symbols seen l).
Proof.
  induction l as [|sym l IH]; intros seen; [constructor|].
  cbn [kept_symbols]. fold (clean_name_of sym).
  destruct (eligible sym && negb (bool_decide (clean_name_of sym ∈ seen)));
    [|apply IH].
  rewrite fmap_cons. constructor; [|apply IH].
  intros Hin. apply list_elem_of_fmap in Hin as (s & Hs & Hin).
  pose proof (kept_fresh l ({[clean_name_of sym]} ∪ seen)) as Hf.
  rewrite Forall_forall in Hf. destruct (Hf s Hin) as [_ Hn].
  apply Hn. apply elem_of_union. left. apply elem_of_singleton. now symmetry.
Qed.

Lemma kept_complete (l : list symbol) : forall seen s,
  s ∈ l -> eligible s = true ->
  clean_name_of s ∈ seen \/ clean_name_of s ∈ clean_name_of <$> kept_symbols seen l.
Proof.
  induction l as [|sym l IH]; intros seen s Hin He.
  - apply elem_of_nil in Hin. contradiction.
  - cbn [kept_symbols]. fold (clean_name_of sym).
    apply elem_of_cons in Hin as [-> | Hin].
    + rewrite He. cbn [andb].
      destruct (bool_decide_reflect (clean_name_of sym ∈ seen)) as [Hs | Hs];
        cbn [negb]; [auto|].
      right. rewrite fmap_cons. apply list_elem_of_here.
    + destruct (eligible sym && negb (bool_decide (clean_name_of sym ∈ seen)));
        [|now apply IH].
      destruct (IH ({[clean_name_of sym]} ∪ seen) s Hin He) as [Hs | Hs].
      * apply elem_of_union in Hs as [Hs | Hs]; [|auto].
        apply elem_of_singleton in Hs. right. rewrite fmap_cons, Hs.
        apply list_elem_of_here.
      * right. rewrite fmap_cons. now apply list_elem_of_further.
Qed.

Lemma sublist_strongly_sorted {A : Type} (R : A -> A -> Prop) (l1 l2 : list A) :
  l1 `sublist_of` l2 -> StronglySorted R l2 -> StronglySorted R l1.
Proof.
  induction 1 as [|x l1 l2 Hsub IH|x l1 l2 Hsub IH]; intros Hs.
  - constructor.
  - apply StronglySorted_inv in Hs as [Hs Hx]. constructor; [now apply IH|].
    apply Forall_forall. intros y Hy. rewrite Forall_forall in Hx.
    apply Hx. eapply elem_of_sublist; eassumption.
  - apply StronglySorted_inv in Hs as [Hs _]. now apply IH.
Qed.

Lemma kept_least (l : list symbol) : forall seen,
  StronglySorted address_le l ->
  forall s, s ∈ l -> eligible s = true -> clean_name_of s ∉ seen ->
  exists k, k ∈ kept_symbols seen l
            /\ clean_name_of k = clean_name_of s
            /\ address k <= address s.
Proof.
  induction l as [|sym l IH]; intros seen Hsorted s Hin He Hfresh.
  - apply elem_of_nil in Hin. contradiction.
  - apply StronglySorted_inv in Hsorted as [Hsorted Hsym].
    cbn [kept_symbols]. fold (clean_name_of sym).
    apply elem_of_cons in Hin as [-> | Hin].
    + rewrite He. rewrite bool_decide_eq_false_2 by exact Hfresh. cbn [andb negb].
      exists sym. split; [apply list_elem_of_here|]. split; [reflexivity | lia].
    + destruct (eligible sym) eqn:Hes; cbn [andb]; [|now apply IH].
      destruct (bool_decide_reflect (clean_name_of sym ∈ seen)) as [Hs | Hs];
        cbn [negb]; [now apply IH|].
      destruct (decide (clean_name_of sym = clean_name_of s)) as [Heq | Hne].
      * exists sym. split; [apply list_elem_of_here|]. split; [exact Heq|].
        rewrite Forall_forall in Hsym. apply (Hsym s Hin).
      * destruct (IH ({[clean_name_of sym]} ∪ seen) Hsorted s Hin He)
          as (k & Hk & Hc & Ha).
        { intros Hu. apply elem_of_union in Hu as [Hu | Hu]; [|auto].
          apply elem_of_singleton in Hu. congruence. }
        exists k. split; [now apply list_elem_of_further | auto].
Qed.

Lemma generate_header_unfold (symbols : list symbol) (namespace : string)
    (source_file : option string) (now : string) :
  generate_header symbols namespace source_file now
  = let st := fold_left emit_symbol (sort_by_address symbols)
                (EmitState (prologue namespace source_file now) ∅ []) in
    (join_lines (out_lines st ++ epilogue namespace), warnings st).
Proof.
  unfold generate_header, prologue, epilogue.
  destruct source_file as [[|c r]|]; reflexivity.
Qed.

Lemma generate_header_kept (symbols : list symbol) (namespace : string)
    (source_file : option string) (now : string) :
  let kept := kept_symbols ∅ (sort_by_address symbols) in
  (generate_header symbols namespace source_file now).1
  = join_lines (prologue namespace source_file now
                ++ map (fun s => declaration_line (clean_name_of s) s) kept
                ++ epilogue namespace)
  /\ (length (generate_header symbols namespace source_file now).2 + length kept
      = length (List.filter eligible symbols))%nat.
Proof.
  intros kept. rewrite generate_header_unfold. cbv zeta. cbn [fst snd].
  destruct (emit_fold (sort_by_address symbols)
              (EmitState (prologue namespace source_file now) ∅ [])) as [Hl Hw].
  cbn [out_lines seen_names warnings length] in *. rewrite Hl. fold kept.
  split; [now rewrite <- app_assoc|].
  rewrite (filter_length_perm eligible _ _ (sort_by_address_perm symbols)) in Hw.
  exact Hw.
Qed.

(** X24: the header declares each clean name once.  The declarations
    are those of a selection of the symbols given: none of them is a
    linker symbol, their clean names are non-empty C identifiers, no
    two of them share a clean name, and every symbol that is not a
    linker symbol and has a non-empty clean name finds its clean name
    declared.  One warning is printed for each such symbol that is not
    declared. *)
Theorem header_declares_each_name_once (symbols : list symbol) (namespace : string)
    (source_file : option string) (now : string) :
  exists kept : list symbol,
    (generate_header symbols namespace source_file now).1
    = join_lines (prologue namespace source_file now
                  ++ map (fun s => declaration_line (clean_name_of s) s) kept
                  ++ epilogue namespace) /\
    Forall (fun s => s ∈ symbols
                     /\ is_linker_symbol (name s) = false
                     /\ clean_name_of s <> EmptyString
                     /\ all_chars is_ident_char (clean_name_of s)) kept /\
    NoDup (clean_name_of <$> kept) /\
    (forall s, s ∈ symbols -> eligible s = true ->
               clean_name_of s ∈ clean_name_of <$> kept) /\
    (length (generate_header symbols namespace source_file now).2 + length kept
     = length (List.filter eligible symbols))%nat.
Proof.
  destruct (generate_header_kept symbols namespace source_file now) as [Htext Hwarn].
  cbv zeta in *. set (kept := kept_symbols ∅ (sort_by_address symbols)) in *.
  exists kept. split; [exact Htext|]. split; [|split; [|split]].
  - pose proof (kept_fresh (sort_by_address symbols) ∅) as Hf. fold kept in Hf.
    apply Forall_forall. intros s Hs. rewrite Forall_forall in Hf.
    destruct (Hf s Hs) as [He _]. apply eligible_spec in He as [Hl Hc].
    split; [|split; [exact Hl|split; [exact Hc|]]].
    + rewrite <- (sort_by_address_perm symbols).
      eapply elem_of_sublist; [exact Hs | apply kept_sublist].
    + apply sanitized_name_chars.
  - apply kept_nodup.
  - intros s Hs He.
    destruct (kept_complete (sort_by_address symbols) ∅ s) as [Hin | Hin];
      [now rewrite (sort_by_address_perm symbols) | exact He | | exact Hin].
    apply elem_of_empty in Hin. contradiction.
  - exact Hwarn.
Qed.

Lemma header_declares_each_name_once_witness :
  exists kept : list symbol,
    (generate_header [Symbol 0xFF0004 "D" "_b"; Symbol 0xFF0000 "D" "b"] "Sym" None "T").1
    = join_lines (prologue "Sym" None "T"
                  ++ map (fun s => declaration_line (clean_name_of s) s) kept
                  ++ epilogue "Sym") /\
    clean_name_of (Symbol 0xFF0004 "D" "_b") ∈ clean_name_of <$> kept.
Proof.
  destruct (header_declares_each_name_once
              [Symbol 0xFF0004 "D" "_b"; Symbol 0xFF0000 "D" "b"] "Sym" None "T")
    as (kept & Htext & _ & _ & Hall & _).
  exists kept. split; [exact Htext|].
  apply Hall; [apply list_elem_of_here | reflexivity].
Defined.

(** X25: the declarations come in ascending order of address, symbols
    of equal address in the order given; and of the symbols that
    compete for one clean name, the one declared has the lowest
    address. *)
Theorem header_order_and_winner (symbols : list symbol) (namespace : string)
    (source_file : option string) (now : string) :
  exists kept : list symbol,
    (generate_header symbols namespace source_file now).1
    = join_lines (prologue namespace source_file now
                  ++ map (fun s => declaration_line (clean_name_of s) s) kept
                  ++ epilogue namespace) /\
    StronglySorted address_le kept /\
    (forall a, List.filter (fun s => address s =? a) kept
               `sublist_of` List.filter (fun s => address s =? a) symbols) /\
    (forall s, s ∈ symbols -> eligible s = true ->
       exists k, k ∈ kept /\ clean_name_of k = clean_name_of s
                 /\ address k <= address s).
Proof.
  destruct (generate_header_kept symbols namespace source_file now) as [Htext _].
  cbv zeta in *. set (kept := kept_symbols ∅ (sort_by_address symbols)) in *.
  pose proof (kept_sublist (sort_by_address symbols) ∅) as Hsub. fold kept in Hsub.
  exists kept. split; [exact Htext|]. split; [|split].
  - eapply sublist_strongly_sorted; [exact Hsub | apply sort_by_address_sorted].
  - intros a. rewrite <- (sort_by_address_stable a symbols).
    clear -Hsub. induction Hsub as [|x l1 l2 Hsub IH|x l1 l2 Hsub IH];
      cbn [List.filter].
    + constructor.
    + destruct (address x =? a); [now apply sublist_skip | exact IH].
    + destruct (address x =? a); [now apply sublist_cons | exact IH].
  - intros s Hs He.
    apply (kept_least (sort_by_address symbols) ∅);
      [apply sort_by_address_sorted | | exact He | apply not_elem_of_empty].
    now rewrite (sort_by_address_perm symbols).
Qed.

Lemma header_order_and_winner_witness :
  exists k kept,
    (generate_header [Symbol 0xFF0004 "D" "_b"; Symbol 0xFF0000 "D" "b"] "Sym" None "T").1
    = join_lines (prologue "Sym" None "T"
                  ++ map (fun s => declaration_line (clean_name_of s) s) kept
                  ++ epilogue "Sym") /\
    k ∈ kept /\
    clean_name_of k = clean_name_of (Symbol 0xFF0004 "D" "_b") /\
    address k <= address (Symbol 0xFF0004 "D" "_b").
Proof.
  destruct (header_order_and_winner
              [Symbol 0xFF0004 "D" "_b"; Symbol 0xFF0000 "D" "b"] "Sym" None "T")
    as (kept & Htext & _ & _ & Hwin).
  destruct (Hwin (Symbol 0xFF0004 "D" "_b")) as (k & Hk & Hc & Ha);
    [apply list_elem_of_here | reflexivity |].
  exists k, kept. auto.
Defined.

(** X26: when no symbol is eligible, in particular when there is none
    at all, the header is the fixed opening and closing lines around an
    empty namespace, and nothing is printed on the error stream.  The
    line naming the source is present only for a non-empty name. *)
Theorem header_without_symbols (symbols : list symbol) (namespace : string)
    (source_file : option string) (now : string) :
  Forall (fun s => eligible s = false) symbols ->
  generate_header symbols namespace source_file now
  = (join_lines (prologue namespace source_file now ++ epilogue namespace), []) /\
  (prologue namespace None now = prologue namespace (Some EmptyString) now) /\
  length (prologue namespace None now) = 9%nat /\
  (forall c r, length (prologue namespace (Some (String c r)) now) = 10%nat).
Proof.
  intros Hnone. split; [|repeat split].
  destruct (generate_header_kept symbols namespace source_file now) as [Htext Hwarn].
  cbv zeta in *.
  assert (Hf : List.filter eligible symbols = []).
  { clear -Hnone. induction symbols as [|s l IH]; [reflexivity|].
    apply Forall_cons in Hnone as [Hs Hl]. cbn [List.filter]. rewrite Hs. auto. }
  rewrite Hf in Hwarn. cbn [length] in Hwarn.
  destruct (kept_symbols ∅ (sort_by_address symbols)); [|cbn [length] in Hwarn; lia].
  destruct (generate_header symbols namespace source_file now) as [text warns].
  cbn [fst snd map app] in *. rewrite Htext.
  destruct warns; [reflexivity | cbn [length] in Hwarn; lia].
Qed.

Lemma header_without_symbols_witness :
  generate_header [Symbol 0xFF0000 "D" "__bss_start"] "Sym" None "T"
  = (join_lines (prologue "Sym" None "T" ++ epilogue "Sym"), []).
Proof.
  apply (header_without_symbols [Symbol 0xFF0000 "D" "__bss_start"] "Sym" None "T").
  repeat constructor.
Defined.

(** ** From the lines read to the header *)

Lemma filter_ram_symbols_spec (symbols : list symbol) (ram_start ram_end : Z)
    (s : symbol) :
  s ∈ filter_ram_symbols symbols ram_start ram_end
  <-> s ∈ symbols /\ ram_start <= address s <= ram_end.
Proof.
  unfold filter_ram_symbols. rewrite !list_elem_of_In, filter_In.
  rewrite andb_true_iff, !Z.leb_le. tauto.
Qed.

(** X27: whatever lines are read, every constant that the converter
    declares comes from a line that [parse_nm_output] accepts and has
    its address within the RAM range asked for; with a range whose end
    is below its start nothing is declared.  The address is written so
    that reading the hexadecimal text gives it back, on exactly six
    digits when the range lies within 24 bits. *)
Theorem convert_declares_ram_symbols (lines : list string) (namespace : string)
    (ram_start ram_end : Z) (source_file : option string) (now : string) :
  exists kept : list symbol,
    (convert lines namespace ram_start ram_end source_file now).1
    = join_lines (prologue namespace source_file now
                  ++ map (fun s => declaration_line (clean_name_of s) s) kept
                  ++ epilogue namespace) /\
    Forall (fun s => s ∈ parse_nm_output lines
                     /\ ram_start <= address s <= ram_end
                     /\ int16 (format_0X 6 (address s)) = address s) kept /\
    (ram_end < ram_start -> kept = []) /\
    (ram_end <= 0xFFFFFF ->
     Forall (fun s => String.length (format_0X 6 (address s)) = 6%nat) kept).
Proof.
  unfold convert.
  set (symbols := filter_ram_symbols (parse_nm_output lines) ram_start ram_end).
  destruct (generate_header_kept symbols namespace source_file now) as [Htext _].
  cbv zeta in *. set (kept := kept_symbols ∅ (sort_by_address symbols)) in *.
  assert (Hin : forall s, s ∈ kept ->
            s ∈ parse_nm_output lines /\ ram_start <= address s <= ram_end
            /\ 0 <= address s).
  { intros s Hs.
    assert (Hsym : s ∈ symbols).
    { rewrite <- (sort_by_address_perm symbols).
      eapply elem_of_sublist; [exact Hs | apply kept_sublist]. }
    apply filter_ram_symbols_spec in Hsym as [Hp Hr].
    split; [exact Hp|]. split; [exact Hr|].
    pose proof (parsed_symbols_nonneg lines) as Hnn.
    rewrite Forall_forall in Hnn. now apply Hnn. }
  exists kept. split; [exact Htext|]. split; [|split].
  - apply Forall_forall. intros s Hs. destruct (Hin s Hs) as (Hp & Hr & Hn).
    split; [exact Hp|]. split; [exact Hr|].
    now apply (hex_text_value 6).
  - intros Hempty. destruct kept as [|s kept']; [reflexivity|].
    destruct (Hin s) as (_ & Hr & _); [apply list_elem_of_here | lia].
  - intros Hend. apply Forall_forall. intros s Hs.
    destruct (Hin s Hs) as (_ & Hr & Hn).
    apply (hex_text_length 6); [lia | lia | change (16 ^ Z.of_nat 6) with 16777216; lia].
Qed.

Lemma convert_declares_ram_symbols_witness :
  exists kept : list symbol,
    (convert ["00ff0000 D game_score"; "00000200 T main"]%string
             "Sym" 0xFF0000 0xFFFFFF None "T").1
    = join_lines (prologue "Sym" None "T"
                  ++ map (fun s => declaration_line (clean_name_of s) s) kept
                  ++ epilogue "Sym") /\
    Forall (fun s => String.length (format_0X 6 (address s)) = 6%nat) kept.
Proof.
  destruct (convert_declares_ram_symbols
              ["00ff0000 D game_score"; "00000200 T main"]%string
              "Sym" 0xFF0000 0xFFFFFF None "T") as (kept & Htext & _ & _ & Hlen).
  exists kept. split; [exact Htext|]. apply Hlen. lia.
Defined.
